(** * Wikipedia sentence scraper: the crawl frontier and the sentence finder

    A shallow embedding of [wikipedia_scraper.py] and [sentence_finder.py].

    - Python [str] values are lists of Unicode code points.
    - The four manager objects shared between the processes of the
      scraper ([links_to_visit], [visited_links], [currently_downloading],
      [downloaded_responses]) are one record; the processes are modelled
      by the program points at which they touch that record, and an
      execution is an interleaving of those steps.
    - What the program gets from outside (the result of [requests.get],
      what BeautifulSoup finds in a page, the clock, the files of the log
      directory) is data carried by the events or by the state. *)

From Stdlib Require Import String Ascii DecimalString DecimalNat.
From Stdlib Require Import List NArith ZArith Bool Arith Lia.
Import ListNotations.

Set Implicit Arguments.

(** ** Python values *)

Definition char := N.
Definition str := list char.

(** A literal of the source, for the ASCII ones. *)
Definition lit (s : string) : str :=
  map N_of_ascii (list_ascii_of_string s).
Arguments lit s%_string.

Definition str_eq_dec : forall a b : str, {a = b} + {a <> b} :=
  list_eq_dec N.eq_dec.

Definition str_eqb (a b : str) : bool :=
  if str_eq_dec a b then true else false.

(** [x in l] *)
Definition str_in (x : str) (l : list str) : bool :=
  if in_dec str_eq_dec x l then true else false.

(** [s.startswith(p)] *)
Fixpoint startswith (p s : str) : bool :=
  match p, s with
  | [], _ => true
  | a :: p', b :: s' => N.eqb a b && startswith p' s'
  | _ :: _, [] => false
  end.

(** [c in s] for a one-character [c] *)
Definition char_in (c : char) (s : str) : bool := existsb (N.eqb c) s.

Module PyList.

Section Ops.
Variable A : Type.

(** [l.pop()]: the last element and the list without it; [None] is
    the [IndexError] of the empty list. *)
Fixpoint pop (l : list A) : option (A * list A) :=
  match l with
  | [] => None
  | [x] => Some (x, [])
  | x :: l' =>
      match pop l' with
      | Some (y, r) => Some (y, x :: r)
      | None => None
      end
  end.

Variable eq_dec : forall a b : A, {a = b} + {a <> b}.

(** [l.remove(x)]: drops the first occurrence; [None] is the
    [ValueError] of an absent element. *)
Fixpoint remove (x : A) (l : list A) : option (list A) :=
  match l with
  | [] => None
  | y :: l' =>
      if eq_dec x y then Some l'
      else match remove x l' with
           | Some r => Some (y :: r)
           | None => None
           end
  end.
End Ops.

End PyList.

(** A [dict] keeps its keys in insertion order, and the scraper reads
    that order ([list(d.keys())[0]]): an association list without
    duplicate keys. *)
Module PyDict.

Section Ops.
Variable V : Type.

Definition t := list (str * V).

Definition keys (d : t) : list str := map fst d.

Fixpoint get (k : str) (d : t) : option V :=
  match d with
  | [] => None
  | (k', v) :: d' => if str_eq_dec k k' then Some v else get k d'
  end.

(** [d[k] = v]: a present key keeps its place, a new one goes last. *)
Fixpoint set (k : str) (v : V) (d : t) : t :=
  match d with
  | [] => [(k, v)]
  | (k', v') :: d' =>
      if str_eq_dec k k' then (k, v) :: d' else (k', v') :: set k v d'
  end.

(** [del d[k]] *)
Fixpoint del (k : str) (d : t) : t :=
  match d with
  | [] => []
  | (k', v') :: d' =>
      if str_eq_dec k k' then d' else (k', v') :: del k d'
  end.
End Ops.

End PyDict.

(** ** Pages

    The scraper and the finder look at a page only through
    [BeautifulSoup(...).find(id=...)]; [find] gives [None] for an id the
    page does not have, and the attribute access that follows raises
    [AttributeError]. A page is the record of what those lookups give. *)

(** An [<a>] element: [link.has_attr('href')] and [link['href']]. *)
Record Anchor := { href : option str }.

Record Soup := {
  firstHeading : option str;          (* soup.find(id="firstHeading").text *)
  bodyContent : option (list Anchor); (* soup.find(id="bodyContent").find_all("a") *)
  mw_content_text : option str        (* soup.find(id="mw-content-text").text *)
}.

(** The response of [requests.get]; [BeautifulSoup(response.content,
    'html.parser')] is its [content] seen as a [Soup]. *)
Record Response := { content : Soup }.

Definition BeautifulSoup (response_content : Soup) : Soup := response_content.

(** What [requests.get] can raise (requests.exceptions), with the part
    of the class hierarchy that the [except] clause of the download
    worker depends on. *)
Inductive RequestException :=
| ConnectionError
| ProxyError
| SSLError
| ConnectTimeout
| ReadTimeout
| ChunkedEncodingError
| ContentDecodingError
| TooManyRedirects
| InvalidURL.

(** [isinstance(e, requests.exceptions.ConnectionError)] *)
Definition is_ConnectionError (e : RequestException) : bool :=
  match e with
  | ConnectionError | ProxyError | SSLError | ConnectTimeout => true
  | _ => false
  end.

Inductive FetchOutcome :=
| Responded (response : Response)
| Raised (e : RequestException).

(** ** The scraper *)

Module WikipediaScraper.

Definition WIKI_PAGE_TAG : str := lit "/wiki/".
Definition DOWNLOADED_RESPONSES_TO_BUFFER : nat := 100.
Definition PROGRESS_FILES : list str := [lit "progress1"; lit "progress2"].

(** [BASE_WIKIPEDIA_URL.format(language)] *)
Definition BASE_WIKIPEDIA_URL (language : str) : str :=
  lit "https://" ++ language ++ lit ".wikipedia.org".

(** The parameters fixed by [__init__]. *)
Record Params := {
  wikipedia_url : str;
  initial_url : str;
  num_download_workers : nat;
  log_dir : option str
}.

Definition __init__ (initial : option str) (language : str)
    (workers : nat) (dir : option str) : Params :=
  {| wikipedia_url := BASE_WIKIPEDIA_URL language;
     initial_url := match initial with
                    | Some u => u
                    | None => BASE_WIKIPEDIA_URL language
                    end;
     num_download_workers := workers;
     log_dir := dir |}.

(** The shared manager objects. *)
Record Shared := {
  links_to_visit : list str;
  visited_links : list str;
  currently_downloading : list str;
  downloaded_responses : PyDict.t Response
}.

Definition cleared : Shared :=
  {| links_to_visit := []; visited_links := [];
     currently_downloading := []; downloaded_responses := [] |}.

(** *** [page_download_worker]

    One turn of the loop has three accesses to the shared objects:
    the locked test-and-pop, the unlocked [downloaded_responses[url] =
    response] after the download, and the locked [remove]. *)

Inductive Worker :=
| AtLoopHead                 (* about to take the lock *)
| Downloading (url : str)    (* lock released, requests.get to be called *)
| Removing (url : str)       (* after the try statement *)
| Crashed (url : str) (e : RequestException)   (* uncaught exception *)
| Killed.                    (* kill_jobs *)

(** Lines 153-161 and 176-179: the result is the popped url, if any. *)
Definition try_dequeue (sh : Shared) : option str * Shared :=
  if (0 <? length (links_to_visit sh))
     && (length (downloaded_responses sh) <? DOWNLOADED_RESPONSES_TO_BUFFER)
  then
    match PyList.pop (links_to_visit sh) with
    | Some (url, rest) =>
        (Some url,
         {| links_to_visit := rest;
            visited_links := visited_links sh ++ [url];
            currently_downloading := currently_downloading sh ++ [url];
            downloaded_responses := downloaded_responses sh |})
    | None => (None, sh)
    end
  else (None, sh).

(** Lines 164-168: the outcome of [requests.get(url=url)] is given; the
    result is the next program point of the worker, the shared objects
    and what was printed. *)
Definition download (url : str) (o : FetchOutcome) (sh : Shared)
  : Worker * Shared * list str :=
  match o with
  | Responded response =>
      (Removing url,
       {| links_to_visit := links_to_visit sh;
          visited_links := visited_links sh;
          currently_downloading := currently_downloading sh;
          downloaded_responses :=
            PyDict.set url response (downloaded_responses sh) |},
       [])
  | Raised e =>
      if is_ConnectionError e
      then (Removing url, sh, [lit "error getting " ++ url])
      else (Crashed url e, sh, [])
  end.

(** Lines 171-173; [None] is the [ValueError] of [remove]. *)
Definition remove_downloading (url : str) (sh : Shared) : option Shared :=
  match PyList.remove str_eq_dec url (currently_downloading sh) with
  | Some rest =>
      Some {| links_to_visit := links_to_visit sh;
              visited_links := visited_links sh;
              currently_downloading := rest;
              downloaded_responses := downloaded_responses sh |}
  | None => None
  end.

(** *** [parse_links] *)

Definition valid_wiki_page_sub_link (link : Anchor) : bool :=
  match href link with
  | Some h => startswith WIKI_PAGE_TAG h && negb (char_in 58%N h)
  | None => false
  end.

(** Lines 187-195; [None] is the [AttributeError] of a page without
    the [bodyContent] element. *)
Definition valid_wiki_page_links (self : Params) (soup : Soup)
  : option (list str) :=
  match bodyContent soup with
  | Some anchors =>
      Some (map (fun link =>
                   wikipedia_url self ++
                   match href link with Some h => h | None => [] end)
                (filter valid_wiki_page_sub_link anchors))
  | None => None
  end.

Definition not_encountered (sh : Shared) (link : str) : bool :=
  negb (str_in link (visited_links sh))
  && negb (str_in link (currently_downloading sh))
  && negb (str_in link (PyDict.keys (downloaded_responses sh))).

(** Lines 198-205. *)
Definition add_links (links : list str) (sh : Shared) : Shared :=
  {| links_to_visit := links_to_visit sh ++ filter (not_encountered sh) links;
     visited_links := visited_links sh;
     currently_downloading := currently_downloading sh;
     downloaded_responses := downloaded_responses sh |}.

Definition parse_links (self : Params) (soup : Soup) (sh : Shared)
  : option Shared :=
  match valid_wiki_page_links self soup with
  | Some links => Some (add_links links sh)
  | None => None
  end.

(** *** [__next__] *)

(** Lines 102-123, the part under the lock. *)
Inductive Locked :=
| Drained
| Empty
| Popped (url : str) (response : Response).

Definition next_locked (sh : Shared) : Locked * Shared :=
  if (length (links_to_visit sh) =? 0)
     && (length (currently_downloading sh) =? 0)
     && (length (downloaded_responses sh) =? 0)
  then (Drained, sh)
  else if length (downloaded_responses sh) =? 0
  then (Empty, sh)
  else
    match PyDict.keys (downloaded_responses sh) with
    | url :: _ =>
        match PyDict.get url (downloaded_responses sh) with
        | Some response =>
            (Popped url response,
             {| links_to_visit := links_to_visit sh;
                visited_links := visited_links sh;
                currently_downloading := currently_downloading sh;
                downloaded_responses :=
                  PyDict.del url (downloaded_responses sh) |})
        | None => (Empty, sh)
        end
    | [] => (Empty, sh)
    end.

(** Lines 126-131, after the lock is released. *)
Inductive Result :=
| StopIteration
| NotReady                                   (* (None, None, None) *)
| Page (response : Response) (soup : Soup) (title : str)
| AttributeError.

Definition next_unlocked (self : Params) (response : Response) (sh : Shared)
  : Result * Shared :=
  let soup := BeautifulSoup (content response) in
  match parse_links self soup sh with
  | None => (AttributeError, sh)
  | Some sh' =>
      match firstHeading soup with
      | Some title => (Page response soup title, sh')
      | None => (AttributeError, sh')
      end
  end.

(** [__next__] run with no other process stepping in between. *)
Definition __next__ (self : Params) (sh : Shared) : Result * Shared :=
  match next_locked sh with
  | (Drained, sh') => (StopIteration, sh')
  | (Empty, sh') => (NotReady, sh')
  | (Popped _ response, sh') => next_unlocked self response sh'
  end.

(** *** Progress files *)

(** The pickled dictionary. [time.time()] is only compared, so a
    timestamp is an integer number of clock ticks. *)
Record Progress := {
  timestamp : Z;
  saved_links_to_visit : list str;
  saved_visited_links : list str
}.

(** What reading a progress file gives: [open] raises
    [FileNotFoundError] for a missing file; [pickle.load] raises
    [EOFError] for a file that ends where the next record should start
    (an empty file, which is what [open(progress_file, 'wb')] leaves
    until the dump is written), raises [UnpicklingError] for a dump
    that was cut inside a record (the writer was killed while
    [pickle.dump] was writing), and returns the dictionary of a
    complete file. *)
Inductive File :=
| Missing
| Truncated
| Cut
| Pickled (progress : Progress).

Definition Files := str -> File.

Definition os_path_join (dir name : str) : str := dir ++ lit "/" ++ name.

Definition write_file (fs : Files) (path : str) (f : File) : Files :=
  fun p => if str_eq_dec p path then f else fs p.

(** Lines 225-228 and 232-236. *)
Definition snapshot (now : Z) (sh : Shared) : Progress :=
  {| timestamp := now;
     saved_links_to_visit := links_to_visit sh ++ currently_downloading sh;
     saved_visited_links := visited_links sh |}.

(** One turn of the loop of [progress_log_worker], at clock [now]: the
    files after it and the next value of [next_progress_file_id]. *)
Definition progress_log_worker (dir : str) (next_progress_file_id : nat)
    (now : Z) (sh : Shared) (fs : Files) : Files * nat :=
  let progress_files := map (os_path_join dir) PROGRESS_FILES in
  let progress_file := nth next_progress_file_id progress_files [] in
  (write_file fs progress_file (Pickled (snapshot now sh)),
   (next_progress_file_id + 1) mod length progress_files).

(** [sorted(progresses, key=lambda p: p['timestamp'], reverse=True)]:
    the sort is stable, also with [reverse]. *)
Fixpoint insert_newest_first (p : Progress) (l : list Progress)
  : list Progress :=
  match l with
  | [] => [p]
  | q :: l' =>
      if (timestamp q <=? timestamp p)%Z then p :: q :: l'
      else q :: insert_newest_first p l'
  end.

Definition sorted_newest_first (l : list Progress) : list Progress :=
  fold_right insert_newest_first [] l.

(** Lines 253-262: the two [except] clauses pass over [EOFError] and
    [FileNotFoundError]; [None] is the [UnpicklingError] of a cut
    file, which no clause catches. *)
Fixpoint load_all (fs : Files) (progress_files : list str)
  : option (list Progress) :=
  match progress_files with
  | [] => Some []
  | progress_file :: more =>
      match fs progress_file with
      | Pickled progress =>
          match load_all fs more with
          | Some progresses => Some (progress :: progresses)
          | None => None
          end
      | Truncated => load_all fs more
      | Missing => load_all fs more
      | Cut => None
      end
  end.

(** Lines 242-276; [None] when [pickle.load] raised. *)
Definition load_progress_file (self : Params) (fs : Files) (sh : Shared)
  : option (bool * Shared) :=
  match log_dir self with
  | None => Some (false, sh)
  | Some dir =>
      let progress_files := map (os_path_join dir) PROGRESS_FILES in
      match load_all fs progress_files with
      | None => None
      | Some progresses =>
          if length progresses =? 0 then Some (false, sh)
          else
            match sorted_newest_first progresses with
            | newest_progress :: _ =>
                Some
                  (true,
                   {| links_to_visit := saved_links_to_visit newest_progress;
                      visited_links := saved_visited_links newest_progress;
                      currently_downloading := currently_downloading sh;
                      downloaded_responses := downloaded_responses sh |})
            | [] => Some (false, sh)
            end
      end
  end.

Definition append_initial_url (self : Params) (sh : Shared) : Shared :=
  {| links_to_visit := links_to_visit sh ++ [initial_url self];
     visited_links := visited_links sh;
     currently_downloading := currently_downloading sh;
     downloaded_responses := downloaded_responses sh |}.

(** Lines 67-75 of [__iter__]: the shared objects the new processes
    start from; [None] when [load_progress_file] raised, which ends
    [__iter__] before any process is started. *)
Definition __iter__ (self : Params) (fs : Files) : option Shared :=
  match log_dir self with
  | None => Some (append_initial_url self cleared)
  | Some _ =>
      match load_progress_file self fs cleared with
      | Some (true, sh) => Some sh
      | Some (false, sh) => Some (append_initial_url self sh)
      | None => None
      end
  end.

(** *** The running crawl

    The download workers and the consumer of the iterator run side by
    side. Every step below is one access to the shared objects, atomic
    either because it holds [process_lock] or because it is a single
    call on a manager proxy. The one access made without the lock is
    the worker's [downloaded_responses[url] = response], for a url it
    has already put into [visited_links] and [currently_downloading]:
    falling in the middle of a locked section of another process it
    changes no test made there, so each locked section is one step. *)

Inductive Consumer :=
| Iterating                       (* between two calls of __next__ *)
| Holding (response : Response)   (* inside __next__, lock released *)
| Stopped                         (* StopIteration was raised *)
| Failed.                         (* another exception ended the loop *)

Record Crawl := {
  shared : Shared;
  page_download_jobs : list Worker;
  consumer : Consumer;
  requests_sent : list str;   (* every url given to requests.get, in order *)
  stdout : list str
}.

Inductive Event :=
| WorkerLock (i : nat)
| WorkerGet (i : nat) (o : FetchOutcome)
| WorkerRemove (i : nat)
| NextLocked
| NextUnlocked.

Fixpoint set_nth (A : Type) (i : nat) (x : A) (l : list A) : list A :=
  match l, i with
  | [], _ => []
  | _ :: l', O => x :: l'
  | y :: l', S i' => y :: set_nth i' x l'
  end.

Definition kill_jobs (jobs : list Worker) : list Worker :=
  map (fun _ => Killed) jobs.

(** [None]: the event cannot happen in that state (the process is at
    another program point), or the step raises. *)
Definition step (self : Params) (c : Crawl) (e : Event) : option Crawl :=
  match e with
  | WorkerLock i =>
      match nth_error (page_download_jobs c) i with
      | Some AtLoopHead =>
          match try_dequeue (shared c) with
          | (Some url, sh) =>
              Some {| shared := sh;
                      page_download_jobs :=
                        set_nth i (Downloading url) (page_download_jobs c);
                      consumer := consumer c;
                      requests_sent := requests_sent c;
                      stdout := stdout c |}
          | (None, _) => Some c
          end
      | _ => None
      end
  | WorkerGet i o =>
      match nth_error (page_download_jobs c) i with
      | Some (Downloading url) =>
          match download url o (shared c) with
          | (w, sh, printed) =>
              Some {| shared := sh;
                      page_download_jobs := set_nth i w (page_download_jobs c);
                      consumer := consumer c;
                      requests_sent := requests_sent c ++ [url];
                      stdout := stdout c ++ printed |}
          end
      | _ => None
      end
  | WorkerRemove i =>
      match nth_error (page_download_jobs c) i with
      | Some (Removing url) =>
          match remove_downloading url (shared c) with
          | Some sh =>
              Some {| shared := sh;
                      page_download_jobs :=
                        set_nth i AtLoopHead (page_download_jobs c);
                      consumer := consumer c;
                      requests_sent := requests_sent c;
                      stdout := stdout c |}
          | None => None
          end
      | _ => None
      end
  | NextLocked =>
      match consumer c with
      | Iterating | Stopped =>
          match next_locked (shared c) with
          | (Drained, sh) =>
              Some {| shared := sh;
                      page_download_jobs := kill_jobs (page_download_jobs c);
                      consumer := Stopped;
                      requests_sent := requests_sent c;
                      stdout := stdout c |}
          | (Empty, sh) =>
              Some {| shared := sh;
                      page_download_jobs := page_download_jobs c;
                      consumer := Iterating;
                      requests_sent := requests_sent c;
                      stdout := stdout c |}
          | (Popped _ response, sh) =>
              Some {| shared := sh;
                      page_download_jobs := page_download_jobs c;
                      consumer := Holding response;
                      requests_sent := requests_sent c;
                      stdout := stdout c |}
          end
      | _ => None
      end
  | NextUnlocked =>
      match consumer c with
      | Holding response =>
          match next_unlocked self response (shared c) with
          | (r, sh) =>
              Some {| shared := sh;
                      page_download_jobs := page_download_jobs c;
                      consumer := match r with
                                  | Page _ _ _ => Iterating
                                  | _ => Failed
                                  end;
                      requests_sent := requests_sent c;
                      stdout := stdout c |}
          end
      | _ => None
      end
  end.

Fixpoint run (self : Params) (c : Crawl) (events : list Event)
  : option Crawl :=
  match events with
  | [] => Some c
  | e :: more =>
      match step self c e with
      | Some c' => run self c' more
      | None => None
      end
  end.

(** The crawl as [__iter__] leaves it. When [__iter__] raises, the
    shared objects have been cleared (lines 68-71), no process has been
    started and the loop over the iterator never begins. *)
Definition start (self : Params) (fs : Files) : Crawl :=
  match __iter__ self fs with
  | Some sh =>
      {| shared := sh;
         page_download_jobs := repeat AtLoopHead (num_download_workers self);
         consumer := Iterating;
         requests_sent := [];
         stdout := [] |}
  | None =>
      {| shared := cleared;
         page_download_jobs := [];
         consumer := Failed;
         requests_sent := [];
         stdout := [] |}
  end.

End WikipediaScraper.

(** ** Regular expressions

    The part of Python's [re] that the finder uses: a backtracking matcher
    that tries the alternatives of a pattern in the order Python does
    (left alternative first, longest repetition first), the [IGNORECASE]
    flag, and the left-to-right scan of [findall] and [sub]. *)

Module re.

Local Open Scope N_scope.

Inductive regex :=
| Chr (c : char)                                    (* a literal *)
| Dot                                               (* .  *)
| Class (negated : bool) (ranges : list (char * char))   (* [...] *)
| Cat (r1 r2 : regex)
| Alt (r1 r2 : regex)                               (* r1|r2 *)
| Star (r : regex)                                  (* r* *)
| Group (r : regex).                                (* (r) *)

(** r+ *)
Definition Plus (r : regex) : regex := Cat r (Star r).

(** The characters of a literal, one after the other. *)
Fixpoint word (w : str) : regex :=
  match w with
  | [] => Star (Class false [])
  | [c] => Chr c
  | c :: w' => Cat (Chr c) (word w')
  end.

(** The other characters that a literal matches under [IGNORECASE], for
    the letters of the patterns of this program (CPython 3.11: the
    characters with the same lower case, and the extra pairs of the
    compiler such as [s] and the long s, [k] and the Kelvin sign). *)
Definition other_cases (c : char) : list char :=
  (if (65 <=? c) && (c <=? 90) then [c + 32] else [])
  ++ (if (97 <=? c) && (c <=? 122) then [c - 32] else [])
  ++ (if (c =? 115) || (c =? 83) then [383] else [])          (* s *)
  ++ (if (c =? 107) || (c =? 75) then [8490] else [])         (* k *)
  ++ (if (1040 <=? c) && (c <=? 1071) then [c + 32] else [])  (* Cyrillic capitals *)
  ++ (if (1072 <=? c) && (c <=? 1103) then [c - 32] else [])
  ++ (if c =? 1112 then [1032] else [])                       (* je *)
  ++ (if c =? 1032 then [1112] else [])
  ++ (if (c =? 1090) || (c =? 1058) then [7300; 7301] else [])  (* te *)
  ++ (if (c =? 1076) || (c =? 1044) then [7297] else []).       (* de *)

Definition chr_matches (ignorecase : bool) (c x : char) : bool :=
  (x =? c) || (ignorecase && existsb (N.eqb x) (other_cases c)).

Definition in_ranges (ranges : list (char * char)) (x : char) : bool :=
  existsb (fun r => (fst r <=? x) && (x <=? snd r)) ranges.

Definition class_matches (ignorecase negated : bool)
    (ranges : list (char * char)) (x : char) : bool :=
  xorb negated
    (in_ranges ranges x
     || (ignorecase && existsb (in_ranges ranges) (other_cases x))).

(** A repetition of [body], longest first, then [k]; a turn that
    takes no character is not repeated. [n] bounds the number of
    turns and is the length of the string where the repetition starts. *)
Fixpoint repeat_then (body : (str -> option str) -> str -> option str)
    (k : str -> option str) (n : nat) (s : str) {struct n} : option str :=
  match n with
  | O => k s
  | S n' =>
      match body (fun s' => if (length s' <? length s)%nat
                            then repeat_then body k n' s' else None) s with
      | Some rest => Some rest
      | None => k s
      end
  end.

(** [exec i r k s]: match [r] at the start of [s], then go on with [k]
    on what is left; the first success in Python's order. *)
Fixpoint exec (i : bool) (r : regex) (k : str -> option str) (s : str)
    {struct r} : option str :=
  match r with
  | Chr c =>
      match s with
      | x :: s' => if chr_matches i c x then k s' else None
      | [] => None
      end
  | Dot =>
      match s with
      | x :: s' => if x =? 10 then None else k s'
      | [] => None
      end
  | Class negated ranges =>
      match s with
      | x :: s' => if class_matches i negated ranges x then k s' else None
      | [] => None
      end
  | Cat r1 r2 => exec i r1 (exec i r2 k) s
  | Alt r1 r2 =>
      match exec i r1 k s with
      | Some rest => Some rest
      | None => exec i r2 k s
      end
  | Star r1 => repeat_then (exec i r1) k (length s) s
  | Group r1 => exec i r1 k s
  end.

(** The length of the match at the start of [s], if there is one. *)
Definition match_at (i : bool) (r : regex) (s : str) : option nat :=
  match exec i r Some s with
  | Some rest => Some (length s - length rest)%nat
  | None => None
  end.

(** The strings a pattern matches, whatever the order of the tries. *)
Inductive Lang (i : bool) : regex -> str -> Prop :=
| LangChr c x : chr_matches i c x = true -> Lang i (Chr c) [x]
| LangDot x : (x =? 10) = false -> Lang i Dot [x]
| LangClass negated ranges x :
    class_matches i negated ranges x = true ->
    Lang i (Class negated ranges) [x]
| LangCat r1 r2 m1 m2 :
    Lang i r1 m1 -> Lang i r2 m2 -> Lang i (Cat r1 r2) (m1 ++ m2)
| LangAltL r1 r2 m : Lang i r1 m -> Lang i (Alt r1 r2) m
| LangAltR r1 r2 m : Lang i r2 m -> Lang i (Alt r1 r2) m
| LangStarNil r : Lang i (Star r) []
| LangStarCons r m1 m2 :
    Lang i r m1 -> Lang i (Star r) m2 -> Lang i (Star r) (m1 ++ m2)
| LangGroup r m : Lang i r m -> Lang i (Group r) m.

(** [bool(re.search(r, s, flags))] *)
Fixpoint search (i : bool) (r : regex) (s : str) : bool :=
  match match_at i r s with
  | Some _ => true
  | None =>
      match s with
      | [] => false
      | _ :: s' => search i r s'
      end
  end.

(** The scan shared by [findall] and [sub]: the matches, which do not
    overlap, and the characters between them. [inside] counts the
    characters of the last match still to be passed. None of the
    patterns scanned by this program matches the empty string; an empty
    match counts as no match. *)
Inductive Piece :=
| Copied (c : char)
| Matched (m : str).

Fixpoint scan (r : regex) (inside : nat) (s : str) : list Piece :=
  match s with
  | [] => []
  | c :: s' =>
      match inside with
      | S n => scan r n s'
      | O =>
          match match_at false r s with
          | Some (S n) => Matched (firstn (S n) s) :: scan r n s'
          | _ => Copied c :: scan r 0 s'
          end
      end
  end.

(** [re.findall(r, s)] for a pattern whose one group is the whole
    pattern. *)
Definition findall (r : regex) (s : str) : list str :=
  flat_map (fun p => match p with Matched m => [m] | Copied _ => [] end)
           (scan r 0 s).

(** [re.sub(r, repl, s)] for a replacement without group references. *)
Definition sub (r : regex) (repl s : str) : str :=
  flat_map (fun p => match p with Matched _ => repl | Copied c => [c] end)
           (scan r 0 s).

End re.

(** ** The sentence finder *)

Module SentenceFinder.

Import re.
Local Open Scope N_scope.

(** [(last|took|take).* (day)] *)
Definition matcher_en : regex :=
  Cat (Group (Alt (word (lit "last"))
                  (Alt (word (lit "took")) (word (lit "take")))))
      (Cat (Star Dot) (Cat (Chr 32) (Group (word (lit "day"))))).

(** The same pattern for Serbian, in both scripts: [traja], [dan]. *)
Definition matcher_sr : regex :=
  Cat (Group (Alt (word (lit "traja"))
                  (word [1090; 1088; 1072; 1112; 1072])))
      (Cat (Star Dot)
           (Cat (Chr 32)
                (Group (Alt (word (lit "dan")) (word [1076; 1072; 1085]))))).

(** Lines 29-33. *)
Definition sentence_matcher (language : str) : regex :=
  if str_eqb language (lit "en") then matcher_en
  else if str_eqb language (lit "sr") then matcher_sr
  else Star Dot.

(** [([A-Z][^.!?]*[.!?])] *)
Definition terminators : list (char * char) := [(46, 46); (33, 33); (63, 63)].

Definition sentence_pattern : regex :=
  Group (Cat (Class false [(65, 90)])
             (Cat (Star (Class true terminators)) (Class false terminators))).

(** [str.isspace] of one character *)
Definition isspace (c : char) : bool :=
  ((9 <=? c) && (c <=? 13)) || ((28 <=? c) && (c <=? 32))
  || (c =? 133) || (c =? 160) || (c =? 5760)
  || ((8192 <=? c) && (c <=? 8202))
  || (c =? 8232) || (c =? 8233) || (c =? 8239) || (c =? 8287)
  || (c =? 12288).

Fixpoint lstrip (s : str) : str :=
  match s with
  | c :: s' => if isspace c then lstrip s' else s
  | [] => []
  end.

(** [s.strip()] *)
Definition strip (s : str) : str := rev (lstrip (rev (lstrip s))).

(** Lines 87-93. *)
Definition normalize (content_text : str) : str :=
  let content_text := sub (Chr 10) (lit " ") content_text in
  let content_text := sub (Chr 13) (lit " ") content_text in
  let content_text := sub (Chr 9) (lit " ") content_text in
  let content_text := strip content_text in
  sub (Plus (Chr 32)) (lit " ") content_text.

(** Line 96. *)
Definition candidates (content_text : str) : list str :=
  findall sentence_pattern content_text.

(** Lines 87-98: the sentences kept for a page with that text. *)
Definition matching_sentences (sentence_matcher : regex) (content_text : str)
  : list str :=
  filter (search true sentence_matcher) (candidates (normalize content_text)).

(** [s.encode('utf8')]; [None] is the [UnicodeEncodeError] of a
    surrogate. *)
Definition encode_char (c : char) : option (list N) :=
  if c <? 128 then Some [c]
  else if c <? 2048 then Some [192 + c / 64; 128 + c mod 64]
  else if c <? 65536 then
    if (55296 <=? c) && (c <=? 57343) then None
    else Some [224 + c / 4096; 128 + (c / 64) mod 64; 128 + c mod 64]
  else if c <? 1114112 then
    Some [240 + c / 262144; 128 + (c / 4096) mod 64;
          128 + (c / 64) mod 64; 128 + c mod 64]
  else None.

Fixpoint encode (s : str) : option (list N) :=
  match s with
  | [] => Some []
  | c :: s' =>
      match encode_char c, encode s' with
      | Some b, Some bs => Some (b ++ bs)
      | _, _ => None
      end
  end.

(** The output files: their bytes, [None] for a file that does not
    exist. *)
Definition Files := str -> option (list N).

Definition contents (fs : Files) (path : str) : list N :=
  match fs path with Some b => b | None => [] end.

Definition append_file (fs : Files) (path : str) (bytes : list N) : Files :=
  fun p => if str_eq_dec p path then Some (contents fs path ++ bytes)
           else fs p.

(** Lines 109-113: [open(output_file, 'ab')] creates the file, each
    line is written in turn; the flag is false when [encode] raised. *)
Fixpoint write_lines (title : str) (sentences : list str)
    (output_file : str) (fs : Files) : bool * Files :=
  match sentences with
  | [] => (true, fs)
  | sentence :: more =>
      let line := title ++ lit " - " ++ sentence ++ [10] in
      match encode line with
      | Some bytes =>
          write_lines title more output_file
                      (append_file fs output_file bytes)
      | None => (false, fs)
      end
  end.

Definition log_to_output_file (title : str) (sentences : list str)
    (output_file : str) (fs : Files) : bool * Files :=
  write_lines title sentences output_file (append_file fs output_file []).

(** ['{}'.format(n)] *)
Definition format_nat (n : nat) : str :=
  lit (DecimalString.NilEmpty.string_of_uint (Nat.to_uint n)).

(** What the workers share and what they write to. *)
Record World := {
  available_pages : list (str * Soup);
  files : Files;
  stdout : list str
}.

(** Lines 54-56. *)
Definition find_sentences (title : str) (response_content : Soup)
    (w : World) : World :=
  {| available_pages := available_pages w ++ [(title, response_content)];
     files := files w;
     stdout := stdout w |}.

(** Lines 77-80 and 116: the page taken, if any. *)
Definition try_pop (pages : list (str * Soup))
  : option ((str * Soup) * list (str * Soup)) :=
  if (0 <? length pages)%nat then PyList.pop pages else None.

Inductive Turn :=
| Slept        (* no page: sleep and retry *)
| Parsed       (* a page was handled *)
| Died.        (* an exception ended the worker *)

(** [print(line)], the standard output taking UTF-8: the line is
    encoded before any of it is written, and [None] is the
    [UnicodeEncodeError] of a line with a surrogate. *)
Definition print (line : str) (out : list str) : option (list str) :=
  match encode line with
  | Some _ => Some (out ++ [line])
  | None => None
  end.

(** Lines 103-105: the lines are printed in turn; the flag is false
    when a [print] raised, and what was printed before stays. *)
Fixpoint print_all (lines : list str) (out : list str)
  : bool * list str :=
  match lines with
  | [] => (true, out)
  | line :: more =>
      match print line out with
      | Some out' => print_all more out'
      | None => (false, out)
      end
  end.

(** One turn of the loop of [parsing_worker]. *)
Definition parsing_worker (worker_id : nat) (output_file : option str)
    (sentence_matcher : regex) (pages_visited : nat) (w : World)
  : Turn * nat * World :=
  match try_pop (available_pages w) with
  | None => (Slept, pages_visited, w)
  | Some ((title, response_content), rest) =>
      let soup := BeautifulSoup response_content in
      match mw_content_text soup with
      | None =>
          (Died, pages_visited,
           {| available_pages := rest; files := files w;
              stdout := stdout w |})
      | Some content_text =>
          let sentences := matching_sentences sentence_matcher content_text in
          let pages_visited := (pages_visited + 1)%nat in
          let printed :=
            (format_nat worker_id ++ lit " - " ++ format_nat pages_visited
             ++ lit " - " ++ title) :: sentences in
          match print_all printed (stdout w) with
          | (false, out) =>
              (Died, pages_visited,
               {| available_pages := rest; files := files w;
                  stdout := out |})
          | (true, out) =>
              match output_file with
              | Some path =>
                  if (0 <? length sentences)%nat then
                    match log_to_output_file title sentences path
                                             (files w) with
                    | (ok, fs) =>
                        (if ok then Parsed else Died, pages_visited,
                         {| available_pages := rest; files := fs;
                            stdout := out |})
                    end
                  else
                    (Parsed, pages_visited,
                     {| available_pages := rest; files := files w;
                        stdout := out |})
              | None =>
                  (Parsed, pages_visited,
                   {| available_pages := rest; files := files w;
                      stdout := out |})
              end
          end
      end
  end.

End SentenceFinder.

(** ** The buffer and the workers that fill it *)

Module Buffer.

Import WikipediaScraper.

Definition set_downloaded (d : PyDict.t Response) (sh : Shared) : Shared :=
  {| links_to_visit := links_to_visit sh;
     visited_links := visited_links sh;
     currently_downloading := currently_downloading sh;
     downloaded_responses := d |}.

Definition is_downloading (w : Worker) : bool :=
  match w with Downloading _ => true | _ => false end.

(** The workers that have taken a url and not yet stored its page. *)
Definition downloads (jobs : list Worker) : nat :=
  length (filter is_downloading jobs).

(** What bounds the buffer: the pages in it, plus those on their way. *)
Definition within_bound (c : Crawl) : Prop :=
  length (downloaded_responses (shared c)) + downloads (page_download_jobs c)
  <= DOWNLOADED_RESPONSES_TO_BUFFER - 1 + length (page_download_jobs c).

End Buffer.

(** ** Crawls used as examples *)

Module Scenario.

Import WikipediaScraper.

Definition scraper (workers : nat) : Params :=
  __init__ None (lit "en") workers None.

Definition no_files : Files := fun _ => Missing.

Definition main_url : str := lit "https://en.wikipedia.org".

Definition link (path : str) : Anchor := {| href := Some path |}.

Definition page (title : str) (links : list Anchor) : Response :=
  {| content := {| firstHeading := Some title;
                   bodyContent := Some links;
                   mw_content_text := Some [] |} |}.

(** A page that links to the same article twice. *)
Definition page_linking_twice : Response :=
  page (lit "Main Page") [link (lit "/wiki/B"); link (lit "/wiki/B")].

Definition article : Response := page (lit "B") [].

Definition article_url : str := lit "https://en.wikipedia.org/wiki/B".

Definition fetch (i : nat) (response : Response) : list Event :=
  [WorkerLock i; WorkerGet i (Responded response); WorkerRemove i].

Definition refetch : list Event :=
  fetch 0 page_linking_twice ++ [NextLocked; NextUnlocked]
  ++ fetch 0 article ++ fetch 0 article.

(** A page with 101 links, and two workers that both take a url while
    the buffer holds 99 pages. *)
Definition hub : Response :=
  page (lit "Main Page")
       (map (fun n => link (lit "/wiki/" ++ SentenceFinder.format_nat n))
            (seq 0 101)).

Definition overfill : list Event :=
  fetch 0 hub ++ [NextLocked; NextUnlocked]
  ++ concat (repeat (fetch 0 article) 99)
  ++ [WorkerLock 0; WorkerLock 1;
      WorkerGet 0 (Responded article); WorkerGet 1 (Responded article)].

(** A download that ends with an exception other than
    [ConnectionError]: the connection breaks while the body is read. *)
Definition broken_download : list Event :=
  [WorkerLock 0; WorkerGet 0 (Raised ChunkedEncodingError)].

Definition page_without_heading : Response :=
  {| content := {| firstHeading := None; bodyContent := Some [];
                   mw_content_text := Some (lit "Too many requests.") |} |}.

Definition holding_page_without_heading : Shared :=
  {| links_to_visit := []; visited_links := [lit "https://en.wikipedia.org"];
     currently_downloading := [];
     downloaded_responses :=
       [(lit "https://en.wikipedia.org", page_without_heading)] |}.

End Scenario.

Module Outcome.

Import WikipediaScraper Scenario.

Definition after (workers : nat) (events : list Event) : Crawl :=
  match run (scraper workers) (start (scraper workers) no_files) events with
  | Some c => c
  | None => start (scraper workers) no_files
  end.

Definition overfilled : Crawl := Eval vm_compute in after 2 overfill.

Definition stranded : Crawl := Eval vm_compute in after 1 broken_download.

End Outcome.

(** ** What [__iter__] starts from *)

Module Restart.

Import WikipediaScraper.

(** The shared objects after a progress dictionary was loaded. *)
Definition restored (p : Progress) : Shared :=
  {| links_to_visit := saved_links_to_visit p;
     visited_links := saved_visited_links p;
     currently_downloading := [];
     downloaded_responses := [] |}.

(** The shared objects of a crawl that starts from the initial url. *)
Definition cold (self : Params) : Shared :=
  {| links_to_visit := [initial_url self];
     visited_links := [];
     currently_downloading := [];
     downloaded_responses := [] |}.

Definition progress1 (dir : str) : str := os_path_join dir (lit "progress1").
Definition progress2 (dir : str) : str := os_path_join dir (lit "progress2").

(** Two progress files, for the examples. *)
Definition older : Progress :=
  {| timestamp := 10; saved_links_to_visit := [lit "a"];
     saved_visited_links := [lit "b"] |}.

Definition newer : Progress :=
  {| timestamp := 20; saved_links_to_visit := [lit "c"; lit "d"];
     saved_visited_links := [lit "a"; lit "b"] |}.

Definition logging_scraper : Params :=
  __init__ None (lit "en") 8 (Some (lit "log/en/scraper_logs")).

Definition two_files : Files :=
  write_file
    (write_file (fun _ => Missing)
                (progress1 (lit "log/en/scraper_logs")) (Pickled newer))
    (progress2 (lit "log/en/scraper_logs")) (Pickled older).

Definition busy : Shared :=
  {| links_to_visit := [lit "c"; lit "d"];
     visited_links := [lit "a"; lit "b"; lit "e"];
     currently_downloading := [lit "e"];
     downloaded_responses := [] |}.

(** The second file was being written when the log worker was killed;
    the first still has a complete dictionary. *)
Definition fs_with_cut_file : Files :=
  write_file two_files (progress2 (lit "log/en/scraper_logs")) Cut.

(** [load_progress_file] succeeds with [p] and [__iter__] starts from it. *)
Definition loads (self : Params) (fs : Files) (p : Progress) : Prop :=
  load_progress_file self fs cleared = Some (true, restored p)
  /\ __iter__ self fs = Some (restored p).

End Restart.

(** ** Pages given to the finder, for the examples *)

Module Pages.

Import SentenceFinder.

Definition with_text (text : str) : Soup :=
  {| firstHeading := Some (lit "Title"); bodyContent := Some [];
     mw_content_text := Some text |}.

Definition one_page (text : str) : World :=
  {| available_pages := [(lit "Title", with_text text)];
     files := fun _ => None;
     stdout := [] |}.

End Pages.

(** ** Sentences, said without a pattern *)

Module Sentences.

Local Open Scope N_scope.

Definition is_upper (c : char) : bool := (65 <=? c) && (c <=? 90).

Definition is_terminator (c : char) : bool :=
  (c =? 46) || (c =? 33) || (c =? 63).

(** An upper-case letter, then characters that end no sentence, then
    one that does. *)
Definition Sentence (m : str) : Prop :=
  exists u body t,
    m = u :: body ++ [t]
    /\ is_upper u = true
    /\ Forall (fun x => is_terminator x = false) body
    /\ is_terminator t = true.

(** The sentences met when reading a text from left to right: where
    a sentence starts it is taken and reading goes on after its end,
    elsewhere one character is passed. *)
Inductive Split : str -> list str -> Prop :=
| SplitEnd : Split [] []
| SplitPass c s l :
    (forall m rest, c :: s = m ++ rest -> ~ Sentence m) ->
    Split s l -> Split (c :: s) l
| SplitTake m rest l :
    Sentence m -> Split rest l -> Split (m ++ rest) (m :: l).

(** The text up to its first terminator, and what follows. *)
Fixpoint until_terminator (s : str) : option (str * str) :=
  match s with
  | [] => None
  | c :: s' =>
      if is_terminator c then Some ([c], s')
      else match until_terminator s' with
           | Some (m, rest) => Some (c :: m, rest)
           | None => None
           end
  end.

(** One space for every run of spaces; [after_space] tells that the
    character before was a space. *)
Fixpoint squeeze (after_space : bool) (s : str) : str :=
  match s with
  | [] => []
  | c :: s' =>
      if c =? 32 then
        if after_space then squeeze true s' else 32 :: squeeze true s'
      else c :: squeeze false s'
  end.

(** The text after its leading spaces. *)
Fixpoint drop_spaces (s : str) : str :=
  match s with
  | c :: s' => if c =? 32 then drop_spaces s' else s
  | [] => []
  end.

Definition blank (c x : char) : char := if x =? c then 32 else x.

(** The text holds the sentence, after characters that are spaces or
    characters of [before]. *)
Definition Holds (sentence before text : str) : Prop :=
  exists x y,
    text = x ++ sentence ++ y
    /\ Forall (fun c => c = 32 \/ In c before) x.

Definition the_trip : str := lit "The trip took three days.".

(** A Serbian sentence in Cyrillic script: [Put je trajao tri dana.] *)
Definition the_trip_sr : str :=
  [1055; 1091; 1090; 32; 1112; 1077; 32;
   1090; 1088; 1072; 1112; 1072; 1086; 32;
   1090; 1088; 1080; 32; 1076; 1072; 1085; 1072; 46].
Definition the_sky : str := lit "The sky is blue.".

(** Copies of a sentence, each followed by a separator. *)
Fixpoint copies (sentence : str) (separators : list str) : str :=
  match separators with
  | [] => []
  | sep :: more => sentence ++ sep ++ copies sentence more
  end.

End Sentences.

(** ** What a crawl keeps true *)

Module Keeps.

Import WikipediaScraper.

(** The worker has taken [u] out of [links_to_visit] and not yet removed
    it from [currently_downloading]. *)
Definition holds_url (u : str) (w : Worker) : bool :=
  match w with
  | Downloading v | Removing v | Crashed v _ => str_eqb u v
  | AtLoopHead | Killed => false
  end.

Definition holders (u : str) (jobs : list Worker) : nat :=
  length (filter (holds_url u) jobs).

(** [currently_downloading] has one entry per worker that holds a url. *)
Definition accounted (c : Crawl) : Prop :=
  forall u,
    count_occ str_eq_dec (currently_downloading (shared c)) u
    = holders u (page_download_jobs c).

(** What is being downloaded or was downloaded has been visited. *)
Definition recorded (c : Crawl) : Prop :=
  forall u,
    In u (currently_downloading (shared c))
    \/ In u (PyDict.keys (downloaded_responses (shared c))) ->
    In u (visited_links (shared c)).

(** The url of a worker, if it has one. *)
Definition url_of (w : Worker) : option str :=
  match w with
  | Downloading v | Removing v | Crashed v _ => Some v
  | AtLoopHead | Killed => None
  end.

(** The initial url, or an article of the wiki: a path that starts with
    [/wiki/] and has no colon. *)
Definition on_site (self : Params) (u : str) : Prop :=
  u = initial_url self
  \/ exists path,
       u = wikipedia_url self ++ path
       /\ startswith WIKI_PAGE_TAG path = true
       /\ char_in 58%N path = false.

(** Every url the crawl has in hand is on the site. *)
Definition all_on_site (self : Params) (c : Crawl) : Prop :=
  Forall (on_site self) (links_to_visit (shared c))
  /\ Forall (on_site self) (visited_links (shared c))
  /\ Forall (on_site self) (requests_sent c)
  /\ Forall (fun w => forall u, url_of w = Some u -> on_site self u)
            (page_download_jobs c).

(** The crawl is over: nothing left, the iteration stopped, the workers
    killed. *)
Definition over (c : Crawl) : Prop :=
  consumer c = Stopped
  /\ links_to_visit (shared c) = []
  /\ currently_downloading (shared c) = []
  /\ downloaded_responses (shared c) = []
  /\ Forall (fun w => w = Killed) (page_download_jobs c).

End Keeps.

(** ** More crawls used as examples *)

Module Episodes.

Import WikipediaScraper Scenario.

(** A worker has stored a page and is about to remove its url. *)
Definition stored : list Event :=
  [WorkerLock 0; WorkerGet 0 (Responded article)].

(** A download broke, and the iterator was asked three times. *)
Definition asked_after_break : list Event :=
  [NextLocked; NextLocked; NextLocked].

(** A page with two links to articles among others, and two workers. *)
Definition two_links : Response :=
  page (lit "Main Page")
       [link (lit "/wiki/B"); link (lit "/wiki/File:B.png");
        link (lit "https://example.org/"); {| href := None |};
        link (lit "/wiki/C")].

Definition crawl_two_links : list Event :=
  fetch 0 two_links ++ [NextLocked; NextUnlocked]
  ++ fetch 0 article ++ [WorkerLock 1].

(** A crawl to its end: one page without links. *)
Definition to_the_end : list Event :=
  fetch 0 article ++ [NextLocked; NextUnlocked; NextLocked].

End Episodes.

(** ** The progress log over time *)

Module Logging.

Import WikipediaScraper.

(** A turn of [progress_log_worker] that is killed inside the [with]
    statement, after [open(progress_file, 'wb')] has emptied the file
    and before the dictionary is written. *)
Definition progress_log_worker_killed (dir : str)
    (next_progress_file_id : nat) (fs : Files) : Files :=
  let progress_files := map (os_path_join dir) PROGRESS_FILES in
  write_file fs (nth next_progress_file_id progress_files []) Truncated.

(** The turns of the loop of [progress_log_worker], one for each
    reading of the clock and the shared objects it finds. *)
Fixpoint progress_log_turns (dir : str) (next_progress_file_id : nat)
    (turns : list (Z * Shared)) (fs : Files) : Files * nat :=
  match turns with
  | [] => (fs, next_progress_file_id)
  | (now, sh) :: more =>
      match progress_log_worker dir next_progress_file_id now sh fs with
      | (fs', id') => progress_log_turns dir id' more fs'
      end
  end.

(** The clock readings grow, starting above [bound]. *)
Fixpoint clock_grows (bound : Z) (turns : list (Z * Shared)) : Prop :=
  match turns with
  | [] => True
  | (now, _) :: more => (bound < now)%Z /\ clock_grows now more
  end.

(** No dictionary in the two files is newer than [bound]. *)
Definition files_not_newer (dir : str) (fs : Files) (bound : Z) : Prop :=
  forall name p,
    In name PROGRESS_FILES ->
    fs (os_path_join dir name) = Pickled p -> (timestamp p <= bound)%Z.

Definition three_turns : list (Z * Shared) :=
  [(100%Z, cleared); (110%Z, Restart.busy);
   (120%Z, Restart.cold (Scenario.scraper 1))].

End Logging.

(** ** Tidy text *)

Module Tidy.

Import SentenceFinder.

Local Open Scope N_scope.

(** No two spaces in a row; [after_space] tells that the character
    before was a space. *)
Fixpoint single_spaced (after_space : bool) (s : str) : Prop :=
  match s with
  | [] => True
  | c :: s' =>
      if c =? 32 then after_space = false /\ single_spaced true s'
      else single_spaced false s'
  end.

(** Empty, or with a first character that is not white space. *)
Definition starts_plain (s : str) : Prop :=
  match s with
  | [] => True
  | c :: _ => isspace c = false
  end.

(** Not a newline, a carriage return or a tab. *)
Definition no_break (c : char) : Prop := c <> 10 /\ c <> 13 /\ c <> 9.

End Tidy.

(** ** What a matcher asks of a sentence *)

Module Wording.

Import re SentenceFinder.

Local Open Scope N_scope.

(** [v] has the letters of [w], in either case. *)
Definition spelled (w v : str) : Prop :=
  Forall2 (fun c x => chr_matches true c x = true) w v.

(** One of [verbs], then characters of one line, then a space and one
    of [days]. *)
Definition verb_then_day (verbs days : list str) (sentence : str) : Prop :=
  exists before v between d rest,
    sentence = before ++ v ++ between ++ [32] ++ d ++ rest
    /\ Exists (fun w => spelled w v) verbs
    /\ Forall (fun x => x <> 10) between
    /\ Exists (fun w => spelled w d) days.

(** Somewhere in the text are the letters of [w], in either case. *)
Definition occurs (w text : str) : Prop :=
  exists before v rest, text = before ++ v ++ rest /\ spelled w v.

Definition verbs_en : list str := [lit "last"; lit "took"; lit "take"].
Definition days_en : list str := [lit "day"].
Definition verbs_sr : list str :=
  [lit "traja"; [1090; 1088; 1072; 1112; 1072]].
Definition days_sr : list str := [lit "dan"; [1076; 1072; 1085]].

End Wording.

(** ** What a parsing worker leaves behind *)

Module Output.

Import WikipediaScraper SentenceFinder.

Local Open Scope N_scope.

(** A code point that UTF-8 has bytes for: no surrogate, and below
    0x110000. *)
Definition scalar (c : char) : Prop :=
  c < 55296 \/ (57343 < c /\ c < 1114112).

(** Line 112, for all the sentences of a page. *)
Definition lines (title : str) (sentences : list str) : str :=
  flat_map (fun sentence => title ++ lit " - " ++ sentence ++ [10])
           sentences.

(** Line 103. *)
Definition header (worker_id pages_visited : nat) (title : str) : str :=
  format_nat worker_id ++ lit " - " ++ format_nat pages_visited
  ++ lit " - " ++ title.

(** Line 42: the output file of worker [i]. *)
Definition output_file (output_dir : option str) (i : nat) : option str :=
  match output_dir with
  | Some dir =>
      Some (os_path_join dir (lit "w" ++ format_nat i ++ lit ".txt"))
  | None => None
  end.

(** The loop of [parsing_worker] for a number of turns; the flag is
    false when a turn raised, which ends the loop. *)
Fixpoint parsing_worker_loop (turns worker_id : nat)
    (output_file : option str) (sentence_matcher : re.regex)
    (pages_visited : nat) (w : World) : bool * nat * World :=
  match turns with
  | O => (true, pages_visited, w)
  | S turns' =>
      match parsing_worker worker_id output_file sentence_matcher
                           pages_visited w with
      | (Died, pages_visited', w') => (false, pages_visited', w')
      | (_, pages_visited', w') =>
          parsing_worker_loop turns' worker_id output_file sentence_matcher
                              pages_visited' w'
      end
  end.

(** A page with a content text, all in code points that UTF-8 has
    bytes for. *)
Definition readable (page : str * Soup) : Prop :=
  Forall scalar (fst page)
  /\ exists content_text,
       mw_content_text (snd page) = Some content_text
       /\ Forall scalar content_text.

(** The sentences kept for a page; none for a page without text. *)
Definition sentences_of (sentence_matcher : re.regex) (page : str * Soup)
  : list str :=
  match mw_content_text (snd page) with
  | Some content_text => matching_sentences sentence_matcher content_text
  | None => []
  end.

(** The lines of a list of pages, in the order of the list. *)
Definition lines_of (sentence_matcher : re.regex)
    (pages : list (str * Soup)) : str :=
  flat_map (fun page => lines (fst page) (sentences_of sentence_matcher page))
           pages.

Definition three_pages : World :=
  {| available_pages :=
       [(lit "One", Pages.with_text (lit "It took a day. Fine."));
        (lit "Two", Pages.with_text (lit "It is blue."));
        (lit "Three", Pages.with_text (lit "We take one day off!"))];
     files := fun _ => None;
     stdout := [] |}.

End Output.

(** * Properties of the scraper *)

Section PythonLists.

Variable A : Type.

Lemma pop_app_last (l : list A) (x : A) :
  PyList.pop (l ++ [x]) = Some (x, l).
Proof.
  induction l as [|y l IH]; simpl; [reflexivity|].
  rewrite IH. destruct l; reflexivity.
Qed.

Lemma pop_inv (l r : list A) (x : A) :
  PyList.pop l = Some (x, r) -> l = r ++ [x].
Proof.
  revert r. induction l as [|y l IH]; intros r H; simpl in H; [discriminate|].
  destruct l as [|z l'].
  - inversion H; reflexivity.
  - destruct (PyList.pop (z :: l')) as [[u v]|] eqn:E; [|discriminate].
    inversion H; subst. simpl. f_equal. apply IH. reflexivity.
Qed.

Lemma length_set_nth (i : nat) (x : A) (l : list A) :
  length (WikipediaScraper.set_nth i x l) = length l.
Proof.
  revert i; induction l as [|y l IH]; intros [|i]; simpl; auto.
Qed.

End PythonLists.

Section Dequeue.

Import WikipediaScraper.

Lemma try_dequeue_last (sh : Shared) (rest : list str) (url : str) :
  links_to_visit sh = rest ++ [url] ->
  length (downloaded_responses sh) < DOWNLOADED_RESPONSES_TO_BUFFER ->
  try_dequeue sh =
    (Some url,
     {| links_to_visit := rest;
        visited_links := visited_links sh ++ [url];
        currently_downloading := currently_downloading sh ++ [url];
        downloaded_responses := downloaded_responses sh |}).
Proof.
  intros Hl Hb. unfold try_dequeue. rewrite Hl, pop_app_last.
  replace (0 <? length (rest ++ [url])) with true.
  2:{ symmetry. apply Nat.ltb_lt. rewrite length_app. simpl. lia. }
  apply Nat.ltb_lt in Hb. rewrite Hb. reflexivity.
Qed.

(** C9. Both queues are stacks. A download worker that finds the
    buffer below its bound takes the last url of [links_to_visit] and
    appends it to [currently_downloading] and [visited_links]; the
    last url is the one added last, since [add_links] puts the new
    links at the end of [links_to_visit], in the order of the page:
    right after [add_links] the worker takes the last link that was
    new, and the others stay queued below it. A parsing worker takes
    the last page of [available_pages], and [find_sentences] puts a
    page at that end: the page handed over last is taken first. *)
Theorem dequeue_is_lifo
    (sh : Shared) (rest : list str) (url : str)
    (pages : list (str * Soup)) (entry : str * Soup) :
  (links_to_visit sh = rest ++ [url] ->
   length (downloaded_responses sh) < DOWNLOADED_RESPONSES_TO_BUFFER ->
   try_dequeue sh =
     (Some url,
      {| links_to_visit := rest;
         visited_links := visited_links sh ++ [url];
         currently_downloading := currently_downloading sh ++ [url];
         downloaded_responses := downloaded_responses sh |}))
  /\ (forall (links added : list str),
        filter (not_encountered sh) links = added ++ [url] ->
        length (downloaded_responses sh) < DOWNLOADED_RESPONSES_TO_BUFFER ->
        try_dequeue (add_links links sh) =
          (Some url,
           {| links_to_visit := links_to_visit sh ++ added;
              visited_links := visited_links sh ++ [url];
              currently_downloading := currently_downloading sh ++ [url];
              downloaded_responses := downloaded_responses sh |}))
  /\ (forall (found : list str),
        not_encountered sh url = true ->
        length (downloaded_responses sh) < DOWNLOADED_RESPONSES_TO_BUFFER ->
        fst (try_dequeue (add_links (found ++ [url]) sh)) = Some url)
  /\ SentenceFinder.try_pop (pages ++ [entry]) = Some (entry, pages)
  /\ (forall (w : SentenceFinder.World) title response_content,
        SentenceFinder.try_pop
          (SentenceFinder.available_pages
             (SentenceFinder.find_sentences title response_content w))
        = Some ((title, response_content), SentenceFinder.available_pages w)).
Proof.
  assert (forall links added,
             filter (not_encountered sh) links = added ++ [url] ->
             length (downloaded_responses sh)
             < DOWNLOADED_RESPONSES_TO_BUFFER ->
             try_dequeue (add_links links sh) =
               (Some url,
                {| links_to_visit := links_to_visit sh ++ added;
                   visited_links := visited_links sh ++ [url];
                   currently_downloading :=
                     currently_downloading sh ++ [url];
                   downloaded_responses := downloaded_responses sh |}))
    as Hadd.
  { intros links added Hf Hb.
    apply (@try_dequeue_last (add_links links sh)
                             (links_to_visit sh ++ added) url);
      [|exact Hb].
    simpl. rewrite Hf, app_assoc. reflexivity. }
  split; [intros Hl Hb; apply try_dequeue_last; assumption|].
  split; [exact Hadd|]. split.
  - intros found Hnew Hb.
    rewrite (Hadd (found ++ [url]) (filter (not_encountered sh) found));
      [reflexivity| |exact Hb].
    rewrite filter_app. simpl. rewrite Hnew. reflexivity.
  - assert (Hpop : forall (q : list (str * Soup)) e,
               SentenceFinder.try_pop (q ++ [e]) = Some (e, q)).
    { intros q e. unfold SentenceFinder.try_pop.
      rewrite pop_app_last.
      replace (0 <? length (q ++ [e])) with true; [reflexivity|].
      symmetry. apply Nat.ltb_lt. rewrite length_app. simpl. lia. }
    split; [apply Hpop|]. intros w title rc. simpl. apply Hpop.
Qed.

Lemma dequeue_is_lifo_witness :
  try_dequeue
    (add_links [lit "b"; lit "v"; lit "c"]
       {| links_to_visit := [lit "a"]; visited_links := [lit "v"];
          currently_downloading := []; downloaded_responses := [] |})
  = (Some (lit "c"),
     {| links_to_visit := [lit "a"] ++ [lit "b"];
        visited_links := [lit "v"] ++ [lit "c"];
        currently_downloading := [] ++ [lit "c"];
        downloaded_responses := [] |}).
Proof.
  refine (proj1 (proj2 (@dequeue_is_lifo
            {| links_to_visit := [lit "a"]; visited_links := [lit "v"];
               currently_downloading := []; downloaded_responses := [] |}
            [] (lit "c") [] (lit "t", Build_Soup None None None)))
          [lit "b"; lit "v"; lit "c"] [lit "b"] _ _).
  - reflexivity.
  - unfold DOWNLOADED_RESPONSES_TO_BUFFER; simpl; lia.
Defined.

End Dequeue.

Section Next.

Import WikipediaScraper Buffer Scenario.

Lemma shared_eta (sh : Shared) :
  {| links_to_visit := links_to_visit sh;
     visited_links := visited_links sh;
     currently_downloading := currently_downloading sh;
     downloaded_responses := downloaded_responses sh |} = sh.
Proof. destruct sh; reflexivity. Qed.

Lemma next_locked_drained (sh : Shared) :
  links_to_visit sh = [] -> currently_downloading sh = [] ->
  downloaded_responses sh = [] ->
  next_locked sh = (Drained, sh).
Proof.
  intros H1 H2 H3. unfold next_locked. rewrite H1, H2, H3. reflexivity.
Qed.

Lemma next_locked_empty (sh : Shared) :
  links_to_visit sh <> [] \/ currently_downloading sh <> [] ->
  downloaded_responses sh = [] ->
  next_locked sh = (Empty, sh).
Proof.
  intros H H3. unfold next_locked. rewrite H3.
  destruct (links_to_visit sh), (currently_downloading sh);
    simpl; try reflexivity.
  destruct H; congruence.
Qed.

Lemma next_locked_pops (sh : Shared) url response rest :
  downloaded_responses sh = (url, response) :: rest ->
  next_locked sh = (Popped url response, set_downloaded rest sh).
Proof.
  intros H. unfold next_locked, set_downloaded. rewrite H. simpl.
  rewrite !andb_false_r.
  destruct (str_eq_dec url url) as [_|N]; [reflexivity|congruence].
Qed.

(** C3, as the code has it. With nothing to visit, nothing being
    downloaded and nothing downloaded, [__next__] raises
    [StopIteration] and leaves the shared objects as they are, so the
    next call raises it again. With something still to come but
    nothing downloaded it returns [(None, None, None)]. Otherwise it
    takes the oldest entry out of [downloaded_responses]; it then
    adds the links of the page and returns the page when the page has
    its [bodyContent] and [firstHeading] elements, and raises
    [AttributeError] when one of them is missing. *)
Theorem next_cases (self : Params) (sh : Shared) :
  (links_to_visit sh = [] -> currently_downloading sh = [] ->
   downloaded_responses sh = [] ->
   __next__ self sh = (StopIteration, sh)
   /\ __next__ self (snd (__next__ self sh)) = (StopIteration, sh))
  /\ (links_to_visit sh <> [] \/ currently_downloading sh <> [] ->
      downloaded_responses sh = [] ->
      __next__ self sh = (NotReady, sh))
  /\ (forall url response rest,
        downloaded_responses sh = (url, response) :: rest ->
        match bodyContent (content response),
              firstHeading (content response) with
        | Some _, Some title =>
            exists links,
              valid_wiki_page_links self (content response) = Some links
              /\ __next__ self sh =
                   (Page response (content response) title,
                    add_links links (set_downloaded rest sh))
        | Some _, None =>
            fst (__next__ self sh) = AttributeError
            /\ downloaded_responses (snd (__next__ self sh)) = rest
        | None, _ =>
            __next__ self sh = (AttributeError, set_downloaded rest sh)
        end).
Proof.
  split; [|split].
  - intros H1 H2 H3. unfold __next__.
    rewrite (@next_locked_drained sh H1 H2 H3). simpl.
    rewrite (@next_locked_drained sh H1 H2 H3). split; reflexivity.
  - intros H H3. unfold __next__.
    rewrite (@next_locked_empty sh H H3). reflexivity.
  - intros url response rest H. unfold __next__.
    rewrite (@next_locked_pops sh _ _ _ H).
    unfold next_unlocked, parse_links, valid_wiki_page_links, BeautifulSoup.
    destruct (bodyContent (content response)) as [anchors|];
      [|reflexivity].
    destruct (firstHeading (content response)) as [title|].
    + eexists. split; reflexivity.
    + split; reflexivity.
Qed.

Lemma next_cases_witness :
  __next__ (__init__ None (lit "en") 1 None) cleared
  = (StopIteration, cleared).
Proof.
  refine (proj1 (proj1 (next_cases (__init__ None (lit "en") 1 None) cleared)
                       _ _ _)); reflexivity.
Defined.

(** A downloaded page is not always returned: a page without
    the [firstHeading] element is taken out of the buffer, and
    [__next__] raises instead of returning a page. *)
Lemma next_not_always_a_page :
  ~ (forall (self : Params) (sh : Shared),
       downloaded_responses sh <> [] ->
       exists response soup title sh',
         __next__ self sh = (Page response soup title, sh')).
Proof.
  intros H.
  destruct (H (__init__ None (lit "en") 1 None) holding_page_without_heading)
    as (r & s & t & sh' & E).
  - discriminate.
  - vm_compute in E. discriminate.
Qed.

End Next.

Section Backpressure.

Import WikipediaScraper Buffer Scenario.

Lemma downloads_le (jobs : list Worker) : downloads jobs <= length jobs.
Proof. apply filter_length_le. Qed.

Lemma downloads_set_nth (jobs : list Worker) (i : nat) (w w' : Worker) :
  nth_error jobs i = Some w ->
  downloads (set_nth i w' jobs) + (if is_downloading w then 1 else 0)
  = downloads jobs + (if is_downloading w' then 1 else 0).
Proof.
  unfold downloads. revert i.
  induction jobs as [|x jobs IH]; intros [|i] H; simpl in *;
    try discriminate.
  - inversion H; subst.
    destruct (is_downloading w), (is_downloading w'); simpl; lia.
  - specialize (IH i H). destruct (is_downloading x); simpl; lia.
Qed.

Lemma idle_worker_counts (jobs : list Worker) (i : nat) (w : Worker) :
  nth_error jobs i = Some w -> is_downloading w = false ->
  downloads jobs < length jobs.
Proof.
  unfold downloads. revert i.
  induction jobs as [|x jobs IH]; intros [|i] H Hw; simpl in *;
    try discriminate.
  - inversion H; subst. rewrite Hw.
    pose proof (filter_length_le is_downloading jobs). lia.
  - specialize (IH i H Hw). destruct (is_downloading x); simpl; lia.
Qed.

Lemma downloads_kill_jobs (jobs : list Worker) :
  downloads (kill_jobs jobs) = 0.
Proof.
  unfold downloads, kill_jobs.
  induction jobs; simpl; auto.
Qed.

Lemma length_dict_set (d : PyDict.t Response) k v :
  length (PyDict.set k v d) <= S (length d).
Proof.
  induction d as [|[k' v'] d IH]; simpl; [lia|].
  destruct (str_eq_dec k k'); simpl; lia.
Qed.

Lemma length_dict_del (d : PyDict.t Response) k :
  length (PyDict.del k d) <= length d.
Proof.
  induction d as [|[k' v'] d IH]; simpl; [lia|].
  destruct (str_eq_dec k k'); simpl; lia.
Qed.

Lemma try_dequeue_some (sh sh' : Shared) (url : str) :
  try_dequeue sh = (Some url, sh') ->
  length (downloaded_responses sh) < DOWNLOADED_RESPONSES_TO_BUFFER
  /\ links_to_visit sh = links_to_visit sh' ++ [url]
  /\ visited_links sh' = visited_links sh ++ [url]
  /\ currently_downloading sh' = currently_downloading sh ++ [url]
  /\ downloaded_responses sh' = downloaded_responses sh.
Proof.
  unfold try_dequeue.
  destruct (0 <? length (links_to_visit sh)); simpl; [|discriminate].
  destruct (length (downloaded_responses sh) <? DOWNLOADED_RESPONSES_TO_BUFFER)
    eqn:Hb; [|discriminate].
  destruct (PyList.pop (links_to_visit sh)) as [[u rest]|] eqn:Hp;
    [|discriminate].
  intros H; inversion H; subst; simpl.
  apply Nat.ltb_lt in Hb. apply pop_inv in Hp. auto.
Qed.

Lemma next_locked_downloaded (sh sh' : Shared) (l : Locked) :
  next_locked sh = (l, sh') ->
  length (downloaded_responses sh') <= length (downloaded_responses sh).
Proof.
  unfold next_locked.
  destruct (_ && _); [intros H; inversion H; subst; lia|].
  destruct (_ =? _); [intros H; inversion H; subst; lia|].
  destruct (PyDict.keys _); [intros H; inversion H; subst; lia|].
  destruct (PyDict.get _ _); intros H; inversion H; subst; simpl;
    [apply length_dict_del|lia].
Qed.

Lemma next_unlocked_downloaded self response (sh sh' : Shared) r :
  next_unlocked self response sh = (r, sh') ->
  downloaded_responses sh' = downloaded_responses sh.
Proof.
  unfold next_unlocked, parse_links.
  destruct (valid_wiki_page_links _ _);
    [|intros H; inversion H; reflexivity].
  destruct (firstHeading _); intros H; inversion H; reflexivity.
Qed.

Lemma step_within_bound self (c c' : Crawl) (e : Event) :
  step self c e = Some c' ->
  within_bound c ->
  within_bound c'
  /\ length (page_download_jobs c') = length (page_download_jobs c).
Proof.
  unfold within_bound, step. intros H Hinv.
  change (DOWNLOADED_RESPONSES_TO_BUFFER - 1) with 99 in *.
  destruct e as [i|i o|i| |].
  - destruct (nth_error (page_download_jobs c) i) as [[| | | |]|] eqn:Hn;
      try discriminate.
    destruct (try_dequeue (shared c)) as [[url|] sh] eqn:Hd.
    + apply try_dequeue_some in Hd. destruct Hd as (Hb & _ & _ & _ & Hdr).
      inversion H; subst; simpl. rewrite length_set_nth, Hdr.
      pose proof (@downloads_set_nth _ i AtLoopHead (Downloading url) Hn) as E.
      pose proof (@idle_worker_counts _ i AtLoopHead Hn eq_refl).
      simpl in E. unfold DOWNLOADED_RESPONSES_TO_BUFFER in *. lia.
    + inversion H; subst. auto.
  - destruct (nth_error (page_download_jobs c) i) as [[|url| | |]|] eqn:Hn;
      try discriminate.
    destruct (download url o (shared c)) as [[w sh] printed] eqn:Hd.
    inversion H; subst; simpl. rewrite length_set_nth.
    pose proof (@downloads_set_nth _ i (Downloading url) w Hn) as E.
    simpl in E. unfold download in Hd.
    destruct o as [response|e].
    + inversion Hd; subst; simpl in *.
      pose proof (length_dict_set (downloaded_responses (shared c))
                                  url response).
      lia.
    + destruct (is_ConnectionError e); inversion Hd; subst; simpl in *; lia.
  - destruct (nth_error (page_download_jobs c) i) as [[| |url| |]|] eqn:Hn;
      try discriminate.
    unfold remove_downloading in H.
    destruct (PyList.remove _ _ _); [|discriminate].
    inversion H; subst; simpl. rewrite length_set_nth.
    pose proof (@downloads_set_nth _ i (Removing url) AtLoopHead Hn) as E.
    simpl in E. lia.
  - assert (forall l sh, next_locked (shared c) = (l, sh) ->
              length (downloaded_responses sh)
              <= length (downloaded_responses (shared c)))
      as Hle by (intros; eapply next_locked_downloaded; eauto).
    destruct (consumer c); try discriminate;
      destruct (next_locked (shared c)) as [[| |url response] sh] eqn:Hl;
      specialize (Hle _ _ eq_refl);
      inversion H; subst; simpl;
      rewrite ?downloads_kill_jobs; unfold kill_jobs;
      rewrite ?length_map; split; try reflexivity; lia.
  - destruct (consumer c); try discriminate.
    destruct (next_unlocked self response (shared c)) as [r sh] eqn:Hu.
    apply next_unlocked_downloaded in Hu.
    inversion H; subst; simpl. rewrite Hu. auto.
Qed.

Lemma run_within_bound self (events : list Event) (c c' : Crawl) :
  run self c events = Some c' ->
  within_bound c ->
  within_bound c'
  /\ length (page_download_jobs c') = length (page_download_jobs c).
Proof.
  revert c. induction events as [|e events IH]; intros c H Hinv; simpl in H.
  - inversion H; subst; auto.
  - destruct (step self c e) as [c1|] eqn:Hs; [|discriminate].
    destruct (@step_within_bound _ _ _ _ Hs Hinv) as [H1 L1].
    destruct (IH _ H H1) as [H2 L2]. split; [assumption|congruence].
Qed.

Lemma iter_downloaded self fs (sh : Shared) :
  __iter__ self fs = Some sh -> downloaded_responses sh = [].
Proof.
  unfold __iter__, load_progress_file.
  destruct (log_dir self); [|intros H; inversion H; reflexivity].
  destruct (load_all fs _) as [progresses|]; [|discriminate].
  destruct (length _ =? 0); [intros H; inversion H; reflexivity|].
  destruct (sorted_newest_first _); intros H; inversion H; reflexivity.
Qed.

(** What [start] gives: a crawl with all its workers at the head of
    their loop, or, when [__iter__] raised, one that never begins. *)
Lemma start_cases self fs :
  (exists sh,
     __iter__ self fs = Some sh
     /\ start self fs
        = {| shared := sh;
             page_download_jobs :=
               repeat AtLoopHead (num_download_workers self);
             consumer := Iterating;
             requests_sent := [];
             stdout := [] |})
  \/ (__iter__ self fs = None
      /\ start self fs
         = {| shared := cleared;
              page_download_jobs := [];
              consumer := Failed;
              requests_sent := [];
              stdout := [] |}).
Proof.
  unfold start. destruct (__iter__ self fs) as [sh|]; [left|right]; eauto.
Qed.

Lemma start_downloaded self fs :
  downloaded_responses (shared (start self fs)) = [].
Proof.
  destruct (start_cases self fs) as [(sh & E & ->)|[_ ->]];
    [exact (iter_downloaded _ _ E)|reflexivity].
Qed.

Lemma start_jobs self fs :
  exists n,
    page_download_jobs (start self fs) = repeat AtLoopHead n
    /\ n <= num_download_workers self.
Proof.
  destruct (start_cases self fs) as [(sh & E & ->)|[_ ->]].
  - exists (num_download_workers self). auto.
  - exists 0. simpl. split; [reflexivity|lia].
Qed.

(** C2, as the code has it. The bound is tested when a url is taken,
    not when its page is stored, so each worker can add the page it is
    downloading to a buffer that passed the test: from the start of a
    crawl on, the buffer holds at most
    [DOWNLOADED_RESPONSES_TO_BUFFER - 1] pages plus one per worker,
    that is at most [DOWNLOADED_RESPONSES_TO_BUFFER] with one worker. *)
Theorem buffer_bound (self : Params) (fs : Files)
    (events : list Event) (c : Crawl) :
  run self (start self fs) events = Some c ->
  length (downloaded_responses (shared c))
  <= DOWNLOADED_RESPONSES_TO_BUFFER - 1 + num_download_workers self
  /\ (num_download_workers self <= 1 ->
      length (downloaded_responses (shared c))
      <= DOWNLOADED_RESPONSES_TO_BUFFER).
Proof.
  intros H.
  destruct (start_jobs self fs) as (n & Hj & Hn).
  assert (within_bound (start self fs)) as H0.
  { unfold within_bound.
    rewrite start_downloaded, Hj, repeat_length. simpl.
    pose proof (downloads_le (repeat AtLoopHead n)) as Hd.
    rewrite repeat_length in Hd. unfold DOWNLOADED_RESPONSES_TO_BUFFER. lia. }
  destruct (@run_within_bound _ _ _ _ H H0) as [Hb Hl].
  unfold within_bound in Hb. rewrite Hl, Hj, repeat_length in Hb.
  unfold DOWNLOADED_RESPONSES_TO_BUFFER in *. lia.
Qed.

End Backpressure.

Section Runs.

Import WikipediaScraper Scenario Outcome.

(** C1 on the code. The first page links to the same article twice;
    [parse_links] tests its links against [visited_links],
    [currently_downloading] and [downloaded_responses], but not
    against [links_to_visit] or against each other, so the url is
    queued twice, taken twice and requested twice. *)
Theorem url_fetched_twice :
  exists c,
    run (scraper 1) (start (scraper 1) no_files) refetch = Some c
    /\ requests_sent c = [main_url; article_url; article_url]
    /\ visited_links (shared c) = [main_url; article_url; article_url]
    /\ ~ NoDup (requests_sent c).
Proof.
  eexists. split; [vm_compute; reflexivity|].
  split; [reflexivity|]. split; [reflexivity|].
  simpl. intros H. inversion H as [|? ? _ H1]; subst.
  inversion H1 as [|? ? H2 _]; subst. apply H2. left. reflexivity.
Qed.

Lemma run_overfill :
  run (scraper 2) (start (scraper 2) no_files) overfill = Some overfilled.
Proof. vm_compute. reflexivity. Qed.

(** The bound of the constant alone does not hold: two workers, 99
    pages in the buffer, both take a url and both store their page. *)
Lemma buffer_overfilled :
  ~ (forall (self : Params) (fs : Files) (events : list Event) (c : Crawl),
       run self (start self fs) events = Some c ->
       length (downloaded_responses (shared c))
       <= DOWNLOADED_RESPONSES_TO_BUFFER).
Proof.
  intros H. specialize (H _ _ _ _ run_overfill).
  vm_compute in H. lia.
Qed.

Lemma buffer_bound_witness :
  length (downloaded_responses (shared overfilled))
  <= DOWNLOADED_RESPONSES_TO_BUFFER - 1 + 2.
Proof.
  apply (proj1 (@buffer_bound (scraper 2) no_files overfill overfilled
                              run_overfill)).
Defined.

(** C4 on the code. [requests.get] raises [ChunkedEncodingError],
    which is not a [ConnectionError]: nothing is printed, the worker
    ends with the exception, and the url stays in
    [currently_downloading], so that [__next__] keeps answering
    "not ready". *)
Theorem uncaught_error_strands_url :
  run (scraper 1) (start (scraper 1) no_files) broken_download
    = Some stranded
  /\ page_download_jobs stranded = [Crashed main_url ChunkedEncodingError]
  /\ currently_downloading (shared stranded) = [main_url]
  /\ stdout stranded = []
  /\ step (scraper 1) stranded (WorkerRemove 0) = None
  /\ step (scraper 1) stranded (WorkerLock 0) = None
  /\ (forall o, step (scraper 1) stranded (WorkerGet 0 o) = None)
  /\ __next__ (scraper 1) (shared stranded) = (NotReady, shared stranded).
Proof.
  repeat split; try (vm_compute; reflexivity).
Qed.

End Runs.

Section Dropped.

Import WikipediaScraper.

(** A [ConnectionError] is printed and the worker goes on to the
    [remove]. *)
Lemma connection_error_is_logged (url : str) (e : RequestException)
    (sh : Shared) :
  is_ConnectionError e = true ->
  download url (Raised e) sh
  = (Removing url, sh, [lit "error getting " ++ url]).
Proof. intros H. unfold download. rewrite H. reflexivity. Qed.

Lemma remove_count (x y : str) (l r : list str) :
  PyList.remove str_eq_dec x l = Some r ->
  count_occ str_eq_dec l y
  = count_occ str_eq_dec r y + (if str_eq_dec x y then 1 else 0).
Proof.
  revert r. induction l as [|z l IH]; intros r H; simpl in H;
    [discriminate|].
  destruct (str_eq_dec x z) as [E|N].
  - inversion H; subst. simpl.
    destruct (str_eq_dec z y); lia.
  - destruct (PyList.remove str_eq_dec x l) as [r'|]; [|discriminate].
    inversion H; subst. simpl. specialize (IH _ eq_refl).
    destruct (str_eq_dec z y); lia.
Qed.

Lemma remove_present (x : str) (l : list str) :
  In x l -> exists r, PyList.remove str_eq_dec x l = Some r.
Proof.
  induction l as [|z l IH]; intros H; [destruct H|]. simpl.
  destruct (str_eq_dec x z) as [E|N]; [eauto|].
  destruct H as [H|H]; [congruence|].
  destruct (IH H) as [r ->]. eauto.
Qed.

(** The [remove] takes one occurrence of the url out of
    [currently_downloading] and touches nothing else. *)
Lemma remove_downloading_one (url : str) (sh : Shared) :
  In url (currently_downloading sh) ->
  exists sh',
    remove_downloading url sh = Some sh'
    /\ links_to_visit sh' = links_to_visit sh
    /\ visited_links sh' = visited_links sh
    /\ downloaded_responses sh' = downloaded_responses sh
    /\ S (count_occ str_eq_dec (currently_downloading sh') url)
       = count_occ str_eq_dec (currently_downloading sh) url.
Proof.
  intros H. unfold remove_downloading.
  destruct (@remove_present _ _ H) as [r Hr]. rewrite Hr.
  eexists. split; [reflexivity|]. simpl.
  repeat split. rewrite (@remove_count url url _ _ Hr).
  destruct (str_eq_dec url url); [lia|congruence].
Qed.

Lemma count_filter_out (f : str -> bool) (u : str) (l : list str) :
  f u = false -> count_occ str_eq_dec (filter f l) u = 0.
Proof.
  intros H. induction l as [|x l IH]; simpl; [reflexivity|].
  destruct (f x) eqn:E; [|assumption]. simpl.
  destruct (str_eq_dec x u); [congruence|assumption].
Qed.

Lemma str_in_true (x : str) (l : list str) : In x l -> str_in x l = true.
Proof.
  intros H. unfold str_in. destruct (in_dec str_eq_dec x l); tauto.
Qed.

(** A url that is in [visited_links] stays there, and no step puts it
    into [links_to_visit]. *)
Lemma visited_not_queued_again self (c c' : Crawl) (e : Event) (u : str) :
  step self c e = Some c' ->
  In u (visited_links (shared c)) ->
  In u (visited_links (shared c'))
  /\ count_occ str_eq_dec (links_to_visit (shared c')) u
     <= count_occ str_eq_dec (links_to_visit (shared c)) u.
Proof.
  unfold step. intros H Hu.
  destruct e as [i|i o|i| |].
  - destruct (nth_error _ i) as [[| | | |]|]; try discriminate.
    destruct (try_dequeue (shared c)) as [[url|] sh] eqn:Hd.
    + apply try_dequeue_some in Hd.
      destruct Hd as (_ & Hl & Hv & _ & _).
      inversion H; subst; simpl. rewrite Hv, Hl. split.
      * apply in_or_app; auto.
      * rewrite count_occ_app. lia.
    + inversion H; subst; auto.
  - destruct (nth_error _ i) as [[|url| | |]|]; try discriminate.
    destruct (download url o (shared c)) as [[w sh] printed] eqn:Hd.
    inversion H; subst; simpl. unfold download in Hd.
    destruct o as [response|x];
      [|destruct (is_ConnectionError x)];
      inversion Hd; subst; simpl; auto.
  - destruct (nth_error _ i) as [[| |url| |]|]; try discriminate.
    unfold remove_downloading in H.
    destruct (PyList.remove _ _ _); [|discriminate].
    inversion H; subst; simpl; auto.
  - destruct (consumer c); try discriminate;
      unfold next_locked in H;
      destruct (_ && _);
      try (inversion H; subst; simpl; auto; fail);
      destruct (_ =? _);
      try (inversion H; subst; simpl; auto; fail);
      destruct (PyDict.keys _);
      try (inversion H; subst; simpl; auto; fail);
      destruct (PyDict.get _ _);
      inversion H; subst; simpl; auto.
  - destruct (consumer c); try discriminate.
    unfold next_unlocked, parse_links in H.
    destruct (valid_wiki_page_links _ _) as [links|];
      [|inversion H; subst; simpl; auto].
    assert (count_occ str_eq_dec
              (links_to_visit (add_links links (shared c))) u
            <= count_occ str_eq_dec (links_to_visit (shared c)) u) as Hc.
    { simpl. rewrite count_occ_app, count_filter_out; [lia|].
      unfold not_encountered. rewrite (@str_in_true _ _ Hu). reflexivity. }
    destruct (firstHeading _); inversion H; subst; simpl; auto.
Qed.

End Dropped.

Section Progress.

Import WikipediaScraper Restart.

Local Open Scope Z_scope.

(** The head of the sorted list is one of the loaded dictionaries and
    none of them has a greater timestamp. *)
Lemma sorted_newest_first_head (l : list Progress) :
  l <> [] ->
  exists p rest,
    sorted_newest_first l = p :: rest
    /\ In p l
    /\ (forall q, In q l -> timestamp q <= timestamp p).
Proof.
  induction l as [|x l IH]; [congruence|]. intros _. simpl.
  destruct l as [|y l'].
  - exists x, []. simpl. repeat split; auto.
    intros q [<-|[]]; lia.
  - destruct IH as (p & rest & Hs & Hin & Hmax); [discriminate|].
    rewrite Hs. simpl insert_newest_first.
    destruct (timestamp p <=? timestamp x) eqn:E.
    + apply Z.leb_le in E. exists x, (p :: rest).
      split; [reflexivity|]. split; [left; reflexivity|].
      intros q [<-|Hq]; [lia|]. specialize (Hmax _ Hq). lia.
    + apply Z.leb_gt in E. exists p, (insert_newest_first x rest).
      split; [reflexivity|]. split; [right; assumption|].
      intros q [<-|Hq]; [lia|]. apply Hmax; assumption.
Qed.

Lemma load_progress_file_loaded self dir fs (sh : Shared) :
  log_dir self = Some dir ->
  load_progress_file self fs sh =
    match load_all fs (map (os_path_join dir) PROGRESS_FILES) with
    | None => None
    | Some progresses =>
        match sorted_newest_first progresses with
        | newest_progress :: _ =>
            Some
              (true,
               {| links_to_visit := saved_links_to_visit newest_progress;
                  visited_links := saved_visited_links newest_progress;
                  currently_downloading := currently_downloading sh;
                  downloaded_responses := downloaded_responses sh |})
        | [] => Some (false, sh)
        end
    end.
Proof.
  intros H. unfold load_progress_file. rewrite H.
  destruct (load_all fs _) as [[|p l]|] eqn:E; [reflexivity| |reflexivity].
  change (length (p :: l) =? 0)%nat with false. cbv iota. reflexivity.
Qed.

(** Every list of progress files that can be read: the restored
    dictionary is a loaded one with the greatest timestamp, and with
    none loaded the call fails and the crawl starts from the initial
    url. *)
Lemma load_progress_file_newest self dir fs (progresses : list Progress) :
  log_dir self = Some dir ->
  load_all fs (map (os_path_join dir) PROGRESS_FILES) = Some progresses ->
  (progresses = [] ->
   load_progress_file self fs cleared = Some (false, cleared)
   /\ __iter__ self fs = Some (cold self))
  /\ (progresses <> [] ->
      exists p,
        In p progresses
        /\ (forall q, In q progresses -> timestamp q <= timestamp p)
        /\ load_progress_file self fs cleared = Some (true, restored p)
        /\ __iter__ self fs = Some (restored p)).
Proof.
  intros H E. unfold __iter__. rewrite H.
  rewrite (@load_progress_file_loaded self dir fs cleared H), E. split.
  - intros ->. simpl. split; reflexivity.
  - intros Hne.
    destruct (sorted_newest_first_head Hne) as (p & rest & Hs & Hin & Hmax).
    rewrite Hs. exists p. repeat split; auto.
Qed.

(** A cut file, in either place, ends [load_progress_file] and
    [__iter__] with the exception of [pickle.load]. *)
Lemma load_all_cut (dir : str) (fs : Files) :
  fs (progress1 dir) = Cut \/ fs (progress2 dir) = Cut ->
  load_all fs (map (os_path_join dir) PROGRESS_FILES) = None.
Proof.
  unfold PROGRESS_FILES. simpl map. simpl load_all.
  fold (progress1 dir). fold (progress2 dir).
  intros [H|H]; rewrite H; [reflexivity|].
  destruct (fs (progress1 dir)); reflexivity.
Qed.

Lemma cut_file_raises (self : Params) (dir : str) (fs : Files) :
  log_dir self = Some dir ->
  fs (progress1 dir) = Cut \/ fs (progress2 dir) = Cut ->
  load_progress_file self fs cleared = None /\ __iter__ self fs = None.
Proof.
  intros H Hcut. unfold __iter__. rewrite H.
  rewrite (@load_progress_file_loaded self dir fs cleared H).
  rewrite (load_all_cut dir fs Hcut). split; reflexivity.
Qed.

(** The two files of the scraper, case by case. *)
Lemma loads_from_two_files (self : Params) (dir : str) (fs : Files) :
  log_dir self = Some dir ->
  match fs (progress1 dir), fs (progress2 dir) with
  | Cut, _ | _, Cut =>
      load_progress_file self fs cleared = None /\ __iter__ self fs = None
  | Pickled p1, Pickled p2 =>
      (timestamp p1 < timestamp p2 -> loads self fs p2)
      /\ (timestamp p2 < timestamp p1 -> loads self fs p1)
  | Pickled p1, _ => loads self fs p1
  | _, Pickled p2 => loads self fs p2
  | _, _ =>
      load_progress_file self fs cleared = Some (false, cleared)
      /\ __iter__ self fs = Some (cold self)
  end.
Proof.
  intros H. unfold loads, __iter__. rewrite H.
  rewrite (@load_progress_file_loaded self dir fs cleared H).
  unfold PROGRESS_FILES. simpl map. simpl load_all.
  fold (progress1 dir). fold (progress2 dir).
  destruct (fs (progress1 dir)) as [| | |p1],
           (fs (progress2 dir)) as [| | |p2];
    simpl; try (split; reflexivity).
  split; intros Hlt.
  - destruct (timestamp p2 <=? timestamp p1) eqn:E;
      [apply Z.leb_le in E; lia|split; reflexivity].
  - destruct (timestamp p2 <=? timestamp p1) eqn:E;
      [split; reflexivity|apply Z.leb_gt in E; lia].
Qed.

(** X23. What [load_progress_file] does with files it can read: it leaves
    out a file that is missing or empty, and of two dictionaries
    restores the one with the greater timestamp; with no dictionary
    read it returns [False], and [__iter__] then starts from the
    initial url. The dictionary restored is one that was read and none
    that was read has a greater timestamp. *)
Lemma load_picks_newest (self : Params) (dir : str) (fs : Files) :
  log_dir self = Some dir ->
  fs (progress1 dir) <> Cut ->
  fs (progress2 dir) <> Cut ->
  match fs (progress1 dir), fs (progress2 dir) with
  | Pickled p1, Pickled p2 =>
      (timestamp p1 < timestamp p2 -> loads self fs p2)
      /\ (timestamp p2 < timestamp p1 -> loads self fs p1)
  | Pickled p1, _ => loads self fs p1
  | _, Pickled p2 => loads self fs p2
  | _, _ =>
      load_progress_file self fs cleared = Some (false, cleared)
      /\ __iter__ self fs = Some (cold self)
  end
  /\ (forall p,
        loads self fs p ->
        exists q progresses,
          load_all fs (map (os_path_join dir) PROGRESS_FILES)
          = Some progresses
          /\ In q progresses
          /\ restored q = restored p
          /\ forall q', In q' progresses -> timestamp q' <= timestamp q).
Proof.
  intros H H1 H2. split.
  - pose proof (@loads_from_two_files self dir fs H) as L.
    destruct (fs (progress1 dir)) as [| | |p1],
             (fs (progress2 dir)) as [| | |p2];
      try congruence; exact L.
  - intros p [Hl _].
    destruct (load_all fs (map (os_path_join dir) PROGRESS_FILES))
      as [progresses|] eqn:E.
    + destruct (@load_progress_file_newest self dir fs progresses H E)
        as [Hnil Hsome].
      destruct progresses as [|x l].
      * destruct (Hnil eq_refl) as [Hf _]. congruence.
      * destruct Hsome as (q & Hin & Hmax & Hq & _); [discriminate|].
        exists q, (x :: l). repeat split; auto. congruence.
    + rewrite (@load_progress_file_loaded self dir fs cleared H), E in Hl.
      discriminate.
Qed.

Lemma load_picks_newest_witness :
  loads logging_scraper two_files newer.
Proof.
  refine (proj2 (proj1 (@load_picks_newest logging_scraper
                          (lit "log/en/scraper_logs") two_files eq_refl
                          _ _)) _).
  - vm_compute. discriminate.
  - vm_compute. discriminate.
  - vm_compute. reflexivity.
Defined.

(** C5. The claim fails on the code for a progress file that was cut
    inside a record: [pickle.load] raises [UnpicklingError], the two
    [except] clauses of [load_progress_file] catch [EOFError] and
    [FileNotFoundError] only, and the exception leaves
    [load_progress_file] and [__iter__]. The file is not left out, the
    dictionary of the other file is not restored, the crawl does not
    start from the initial url either: no worker is started and the
    loop over the iterator never begins. *)
Theorem cut_file_stops_the_crawl (self : Params) (dir : str) (fs : Files) :
  log_dir self = Some dir ->
  fs (progress1 dir) = Cut \/ fs (progress2 dir) = Cut ->
  load_progress_file self fs cleared = None
  /\ __iter__ self fs = None
  /\ page_download_jobs (start self fs) = []
  /\ consumer (start self fs) = Failed
  /\ (forall p, ~ loads self fs p)
  /\ __iter__ self fs <> Some (cold self).
Proof.
  intros H Hcut.
  destruct (@cut_file_raises self dir fs H Hcut) as [Hl Hi].
  unfold start, loads. rewrite Hl, Hi.
  repeat split; try reflexivity; try discriminate.
  intros p [Hp _]. discriminate.
Qed.

Lemma cut_file_stops_the_crawl_witness :
  fs_with_cut_file (progress1 (lit "log/en/scraper_logs")) = Pickled newer
  /\ __iter__ logging_scraper fs_with_cut_file = None.
Proof.
  split; [reflexivity|].
  refine (proj1 (proj2 (@cut_file_stops_the_crawl logging_scraper
                          (lit "log/en/scraper_logs") fs_with_cut_file
                          eq_refl _))).
  right. reflexivity.
Defined.

Lemma write_file_same (fs : Files) (path : str) (f : File) :
  write_file fs path f path = f.
Proof.
  unfold write_file. destruct (str_eq_dec path path); congruence.
Qed.

Lemma write_file_other (fs : Files) (path other : str) (f : File) :
  other <> path -> write_file fs path f other = fs other.
Proof.
  intros H. unfold write_file. destruct (str_eq_dec other path); congruence.
Qed.

Lemma progress_files_differ (dir : str) : progress1 dir <> progress2 dir.
Proof.
  unfold progress1, progress2, os_path_join. intros H.
  apply app_inv_head in H. discriminate.
Qed.

(** C6. A turn of [progress_log_worker] followed by [__iter__], with
    no newer dictionary in the other file: [links_to_visit] comes back
    as the saved [links_to_visit] followed by the saved
    [currently_downloading], [visited_links] as it was saved; so both
    hold the same urls as at the snapshot. *)
Theorem checkpoint_round_trip (self : Params) (dir : str) (fs : Files)
    (next_progress_file_id : nat) (now : Z) (sh : Shared) :
  log_dir self = Some dir ->
  (next_progress_file_id < 2)%nat ->
  fs (nth (1 - next_progress_file_id)
          (map (os_path_join dir) PROGRESS_FILES) []) <> Cut ->
  (forall p,
     fs (nth (1 - next_progress_file_id)
             (map (os_path_join dir) PROGRESS_FILES) [])
       = Pickled p ->
     timestamp p < now) ->
  exists again,
    __iter__ self (fst (progress_log_worker dir next_progress_file_id
                                            now sh fs)) = Some again
    /\ links_to_visit again = links_to_visit sh ++ currently_downloading sh
    /\ visited_links again = visited_links sh
    /\ (forall url,
          In url (links_to_visit again)
          <-> In url (links_to_visit sh)
              \/ In url (currently_downloading sh))
    /\ (forall url,
          In url (visited_links again) <-> In url (visited_links sh)).
Proof.
  intros H Hid Hcut Hother.
  assert (loads self
            (fst (progress_log_worker dir next_progress_file_id now sh fs))
            (snapshot now sh)) as [_ Hl].
  { unfold progress_log_worker. simpl fst.
    pose proof (@loads_from_two_files self dir
      (write_file fs
         (nth next_progress_file_id
              (map (os_path_join dir) PROGRESS_FILES) [])
         (Pickled (snapshot now sh))) H) as L.
    pose proof (progress_files_differ dir) as Hne.
    destruct next_progress_file_id as [|[|n]]; [| |lia];
      simpl in Hother, Hcut; simpl nth in L |- *;
      fold (progress1 dir) in *; fold (progress2 dir) in *;
      rewrite write_file_same in L;
      rewrite write_file_other in L by congruence.
    - destruct (fs (progress2 dir)) as [| | |p2]; try exact L;
        [congruence|].
      apply (proj2 L). simpl. apply Hother. reflexivity.
    - destruct (fs (progress1 dir)) as [| | |p1]; try exact L;
        [congruence|].
      apply (proj1 L). simpl. apply Hother. reflexivity. }
  exists (restored (snapshot now sh)). split; [exact Hl|].
  simpl. repeat split; auto using in_or_app.
  apply in_app_or.
Qed.

Lemma checkpoint_round_trip_witness :
  exists again,
    __iter__ logging_scraper
      (fst (progress_log_worker (lit "log/en/scraper_logs") 1 30 busy
                                two_files))
    = Some again
    /\ links_to_visit again
       = links_to_visit busy ++ currently_downloading busy
    /\ visited_links again = visited_links busy
    /\ (forall url,
          In url (links_to_visit again)
          <-> In url (links_to_visit busy)
              \/ In url (currently_downloading busy))
    /\ (forall url,
          In url (visited_links again) <-> In url (visited_links busy)).
Proof.
  refine (@checkpoint_round_trip logging_scraper
            (lit "log/en/scraper_logs") two_files 1%nat 30 busy
            eq_refl _ _ _).
  - lia.
  - vm_compute. discriminate.
  - intros p Hp. vm_compute in Hp. inversion Hp; subst. vm_compute.
    reflexivity.
Defined.

End Progress.

Section OutputFile.

Import SentenceFinder Pages.

Lemma contents_append_file (fs : Files) (path : str) (bytes : list N) :
  contents (append_file fs path bytes) path = contents fs path ++ bytes.
Proof.
  unfold contents at 1. unfold append_file.
  destruct (str_eq_dec path path); congruence.
Qed.

Lemma append_file_other (fs : Files) (path other : str) (bytes : list N) :
  other <> path -> append_file fs path bytes other = fs other.
Proof.
  intros H. unfold append_file. destruct (str_eq_dec other path); congruence.
Qed.

Lemma write_lines_appends title sentences path (fs : Files) :
  exists bytes,
    contents (snd (write_lines title sentences path fs)) path
    = contents fs path ++ bytes
    /\ (forall other, other <> path ->
          snd (write_lines title sentences path fs) other = fs other).
Proof.
  revert fs. induction sentences as [|s more IH]; intros fs; simpl.
  - exists []. rewrite app_nil_r. auto.
  - destruct (encode _) as [bytes|].
    + destruct (IH (append_file fs path bytes)) as (b & Hb & Ho).
      exists (bytes ++ b). rewrite Hb. split.
      * rewrite contents_append_file, app_assoc. reflexivity.
      * intros other Hne. rewrite (Ho other Hne).
        apply append_file_other; assumption.
    + exists []. rewrite app_nil_r. auto.
Qed.

(** C10. A turn of a parsing worker leaves every file as it is when
    no sentence of the page matches (and when there is no page, or no
    text in it); if a file is different after the turn, a sentence
    matched, the file is the worker's output file, and it holds what
    it held before followed by the new bytes. *)
Theorem no_match_no_write (worker_id : nat) (output_file : option str)
    (sentence_matcher : re.regex) (pages_visited : nat) (w : World) :
  let after := snd (parsing_worker worker_id output_file sentence_matcher
                                   pages_visited w) in
  (forall title response_content rest content_text,
     try_pop (available_pages w) = Some ((title, response_content), rest) ->
     mw_content_text response_content = Some content_text ->
     matching_sentences sentence_matcher content_text = [] ->
     files after = files w)
  /\ (files after <> files w ->
      exists title response_content rest content_text path bytes,
        try_pop (available_pages w) = Some ((title, response_content), rest)
        /\ mw_content_text response_content = Some content_text
        /\ matching_sentences sentence_matcher content_text <> []
        /\ output_file = Some path
        /\ contents (files after) path = contents (files w) path ++ bytes
        /\ (forall other, other <> path ->
              files after other = files w other)).
Proof.
  unfold parsing_worker, BeautifulSoup. split.
  - intros title rc rest text Hp Ht Hs. rewrite Hp, Ht, Hs.
    destruct (print_all _ (stdout w)) as [[|] out]; [|reflexivity].
    destruct output_file; reflexivity.
  - destruct (try_pop (available_pages w)) as [[[title rc] rest]|];
      [|simpl; congruence].
    destruct (mw_content_text rc) as [text|] eqn:Ht; [|simpl; congruence].
    destruct (print_all _ (stdout w)) as [[|] out]; [|simpl; congruence].
    destruct output_file as [path|]; [|simpl; congruence].
    destruct (matching_sentences sentence_matcher text) as [|s more] eqn:Hs;
      [simpl; congruence|].
    intros _.
    change (0 <? length (s :: more))%nat with true. cbv iota.
    unfold log_to_output_file.
    destruct (write_lines_appends title (s :: more) path
                (append_file (files w) path [])) as (bytes & Hb & Ho).
    destruct (write_lines title (s :: more) path
                (append_file (files w) path [])) as [ok fs'] eqn:Hw.
    simpl in Hb, Ho |- *.
    exists title, rc, rest, text, path, bytes.
    split; [reflexivity|]. split; [assumption|].
    split; [congruence|]. split; [reflexivity|]. split.
    + rewrite Hb, contents_append_file, app_nil_r. reflexivity.
    + intros other Hne. rewrite (Ho other Hne).
      apply append_file_other; assumption.
Qed.

Lemma no_match_no_write_witness :
  files (snd (parsing_worker 0 (Some (lit "w0.txt"))
                             (sentence_matcher (lit "en")) 0
                             (one_page (lit "The sky is blue."))))
  = files (one_page (lit "The sky is blue.")).
Proof.
  refine (proj1 (@no_match_no_write 0 (Some (lit "w0.txt"))
                   (sentence_matcher (lit "en")) 0
                   (one_page (lit "The sky is blue.")))
                (lit "Title") (with_text (lit "The sky is blue.")) []
                (lit "The sky is blue.") _ _ _);
    vm_compute; reflexivity.
Defined.

End OutputFile.

(** * Properties of the matcher *)

Section Matcher.

Import re.

Variable i : bool.

(** What [exec] finds is in the language of the pattern. *)
Lemma repeat_then_sound (r : regex)
    (body : (str -> option str) -> str -> option str)
    (Hbody : forall k s rest,
        body k s = Some rest ->
        exists m s', s = m ++ s' /\ Lang i r m /\ k s' = Some rest)
    (k : str -> option str) (n : nat) :
  forall s rest,
    repeat_then body k n s = Some rest ->
    exists m s', s = m ++ s' /\ Lang i (Star r) m /\ k s' = Some rest.
Proof.
  induction n as [|n IH]; intros s rest H; simpl in H.
  - exists [], s. repeat split; auto. constructor.
  - destruct (body _ s) as [rest'|] eqn:E.
    + inversion H; subst rest'. clear H.
      apply Hbody in E. destruct E as (m1 & s1 & -> & L1 & K).
      destruct (length s1 <? length (m1 ++ s1))%nat; [|discriminate].
      apply IH in K. destruct K as (m2 & s2 & -> & L2 & K).
      exists (m1 ++ m2), s2. rewrite app_assoc. repeat split; auto.
      constructor; assumption.
    + exists [], s. repeat split; auto. constructor.
Qed.

Lemma exec_sound (r : regex) :
  forall k s rest,
    exec i r k s = Some rest ->
    exists m s', s = m ++ s' /\ Lang i r m /\ k s' = Some rest.
Proof.
  induction r as [c| |neg rs|r1 IH1 r2 IH2|r1 IH1 r2 IH2|r1 IH1|r1 IH1];
    intros k s rest H; simpl in H.
  - destruct s as [|x s']; [discriminate|].
    destruct (chr_matches i c x) eqn:E; [|discriminate].
    exists [x], s'. repeat split; auto. constructor; assumption.
  - destruct s as [|x s']; [discriminate|].
    destruct (x =? 10)%N eqn:E; [discriminate|].
    exists [x], s'. repeat split; auto. constructor; assumption.
  - destruct s as [|x s']; [discriminate|].
    destruct (class_matches i neg rs x) eqn:E; [|discriminate].
    exists [x], s'. repeat split; auto. constructor; assumption.
  - apply IH1 in H. destruct H as (m1 & s1 & -> & L1 & H).
    apply IH2 in H. destruct H as (m2 & s2 & -> & L2 & H).
    exists (m1 ++ m2), s2. rewrite app_assoc. repeat split; auto.
    constructor; assumption.
  - destruct (exec i r1 k s) as [rest'|] eqn:E.
    + inversion H; subst rest'. apply IH1 in E.
      destruct E as (m & s' & -> & L & K).
      exists m, s'. repeat split; auto. apply LangAltL; assumption.
    + apply IH2 in H. destruct H as (m & s' & -> & L & K).
      exists m, s'. repeat split; auto. apply LangAltR; assumption.
  - eapply repeat_then_sound; eauto.
  - apply IH1 in H. destruct H as (m & s' & -> & L & K).
    exists m, s'. repeat split; auto. constructor; assumption.
Qed.

Lemma match_at_sound (r : regex) (s : str) (n : nat) :
  match_at i r s = Some n ->
  exists m rest, s = m ++ rest /\ Lang i r m /\ length m = n.
Proof.
  unfold match_at. destruct (exec i r Some s) as [rest|] eqn:E;
    [|discriminate].
  intros H; inversion H; subst n. apply exec_sound in E.
  destruct E as (m & s' & -> & L & K). inversion K; subst s'.
  exists m, rest. repeat split; auto. rewrite length_app. lia.
Qed.

Lemma search_sound (r : regex) (s : str) :
  search i r s = true ->
  exists before m rest, s = before ++ m ++ rest /\ Lang i r m.
Proof.
  induction s as [|x s IH]; simpl; intros H.
  - destruct (match_at i r []) as [n|] eqn:E; [|discriminate].
    apply match_at_sound in E. destruct E as (m & rest & E & L & _).
    exists [], m, rest. auto.
  - destruct (match_at i r (x :: s)) as [n|] eqn:E.
    + apply match_at_sound in E. destruct E as (m & rest & E & L & _).
      exists [], m, rest. auto.
    + destruct (IH H) as (before & m & rest & -> & L).
      exists (x :: before), m, rest. auto.
Qed.

(** A match at some place of the string is enough for [search]. *)
Lemma search_later (r : regex) (before s : str) :
  match_at i r s <> None -> search i r (before ++ s) = true.
Proof.
  intros H. induction before as [|x before IH]; simpl.
  - destruct s; simpl; destruct (match_at i r _); congruence.
  - destruct (match_at i r (x :: before ++ s)); auto.
Qed.

End Matcher.

Section Scan.

Import re.

Lemma scan_inside (r : regex) (n : nat) (s : str) :
  scan r n s = scan r 0 (skipn n s).
Proof.
  revert n. induction s as [|c s IH]; intros [|n]; simpl; auto.
Qed.

Lemma scan_step (r : regex) (c : char) (s : str) :
  scan r 0 (c :: s) =
    match match_at false r (c :: s) with
    | Some (S n) => Matched (firstn (S n) (c :: s)) :: scan r 0 (skipn n s)
    | _ => Copied c :: scan r 0 s
    end.
Proof.
  simpl. destruct (match_at false r (c :: s)) as [[|n]|]; auto.
  rewrite scan_inside. reflexivity.
Qed.

Lemma findall_step (r : regex) (c : char) (s : str) :
  findall r (c :: s) =
    match match_at false r (c :: s) with
    | Some (S n) => firstn (S n) (c :: s) :: findall r (skipn n s)
    | _ => findall r s
    end.
Proof.
  unfold findall. rewrite scan_step.
  destruct (match_at false r (c :: s)) as [[|n]|]; reflexivity.
Qed.

Lemma sub_step (r : regex) (repl : str) (c : char) (s : str) :
  sub r repl (c :: s) =
    match match_at false r (c :: s) with
    | Some (S n) => repl ++ sub r repl (skipn n s)
    | _ => c :: sub r repl s
    end.
Proof.
  unfold sub. rewrite scan_step.
  destruct (match_at false r (c :: s)) as [[|n]|]; reflexivity.
Qed.

End Scan.

Section Patterns.

Import re SentenceFinder Sentences.

Local Open Scope N_scope.

Lemma length_cons_sub (A : Type) (c : A) (s : list A) :
  (length (c :: s) - length s = 1)%nat.
Proof. simpl length. lia. Qed.

(** A one-character pattern. *)
Lemma match_at_chr (c x : char) (s : str) :
  match_at false (Chr c) (x :: s) = if x =? c then Some 1%nat else None.
Proof.
  unfold match_at. simpl exec. unfold chr_matches.
  rewrite andb_false_l, orb_false_r.
  destruct (x =? c); [|reflexivity].
  rewrite length_cons_sub. reflexivity.
Qed.

Lemma sub_chr (c : char) (s : str) :
  sub (Chr c) (lit " ") s = map (blank c) s.
Proof.
  induction s as [|x s IH]; [reflexivity|].
  rewrite sub_step, match_at_chr. unfold blank at 1. simpl map.
  destruct (x =? c); simpl; rewrite IH; reflexivity.
Qed.

(** A run of spaces is matched to its end. *)
Lemma repeat_spaces (n : nat) :
  forall s, (length s <= n)%nat ->
    repeat_then (exec false (Chr 32)) Some n s = Some (drop_spaces s).
Proof.
  induction n as [|n IH]; intros s Hn.
  - destruct s; [reflexivity|simpl in Hn; lia].
  - simpl repeat_then. destruct s as [|x s]; [reflexivity|].
    simpl exec. unfold chr_matches.
    rewrite andb_false_l, orb_false_r. simpl drop_spaces.
    destruct (x =? 32); [|reflexivity].
    replace (length s <? length (x :: s))%nat with true
      by (symmetry; apply Nat.ltb_lt; simpl; lia).
    rewrite IH by (simpl in Hn; lia). reflexivity.
Qed.

Lemma drop_spaces_suffix (s : str) :
  exists k, s = repeat 32 k ++ drop_spaces s.
Proof.
  induction s as [|x s [k IH]]; [exists 0%nat; reflexivity|].
  simpl. destruct (x =? 32) eqn:E.
  - apply N.eqb_eq in E. subst x. exists (S k). simpl. f_equal. exact IH.
  - exists 0%nat. reflexivity.
Qed.

Lemma skipn_length_app (A : Type) (l1 l2 : list A) :
  skipn (length l1) (l1 ++ l2) = l2.
Proof. induction l1; simpl; auto. Qed.

Lemma skipn_sub_app (A : Type) (l1 l2 : list A) :
  skipn (length (l1 ++ l2) - length l2) (l1 ++ l2) = l2.
Proof. rewrite length_app, Nat.add_sub. apply skipn_length_app. Qed.

Lemma skipn_drop_spaces (s : str) :
  skipn (length s - length (drop_spaces s)) s = drop_spaces s.
Proof.
  destruct (drop_spaces_suffix s) as [k E].
  set (d := drop_spaces s) in *. rewrite E. apply skipn_sub_app.
Qed.

Lemma length_drop_spaces (s : str) :
  (length (drop_spaces s) <= length s)%nat.
Proof.
  destruct (drop_spaces_suffix s) as [k E].
  set (d := drop_spaces s) in *. rewrite E, length_app. apply Nat.le_add_l.
Qed.

Lemma match_at_spaces (x : char) (s : str) :
  match_at false (Plus (Chr 32)) (x :: s) =
    if x =? 32 then Some (S (length s - length (drop_spaces s)))
    else None.
Proof.
  unfold match_at, Plus. simpl exec. unfold chr_matches.
  rewrite andb_false_l, orb_false_r.
  destruct (x =? 32); [|reflexivity].
  rewrite repeat_spaces by lia. f_equal.
  pose proof (length_drop_spaces s). simpl length. lia.
Qed.

Lemma squeeze_after_space (s : str) :
  squeeze true s = squeeze false (drop_spaces s).
Proof.
  induction s as [|x s IH]; [reflexivity|].
  simpl. destruct (x =? 32) eqn:E; [assumption|].
  simpl. rewrite E. reflexivity.
Qed.

Lemma sub_spaces (s : str) :
  sub (Plus (Chr 32)) (lit " ") s = squeeze false s.
Proof.
  remember (length s) as n eqn:Hn.
  assert (length s <= n)%nat as Hle by lia. clear Hn. revert s Hle.
  induction n as [|n IH]; intros s Hle.
  - destruct s; [reflexivity|simpl in Hle; lia].
  - destruct s as [|x s]; [reflexivity|].
    rewrite sub_step, match_at_spaces. simpl squeeze.
    destruct (x =? 32).
    + rewrite skipn_drop_spaces, squeeze_after_space.
      rewrite IH; [reflexivity|].
      pose proof (length_drop_spaces s). simpl in Hle. lia.
    + rewrite IH by (simpl in Hle; lia). reflexivity.
Qed.

(** What the lines 87-93 do, without patterns. *)
Lemma normalize_unfolded (content_text : str) :
  normalize content_text =
    squeeze false
      (strip (map (blank 9) (map (blank 13) (map (blank 10) content_text)))).
Proof.
  unfold normalize. rewrite sub_spaces, !sub_chr. reflexivity.
Qed.

End Patterns.

Section SentencePattern.

Import re SentenceFinder Sentences.

Local Open Scope N_scope.

Lemma between_same (c x : char) : (c <=? x) && (x <=? c) = (x =? c).
Proof.
  destruct (x =? c) eqn:E.
  - apply N.eqb_eq in E. subst. rewrite N.leb_refl. reflexivity.
  - apply N.eqb_neq in E.
    destruct (c <=? x) eqn:E1, (x <=? c) eqn:E2; try reflexivity.
    apply N.leb_le in E1, E2. lia.
Qed.

Lemma class_terminator (x : char) :
  class_matches false false terminators x = is_terminator x.
Proof.
  unfold class_matches, terminators, in_ranges, is_terminator. simpl.
  rewrite !between_same, !orb_false_r, ?orb_assoc. reflexivity.
Qed.

Lemma class_no_terminator (x : char) :
  class_matches false true terminators x = negb (is_terminator x).
Proof.
  unfold class_matches, terminators, in_ranges, is_terminator. simpl.
  rewrite !between_same, !orb_false_r, ?orb_assoc. reflexivity.
Qed.

Lemma class_upper (x : char) :
  class_matches false false [(65, 90)] x = is_upper x.
Proof.
  unfold class_matches, in_ranges, is_upper. simpl.
  rewrite !orb_false_r. reflexivity.
Qed.

Lemma exec_class (negated : bool) (ranges : list (char * char))
    (k : str -> option str) (x : char) (s : str) :
  exec false (Class negated ranges) k (x :: s)
  = if class_matches false negated ranges x then k s else None.
Proof. reflexivity. Qed.

Lemma until_terminator_some (s m rest : str) :
  until_terminator s = Some (m, rest) ->
  s = m ++ rest
  /\ exists body t,
       m = body ++ [t]
       /\ Forall (fun x => is_terminator x = false) body
       /\ is_terminator t = true.
Proof.
  revert m rest. induction s as [|x s IH]; intros m rest H; simpl in H;
    [discriminate|].
  destruct (is_terminator x) eqn:E.
  - inversion H; subst. split; [reflexivity|].
    exists [], x. repeat split; auto.
  - destruct (until_terminator s) as [[m' rest']|]; [|discriminate].
    inversion H; subst. destruct (IH _ _ eq_refl) as (-> & body & t & -> & F & T).
    split; [reflexivity|]. exists (x :: body), t. repeat split; auto.
Qed.

Lemma until_terminator_none (s : str) :
  until_terminator s = None ->
  Forall (fun x => is_terminator x = false) s.
Proof.
  induction s as [|x s IH]; intros H; simpl in H; [constructor|].
  destruct (is_terminator x) eqn:E; [discriminate|].
  destruct (until_terminator s) as [[m rest]|]; [discriminate|].
  constructor; auto.
Qed.

Lemma until_terminator_first (body rest : str) (t : char) :
  Forall (fun x => is_terminator x = false) body ->
  is_terminator t = true ->
  until_terminator (body ++ t :: rest) = Some (body ++ [t], rest).
Proof.
  intros F T. induction F as [|x body Hx F IH]; simpl.
  - rewrite T. reflexivity.
  - rewrite Hx, IH. reflexivity.
Qed.

(** The middle and the end of the sentence pattern: everything up to
    the first terminator. *)
Lemma repeat_until_terminator (n : nat) :
  forall s, (length s <= n)%nat ->
    repeat_then (exec false (Class true terminators))
                (exec false (Class false terminators) Some) n s
    = option_map snd (until_terminator s).
Proof.
  induction n as [|n IH]; intros s Hn.
  - destruct s; [reflexivity|simpl in Hn; lia].
  - destruct s as [|x s]; [reflexivity|].
    cbn [repeat_then]. rewrite !exec_class.
    rewrite class_no_terminator, class_terminator.
    simpl until_terminator.
    destruct (is_terminator x) eqn:E; simpl negb; cbv iota;
      [reflexivity|].
    replace (length s <? length (x :: s))%nat with true
      by (symmetry; apply Nat.ltb_lt; simpl; lia).
    rewrite IH by (simpl in Hn; lia).
    destruct (until_terminator s) as [[m rest]|]; reflexivity.
Qed.

Lemma match_at_sentence (c : char) (s : str) :
  match_at false sentence_pattern (c :: s) =
    if is_upper c then
      match until_terminator s with
      | Some (m, _) => Some (S (length m))
      | None => None
      end
    else None.
Proof.
  unfold match_at, sentence_pattern. cbn [exec]. rewrite class_upper.
  destruct (is_upper c); [|reflexivity].
  rewrite repeat_until_terminator by lia.
  destruct (until_terminator s) as [[m rest]|] eqn:E; [|reflexivity].
  simpl option_map. apply until_terminator_some in E. destruct E as [-> _].
  f_equal. simpl length. rewrite length_app. lia.
Qed.

Lemma candidates_nil : candidates [] = [].
Proof. reflexivity. Qed.

(** Line 96 read from left to right. *)
Lemma candidates_step (c : char) (s : str) :
  candidates (c :: s) =
    if is_upper c then
      match until_terminator s with
      | Some (m, rest) => (c :: m) :: candidates rest
      | None => candidates s
      end
    else candidates s.
Proof.
  unfold candidates. rewrite findall_step, match_at_sentence.
  destruct (is_upper c); [|reflexivity].
  destruct (until_terminator s) as [[m rest]|] eqn:E; [|reflexivity].
  apply until_terminator_some in E. destruct E as [-> _].
  rewrite skipn_length_app. simpl firstn.
  rewrite firstn_app, Nat.sub_diag, firstn_all. simpl.
  rewrite app_nil_r. reflexivity.
Qed.

Lemma sentence_starts (c : char) (s m rest : str) :
  c :: s = m ++ rest -> Sentence m ->
  is_upper c = true
  /\ exists m', m = c :: m' /\ until_terminator s = Some (m', rest).
Proof.
  intros E (u & body & t & -> & U & F & T). simpl in E.
  inversion E; subst. split; [assumption|].
  exists (body ++ [t]). split; [reflexivity|].
  rewrite <- app_assoc. simpl. apply until_terminator_first; assumption.
Qed.

Lemma split_candidates_upto (n : nat) :
  forall text, (length text <= n)%nat -> Split text (candidates text).
Proof.
  induction n as [|n IH]; intros text Hn.
  - destruct text; [constructor|simpl in Hn; lia].
  - destruct text as [|c s]; [constructor|].
    rewrite candidates_step. simpl in Hn.
    destruct (is_upper c) eqn:U.
    + destruct (until_terminator s) as [[m rest]|] eqn:E.
      * destruct (@until_terminator_some _ _ _ E) as (-> & body & t & -> & F & T).
        change (c :: (body ++ [t]) ++ rest)
          with ((c :: body ++ [t]) ++ rest).
        apply SplitTake.
        -- exists c, body, t. auto.
        -- apply IH. rewrite length_app in Hn. lia.
      * apply SplitPass; [|apply IH; lia].
        intros m rest Em Sm.
        destruct (@sentence_starts _ _ _ _ Em Sm) as (_ & m' & _ & E').
        congruence.
    + apply SplitPass; [|apply IH; lia].
      intros m rest Em Sm.
      destruct (@sentence_starts _ _ _ _ Em Sm) as (U' & _). congruence.
Qed.

Lemma split_is_candidates (text : str) (l : list str) :
  Split text l -> l = candidates text.
Proof.
  induction 1 as [|c s l Hno _ IH|m rest l Sm _ IH].
  - reflexivity.
  - rewrite candidates_step.
    destruct (is_upper c) eqn:U; [|assumption].
    destruct (until_terminator s) as [[m rest]|] eqn:E; [|assumption].
    exfalso. destruct (@until_terminator_some _ _ _ E) as (-> & body & t & -> & F & T).
    apply (Hno (c :: body ++ [t]) rest); [reflexivity|].
    exists c, body, t. auto.
  - destruct Sm as (u & body & t & -> & U & F & T).
    simpl. rewrite candidates_step, U.
    rewrite <- app_assoc. simpl.
    rewrite (@until_terminator_first body rest t F T).
    rewrite <- IH. reflexivity.
Qed.

Lemma split_members (text : str) (l : list str) :
  Split text l ->
  forall c, In c l ->
    Sentence c /\ exists before rest, text = before ++ c ++ rest.
Proof.
  induction 1 as [|x s l _ _ IH|m rest l Sm _ IH]; intros c Hc.
  - destruct Hc.
  - destruct (IH _ Hc) as (S1 & before & rest & ->).
    split; [assumption|]. exists (x :: before), rest. reflexivity.
  - destruct Hc as [<-|Hc].
    + split; [assumption|]. exists [], rest. reflexivity.
    + destruct (IH _ Hc) as (S1 & before & rest' & ->).
      split; [assumption|]. exists (m ++ before), rest'.
      rewrite <- app_assoc. reflexivity.
Qed.

(** X22. What line 96 does. It reads the text from left to right: where
    an upper-case letter A-Z is followed, sooner or later, by a
    terminator, the characters from the letter to the first such
    terminator are a candidate and reading goes on after it; any
    other character is passed. The candidates are the only list read
    that way; each of them is a piece of the text that begins with a
    letter A-Z and has one terminator, its last character. *)
Lemma candidates_read_left_to_right (text : str) :
  Split text (candidates text)
  /\ (forall l, Split text l -> l = candidates text)
  /\ (forall c, In c (candidates text) ->
        (exists before rest, text = before ++ c ++ rest)
        /\ exists u body t,
             c = u :: body ++ [t]
             /\ is_upper u = true
             /\ Forall (fun x => is_terminator x = false) body
             /\ is_terminator t = true).
Proof.
  assert (Split text (candidates text)) as H
    by (apply (@split_candidates_upto (length text)); lia).
  split; [assumption|]. split; [apply split_is_candidates|].
  intros c Hc. destruct (@split_members _ _ H _ Hc) as [S1 S2]. auto.
Qed.

Lemma candidates_read_left_to_right_witness :
  exists before rest,
    lit "He ran. then She sat!" = before ++ lit "She sat!" ++ rest.
Proof.
  refine (proj1 (proj2 (proj2 (candidates_read_left_to_right
                                 (lit "He ran. then She sat!")))
                       (lit "She sat!") _)).
  vm_compute. right. left. reflexivity.
Defined.

(** Not every such piece of the text is a candidate: in "The Big dog."
    the piece "Big dog." starts with an upper-case letter and runs to
    the first terminator, and it is no candidate, being inside one. *)
Lemma candidates_do_not_overlap :
  ~ (forall text c,
       In c (candidates text)
       <-> (Sentence c /\ exists before rest, text = before ++ c ++ rest)).
Proof.
  intros H.
  assert (In (lit "Big dog.") (candidates (lit "The Big dog."))) as Hin.
  { apply H. split.
    - exists 66, (lit "ig dog"), 46. repeat split.
      vm_compute. repeat constructor.
    - exists (lit "The "), []. reflexivity. }
  vm_compute in Hin. destruct Hin as [Hin|[]]. discriminate.
Qed.

End SentencePattern.

(** * A sentence inside a page *)

Section Blanks.

Import re SentenceFinder Sentences.

Local Open Scope N_scope.

Lemma squeeze_before (b : bool) (x : str) (a : char) (z : str) :
  (a =? 32) = false ->
  squeeze b (x ++ a :: z) = squeeze b x ++ a :: squeeze false z.
Proof.
  intros Ha. revert b. induction x as [|c x IH]; intros b; simpl.
  - rewrite Ha. reflexivity.
  - destruct (c =? 32); [destruct b|]; simpl; rewrite IH; reflexivity.
Qed.

Lemma squeeze_forall (P : char -> Prop) (b : bool) (x : str) :
  Forall P x -> Forall P (squeeze b x).
Proof.
  intros F. revert b. induction F as [|c x Hc F IH]; intros b; simpl;
    [constructor|].
  destruct (c =? 32) eqn:E;
    [apply N.eqb_eq in E; subst c; destruct b|]; auto.
Qed.

Lemma lstrip_before (x : str) (a : char) (z : str) :
  isspace a = false ->
  exists x1 x2, x = x1 ++ x2 /\ lstrip (x ++ a :: z) = x2 ++ a :: z.
Proof.
  intros Ha. induction x as [|c x (x1 & x2 & E & L)]; simpl.
  - exists [], []. rewrite Ha. auto.
  - destruct (isspace c).
    + exists (c :: x1), x2. subst x. auto.
    + exists [], (c :: x). auto.
Qed.

Lemma lstrip_forall (P : char -> Prop) (x : str) :
  Forall P x -> Forall P (lstrip x).
Proof.
  induction 1 as [|c x Hc F IH]; simpl; [constructor|].
  destruct (isspace c); auto.
Qed.

Lemma rev_forall (P : char -> Prop) (x : str) :
  Forall P x -> Forall P (rev x).
Proof.
  intros F. apply Forall_forall. intros c Hc.
  apply in_rev in Hc. revert c Hc. apply Forall_forall. assumption.
Qed.

Lemma normalize_forall (P : char -> Prop) (text : str) :
  P 32 -> Forall P text -> Forall P (normalize text).
Proof.
  intros Hs F. rewrite normalize_unfolded.
  apply squeeze_forall. unfold strip.
  apply rev_forall, lstrip_forall, rev_forall, lstrip_forall.
  assert (forall c l, Forall P l -> Forall P (map (blank c) l)) as Hb.
  { intros c l Fl. induction Fl; simpl; constructor; auto.
    unfold blank. destruct (_ =? _); assumption. }
  auto.
Qed.

End Blanks.

Section Kept.

Import re SentenceFinder Sentences.

Local Open Scope N_scope.

(** A sentence [a :: mid ++ [z]] written with single spaces. *)
Variables (a z : char) (mid : str).

Local Abbreviation sentence := (a :: mid ++ [z]).
Local Abbreviation Holds := (Sentences.Holds sentence).

Hypothesis a_upper : is_upper a = true.
Hypothesis mid_plain : Forall (fun x => is_terminator x = false) mid.
Hypothesis z_ends : is_terminator z = true.
Hypothesis no_blank :
  forall c, In c [9; 10; 13] -> map (blank c) sentence = sentence.
Hypothesis single_spaces :
  forall rest, squeeze false (sentence ++ rest) = sentence ++ squeeze false rest.

Lemma upper_not_space (c : char) : is_upper c = true -> isspace c = false.
Proof.
  unfold is_upper, isspace. intros H.
  apply andb_true_iff in H. destruct H as [H1 H2].
  apply N.leb_le in H1, H2.
  repeat match goal with
         | |- _ || _ = false => apply orb_false_iff; split
         | |- _ && _ = false => apply andb_false_iff
         end;
    try (apply N.eqb_neq; lia);
    try (right; apply N.leb_gt; lia);
    try (left; apply N.leb_gt; lia).
Qed.

Lemma terminator_not_space (c : char) :
  is_terminator c = true -> isspace c = false.
Proof.
  unfold is_terminator. intros H.
  apply orb_true_iff in H. destruct H as [H|H];
    [apply orb_true_iff in H; destruct H as [H|H]|];
    apply N.eqb_eq in H; subst c; reflexivity.
Qed.

Lemma upper_not_terminator (c : char) :
  is_upper c = true -> is_terminator c = false.
Proof.
  unfold is_upper, is_terminator. intros H.
  apply andb_true_iff in H. destruct H as [H1 H2].
  apply N.leb_le in H1, H2.
  repeat (apply orb_false_iff; split); apply N.eqb_neq; lia.
Qed.

Lemma holds_blank (before text : str) (c : char) :
  In c [9; 10; 13] -> Holds before text -> Holds before (map (blank c) text).
Proof.
  intros Hc (x & y & -> & F).
  exists (map (blank c) x), (map (blank c) y). split.
  - rewrite !map_app, (@no_blank c Hc). reflexivity.
  - clear - F. induction F as [|d x Hd F IH]; simpl; constructor; auto.
    unfold blank. destruct (d =? c); auto.
Qed.

Lemma holds_strip (before text : str) :
  Holds before text -> Holds before (strip text).
Proof.
  intros (x & y & -> & F). unfold strip.
  change (x ++ sentence ++ y) with (x ++ a :: (mid ++ [z]) ++ y).
  destruct (@lstrip_before x a ((mid ++ [z]) ++ y)
                           (@upper_not_space a a_upper))
    as (x1 & x2 & Ex & L).
  rewrite L.
  assert (rev (x2 ++ a :: (mid ++ [z]) ++ y)
          = rev y ++ z :: rev (x2 ++ a :: mid)) as R.
  { repeat (rewrite ?rev_app_distr; cbn [rev app]).
    rewrite <- ?app_assoc. cbn [app]. reflexivity. }
  rewrite R.
  destruct (@lstrip_before (rev y) z (rev (x2 ++ a :: mid))
                           (@terminator_not_space z z_ends))
    as (y1 & y2 & Ey & L2).
  rewrite L2.
  exists x2, (rev y2). split.
  - rewrite rev_app_distr. simpl. rewrite rev_involutive.
    rewrite <- !app_assoc. reflexivity.
  - subst x. apply Forall_app in F. tauto.
Qed.

Lemma a_not_space : (a =? 32) = false.
Proof.
  destruct (a =? 32) eqn:E; [|reflexivity].
  apply N.eqb_eq in E. rewrite E in a_upper. discriminate.
Qed.

Lemma holds_squeeze (before text : str) :
  Holds before text -> Holds before (squeeze false text).
Proof.
  intros (x & y & -> & F).
  exists (squeeze false x), (squeeze false y). split.
  - change (x ++ sentence ++ y) with (x ++ a :: (mid ++ [z]) ++ y).
    rewrite squeeze_before by apply a_not_space. f_equal.
    rewrite <- single_spaces.
    change (sentence ++ y) with (a :: (mid ++ [z]) ++ y).
    cbn [squeeze]. rewrite a_not_space. reflexivity.
  - apply squeeze_forall. assumption.
Qed.

Lemma holds_normalize (before rest : str) :
  Holds before (normalize (before ++ sentence ++ rest)).
Proof.
  rewrite normalize_unfolded.
  apply holds_squeeze, holds_strip.
  apply holds_blank; [simpl; auto|].
  apply holds_blank; [simpl; auto|].
  apply holds_blank; [simpl; auto|].
  exists before, rest. split; [reflexivity|].
  apply Forall_forall. auto.
Qed.

Lemma until_terminator_app (x m rest tail : str) :
  until_terminator x = Some (m, rest) ->
  until_terminator (x ++ tail) = Some (m, rest ++ tail).
Proof.
  revert m rest. induction x as [|c x IH]; intros m rest H; simpl in H;
    [discriminate|].
  simpl. destruct (is_terminator c); [inversion H; reflexivity|].
  destruct (until_terminator x) as [[m' rest']|]; [|discriminate].
  inversion H; subst. rewrite (IH _ _ eq_refl). reflexivity.
Qed.

Lemma until_terminator_shorter (x m rest : str) :
  until_terminator x = Some (m, rest) -> (length rest < length x)%nat.
Proof.
  intros H. apply until_terminator_some in H.
  destruct H as (-> & body & t & -> & _).
  rewrite !length_app. simpl. lia.
Qed.

(** Reading a text that holds the sentence gives a candidate that
    ends with it, and the sentence itself when no upper-case letter
    comes before it. *)
Lemma candidate_ends_with (n : nat) :
  forall x y, (length x <= n)%nat ->
    exists pre,
      In (pre ++ sentence) (candidates (x ++ sentence ++ y))
      /\ (Forall (fun c => is_upper c = false) x -> pre = []).
Proof.
  assert (forall y, until_terminator ((mid ++ [z]) ++ y)
                    = Some (mid ++ [z], y)) as Hmid.
  { intros y. rewrite <- app_assoc.
    apply until_terminator_first; assumption. }
  induction n as [|n IH]; intros x y Hn.
  - destruct x; [|simpl in Hn; lia].
    exists []. split; [|reflexivity].
    cbn [app]. rewrite candidates_step, a_upper, Hmid. left. reflexivity.
  - destruct x as [|c x].
    + exists []. split; [|reflexivity].
      cbn [app]. rewrite candidates_step, a_upper, Hmid. left. reflexivity.
    + simpl in Hn. cbn [app]. rewrite candidates_step.
      destruct (is_upper c) eqn:U.
      * destruct (until_terminator x) as [[m rest]|] eqn:E.
        -- rewrite (@until_terminator_app x m rest _ E).
           destruct (IH rest y) as (pre & Hin & _).
           { apply until_terminator_shorter in E. lia. }
           exists pre. split; [right; assumption|].
           intros F. inversion F; congruence.
        -- apply until_terminator_none in E.
           assert (until_terminator (x ++ a :: (mid ++ [z]) ++ y)
                   = Some ((x ++ a :: mid) ++ [z], y)) as ->.
           { replace (x ++ a :: (mid ++ [z]) ++ y)
               with ((x ++ a :: mid) ++ z :: y)
               by (rewrite <- !app_assoc; reflexivity).
             apply until_terminator_first; [|assumption].
             apply Forall_app. split; [assumption|].
             constructor; [|assumption].
             apply upper_not_terminator; assumption. }
           exists (c :: x). split.
           ++ left. cbn [app]. rewrite <- !app_assoc. reflexivity.
           ++ intros F. inversion F; congruence.
      * destruct (IH x y) as (pre & Hin & Hpre); [lia|].
        exists pre. split; [assumption|].
        intros F. inversion F; auto.
Qed.

Variable matcher : regex.

Hypothesis matched : forall pre, search true matcher (pre ++ sentence) = true.

(** A page whose text holds the sentence: the finder keeps a sentence
    that ends with it, and the sentence itself when no upper-case
    letter comes before it in the text. *)
Lemma kept (before rest : str) :
  exists pre,
    In (pre ++ sentence)
       (matching_sentences matcher (before ++ sentence ++ rest))
    /\ (Forall (fun c => is_upper c = false) before -> pre = []).
Proof.
  destruct (holds_normalize before rest) as (x & y & E & F).
  unfold matching_sentences. rewrite E.
  destruct (@candidate_ends_with (length x) x y (le_n _))
    as (pre & Hin & Hpre).
  exists pre. split.
  - apply filter_In. split; [assumption|apply matched].
  - intros Fb. apply Hpre.
    apply Forall_forall. intros c Hc.
    rewrite Forall_forall in F. destruct (F c Hc) as [->|Hb];
      [reflexivity|].
    rewrite Forall_forall in Fb. auto.
Qed.

End Kept.

Section English.

Import re SentenceFinder Sentences.

Local Open Scope N_scope.

Lemma english_matcher : sentence_matcher (lit "en") = matcher_en.
Proof. reflexivity. Qed.

Lemma the_trip_matched (pre : str) :
  search true matcher_en (pre ++ the_trip) = true.
Proof.
  change the_trip with (lit "The trip " ++ lit "took three days.").
  rewrite app_assoc. apply search_later. vm_compute. discriminate.
Qed.

Lemma the_trip_kept (before rest : str) :
  exists pre,
    In (pre ++ the_trip)
       (matching_sentences matcher_en (before ++ the_trip ++ rest))
    /\ (Forall (fun c => is_upper c = false) before -> pre = []).
Proof.
  apply (@kept 84 46 (lit "he trip took three days")).
  - reflexivity.
  - unfold lit. simpl. repeat constructor.
  - reflexivity.
  - intros c Hc. simpl in Hc.
    destruct Hc as [Hc|[Hc|[Hc|Hc]]];
      try (subst c; reflexivity); destruct Hc.
  - intros rest'. reflexivity.
  - apply the_trip_matched.
Qed.

(** A sentence the English pattern matches has a [d] in it. *)
Lemma english_match_has_d (c : str) :
  search true matcher_en c = true -> exists x, In x c /\ (x = 100 \/ x = 68).
Proof.
  intros H. apply search_sound in H.
  destruct H as (before & m & rest & -> & L).
  unfold matcher_en in L. cbn in L.
  inversion L as [| | |? ? m1 m2 _ L2| | | | |]; subst.
  inversion L2 as [| | |? ? m3 m4 _ L4| | | | |]; subst.
  inversion L4 as [| | |? ? m5 m6 _ L6| | | | |]; subst.
  inversion L6 as [| | | | | | | |? ? L7]; subst.
  inversion L7 as [| | |? ? m7 m8 L8 _| | | | |]; subst.
  inversion L8 as [? x Hx| | | | | | | |]; subst.
  exists x. split.
  - apply in_or_app. right. apply in_or_app. left.
    do 3 (apply in_or_app; right). apply in_eq.
  - unfold chr_matches in Hx. cbn in Hx.
    apply orb_true_iff in Hx. destruct Hx as [Hx|Hx].
    + apply N.eqb_eq in Hx. auto.
    + rewrite orb_false_r in Hx. apply N.eqb_eq in Hx. auto.
Qed.

Lemma filter_none (A : Type) (f : A -> bool) (l : list A) :
  (forall x, In x l -> f x = false) -> filter f l = [].
Proof.
  induction l as [|x l IH]; intros H; simpl; [reflexivity|].
  rewrite (H x (or_introl eq_refl)). apply IH. intros y Hy.
  apply H. right. assumption.
Qed.

(** A text without the letter [d] has no sentence for the English
    pattern. *)
Lemma no_d_no_match (text : str) :
  Forall (fun x => x <> 100 /\ x <> 68) text ->
  matching_sentences matcher_en text = [].
Proof.
  intros F. unfold matching_sentences. apply filter_none.
  intros c Hc. destruct (search true matcher_en c) eqn:E; [|reflexivity].
  exfalso. apply english_match_has_d in E. destruct E as (x & Hx & Hd).
  destruct (@split_members (normalize text) _
              (@split_candidates_upto _ _ (le_n _)) c Hc)
    as (_ & b & r & Eb).
  assert (Forall (fun x => x <> 100 /\ x <> 68) (normalize text)) as Fn.
  { apply normalize_forall; [split; discriminate|assumption]. }
  rewrite Eb in Fn. rewrite Forall_forall in Fn.
  assert (In x (b ++ c ++ r)) as Hin
    by (apply in_or_app; right; apply in_or_app; left; assumption).
  destruct (Fn x Hin) as [N1 N2]. destruct Hd; congruence.
Qed.

Lemma space_is_no_d (x : char) : isspace x = true -> x <> 100 /\ x <> 68.
Proof. intros H. split; intros ->; discriminate. Qed.

Lemma copies_of_the_sky (separators : list str) :
  Forall (Forall (fun x => isspace x = true)) separators ->
  Forall (fun x => x <> 100 /\ x <> 68) (copies the_sky separators).
Proof.
  induction 1 as [|sep more Hsep _ IH]; cbn [copies]; [constructor|].
  apply Forall_app. split.
  - unfold the_sky, lit. simpl. repeat constructor; discriminate.
  - apply Forall_app. split; [|assumption].
    eapply Forall_impl; [|exact Hsep]. apply space_is_no_d.
Qed.

End English.

(** * What every crawl keeps true *)

Section Accounting.

Import WikipediaScraper Buffer Keeps.

Lemma count_set_nth (f : Worker -> bool) (jobs : list Worker) (i : nat)
    (w w' : Worker) :
  nth_error jobs i = Some w ->
  length (filter f (set_nth i w' jobs)) + (if f w then 1 else 0)
  = length (filter f jobs) + (if f w' then 1 else 0).
Proof.
  revert i. induction jobs as [|x jobs IH]; intros [|i] H; simpl in *;
    try discriminate.
  - inversion H; subst. destruct (f w), (f w'); simpl; lia.
  - specialize (IH i H). destruct (f x); simpl; lia.
Qed.

Lemma str_eqb_true (u v : str) : str_eqb u v = true <-> u = v.
Proof. unfold str_eqb. destruct (str_eq_dec u v); split; congruence. Qed.

Lemma holders_kill_jobs (u : str) (jobs : list Worker) :
  holders u (kill_jobs jobs) = 0.
Proof. unfold holders, kill_jobs. induction jobs; simpl; auto. Qed.

Lemma holders_positive (u : str) (jobs : list Worker) (i : nat) (w : Worker) :
  nth_error jobs i = Some w -> url_of w = Some u -> 0 < holders u jobs.
Proof.
  unfold holders. revert i.
  induction jobs as [|x jobs IH]; intros [|i] H Hu; simpl in *;
    try discriminate.
  - inversion H; subst x.
    assert (holds_url u w = true) as ->.
    { destruct w; simpl in *; try discriminate;
        inversion Hu; subst; apply str_eqb_true; reflexivity. }
    simpl. lia.
  - specialize (IH i H Hu). destruct (holds_url u x); simpl; lia.
Qed.

Lemma no_holder_no_download (jobs : list Worker) :
  (forall u, holders u jobs = 0) -> downloads jobs = 0.
Proof.
  unfold holders, downloads. induction jobs as [|x jobs IH]; intros H;
    [reflexivity|].
  assert (str_eqb_refl : forall v, str_eqb v v = true)
    by (intros v; apply str_eqb_true; reflexivity).
  destruct x as [|v|v|v e|]; simpl in *;
    try (apply IH; exact H);
    specialize (H v); rewrite str_eqb_refl in H; simpl in H; discriminate.
Qed.

Lemma count_occ_none (l : list str) :
  (forall u, count_occ str_eq_dec l u = 0) -> l = [].
Proof.
  destruct l as [|x l]; [reflexivity|]. intros H. specialize (H x).
  simpl in H. destruct (str_eq_dec x x); [discriminate|congruence].
Qed.

Lemma next_locked_drained_inv (sh sh' : Shared) :
  next_locked sh = (Drained, sh') ->
  sh' = sh /\ links_to_visit sh = [] /\ currently_downloading sh = []
  /\ downloaded_responses sh = [].
Proof.
  unfold next_locked.
  destruct (_ && _) eqn:E.
  - intros H; inversion H; subst.
    apply andb_true_iff in E. destruct E as [E E3].
    apply andb_true_iff in E. destruct E as [E1 E2].
    apply Nat.eqb_eq in E1, E2, E3.
    apply length_zero_iff_nil in E1, E2, E3. auto.
  - clear E.
    destruct (_ =? _); [discriminate|].
    destruct (PyDict.keys _); [discriminate|].
    destruct (PyDict.get _ _); discriminate.
Qed.

Lemma next_locked_keeps (sh sh' : Shared) (l : Locked) :
  next_locked sh = (l, sh') ->
  links_to_visit sh' = links_to_visit sh
  /\ visited_links sh' = visited_links sh
  /\ currently_downloading sh' = currently_downloading sh.
Proof.
  unfold next_locked.
  destruct (_ && _); [intros H; inversion H; subst; auto|].
  destruct (_ =? _); [intros H; inversion H; subst; auto|].
  destruct (PyDict.keys _); [intros H; inversion H; subst; auto|].
  destruct (PyDict.get _ _); intros H; inversion H; subst; auto.
Qed.

Lemma next_unlocked_keeps self response (sh sh' : Shared) (r : Result) :
  next_unlocked self response sh = (r, sh') ->
  visited_links sh' = visited_links sh
  /\ currently_downloading sh' = currently_downloading sh
  /\ downloaded_responses sh' = downloaded_responses sh.
Proof.
  unfold next_unlocked, parse_links.
  destruct (valid_wiki_page_links _ _);
    [|intros H; inversion H; auto].
  destruct (firstHeading _); intros H; inversion H; auto.
Qed.

(** One entry of [currently_downloading] per worker that holds a url:
    kept by every step. *)
Lemma step_accounted self (c c' : Crawl) (e : Event) :
  step self c e = Some c' -> accounted c -> accounted c'.
Proof.
  unfold accounted, step. intros H Hinv u.
  destruct e as [i|i o|i| |].
  - destruct (nth_error (page_download_jobs c) i) as [[| | | |]|] eqn:Hn;
      try discriminate.
    destruct (try_dequeue (shared c)) as [[url|] sh] eqn:Hd.
    + apply try_dequeue_some in Hd. destruct Hd as (_ & _ & _ & Hcd & _).
      inversion H; subst; simpl. rewrite Hcd, count_occ_app, Hinv.
      pose proof (@count_set_nth (holds_url u) _ i AtLoopHead
                    (Downloading url) Hn) as E.
      unfold holders. simpl in E |- *. unfold str_eqb in E.
      destruct (str_eq_dec url u), (str_eq_dec u url); try congruence; lia.
    + inversion H; subst. apply Hinv.
  - destruct (nth_error (page_download_jobs c) i) as [[|url| | |]|] eqn:Hn;
      try discriminate.
    destruct (download url o (shared c)) as [[w sh] printed] eqn:Hd.
    inversion H; subst; simpl.
    assert (currently_downloading sh = currently_downloading (shared c)
            /\ holds_url u w = holds_url u (Downloading url)) as [-> Hw].
    { unfold download in Hd. destruct o as [response|x];
        [|destruct (is_ConnectionError x)]; inversion Hd; subst; auto. }
    pose proof (@count_set_nth (holds_url u) _ i (Downloading url) w Hn) as E.
    rewrite Hw in E. rewrite Hinv. unfold holders.
    destruct (holds_url u (Downloading url)); lia.
  - destruct (nth_error (page_download_jobs c) i) as [[| |url| |]|] eqn:Hn;
      try discriminate.
    unfold remove_downloading in H.
    destruct (PyList.remove _ _ _) as [r|] eqn:Hr; [|discriminate].
    inversion H; subst; simpl.
    pose proof (@remove_count url u _ _ Hr) as Hc.
    pose proof (@count_set_nth (holds_url u) _ i (Removing url) AtLoopHead Hn)
      as E.
    specialize (Hinv u). unfold holders in *. simpl in E.
    unfold str_eqb in E.
    destruct (str_eq_dec url u), (str_eq_dec u url); try congruence; lia.
  - destruct (consumer c); try discriminate;
      destruct (next_locked (shared c)) as [[| |url response] sh] eqn:Hl;
      pose proof (next_locked_keeps _ Hl) as (_ & _ & Hcd);
      inversion H; subst; simpl; rewrite Hcd; try apply Hinv;
      apply next_locked_drained_inv in Hl; destruct Hl as (_ & _ & E & _);
      rewrite holders_kill_jobs, E; reflexivity.
  - destruct (consumer c); try discriminate.
    destruct (next_unlocked self response (shared c)) as [r sh] eqn:Hu.
    apply next_unlocked_keeps in Hu. destruct Hu as (_ & Hcd & _).
    inversion H; subst; simpl. rewrite Hcd. apply Hinv.
Qed.

Lemma iter_downloading self fs (sh : Shared) :
  __iter__ self fs = Some sh -> currently_downloading sh = [].
Proof.
  unfold __iter__, load_progress_file.
  destruct (log_dir self); [|intros H; inversion H; reflexivity].
  destruct (load_all fs _) as [progresses|]; [|discriminate].
  destruct (length _ =? 0); [intros H; inversion H; reflexivity|].
  destruct (sorted_newest_first _); intros H; inversion H; reflexivity.
Qed.

Lemma start_downloading self fs :
  currently_downloading (shared (start self fs)) = [].
Proof.
  destruct (start_cases self fs) as [(sh & E & ->)|[_ ->]];
    [exact (iter_downloading _ _ E)|reflexivity].
Qed.

Lemma start_accounted self fs : accounted (start self fs).
Proof.
  intros u. rewrite start_downloading.
  destruct (start_jobs self fs) as (n & -> & _). simpl.
  unfold holders. induction n; simpl; auto.
Qed.

Lemma run_accounted self (events : list Event) (c c' : Crawl) :
  run self c events = Some c' -> accounted c -> accounted c'.
Proof.
  revert c. induction events as [|e events IH]; intros c H Hinv; simpl in H.
  - inversion H; subst; assumption.
  - destruct (step self c e) as [c1|] eqn:Hs; [|discriminate].
    eapply IH; [eassumption|]. eapply step_accounted; eassumption.
Qed.

End Accounting.

Section Removal.

Import WikipediaScraper Buffer Keeps Scenario Episodes.

Lemma count_occ_positive (l : list str) (u : str) :
  0 < count_occ str_eq_dec l u -> In u l.
Proof. intros H. apply (count_occ_In str_eq_dec). lia. Qed.

Lemma nth_error_set_nth_same (A : Type) (l : list A) (i : nat) (x y : A) :
  nth_error l i = Some y -> nth_error (set_nth i x l) i = Some x.
Proof.
  revert i. induction l as [|z l IH]; intros [|i] H; simpl in *;
    try discriminate; auto.
Qed.

Lemma nth_error_set_nth_other (A : Type) (l : list A) (i j : nat) (x : A) :
  i <> j -> nth_error (set_nth i x l) j = nth_error l j.
Proof.
  revert i j. induction l as [|z l IH]; intros [|i] [|j] H; simpl;
    try reflexivity; try congruence.
  apply IH. congruence.
Qed.

(** X1. From the start of a crawl on, the [remove] of line 172 finds its
    url: a worker that is past its download has its url in
    [currently_downloading], so the call does not raise [ValueError],
    and the worker is back at the head of its loop. *)
Theorem remove_never_raises (self : Params) (fs : Files)
    (events : list Event) (c : Crawl) (i : nat) (url : str) :
  run self (start self fs) events = Some c ->
  nth_error (page_download_jobs c) i = Some (Removing url) ->
  In url (currently_downloading (shared c))
  /\ exists c',
       step self c (WorkerRemove i) = Some c'
       /\ nth_error (page_download_jobs c') i = Some AtLoopHead
       /\ S (count_occ str_eq_dec (currently_downloading (shared c')) url)
          = count_occ str_eq_dec (currently_downloading (shared c)) url.
Proof.
  intros Hrun Hn.
  pose proof (@run_accounted self events _ _ Hrun (start_accounted self fs))
    as Hacc.
  assert (In url (currently_downloading (shared c))) as Hin.
  { apply count_occ_positive. rewrite Hacc.
    eapply holders_positive; [exact Hn|reflexivity]. }
  split; [assumption|].
  destruct (@remove_downloading_one url (shared c) Hin)
    as (sh' & Hr & _ & _ & _ & Hc).
  unfold step. rewrite Hn, Hr. eexists. split; [reflexivity|].
  simpl. split; [|assumption].
  eapply nth_error_set_nth_same; eassumption.
Qed.

Lemma remove_never_raises_witness :
  In article_url
     (currently_downloading
        (shared (Outcome.after 1 (fetch 0 page_linking_twice
                                  ++ [NextLocked; NextUnlocked] ++ stored)))).
Proof.
  refine (proj1 (@remove_never_raises (scraper 1) no_files
                   (fetch 0 page_linking_twice
                    ++ [NextLocked; NextUnlocked] ++ stored)
                   _ 0 article_url _ _));
    vm_compute; reflexivity.
Defined.

Lemma next_stops_only_drained self (sh : Shared) :
  fst (__next__ self sh) = StopIteration ->
  currently_downloading sh = [].
Proof.
  unfold __next__.
  destruct (next_locked sh) as [[| |url response] sh'] eqn:E; simpl.
  - intros _. apply next_locked_drained_inv in E. tauto.
  - discriminate.
  - unfold next_unlocked. destruct (parse_links _ _ _); [|discriminate].
    destruct (firstHeading _); discriminate.
Qed.

Lemma step_keeps_crashed self (c c' : Crawl) (ev : Event) (i : nat)
    (url : str) (e : RequestException) :
  step self c ev = Some c' ->
  accounted c ->
  nth_error (page_download_jobs c) i = Some (Crashed url e) ->
  nth_error (page_download_jobs c') i = Some (Crashed url e).
Proof.
  unfold step. intros H Hacc Hn.
  destruct ev as [j|j o|j| |].
  - destruct (nth_error (page_download_jobs c) j) as [[| | | |]|] eqn:Hj;
      try discriminate.
    destruct (try_dequeue (shared c)) as [[u|] sh];
      inversion H; subst; simpl; [|assumption].
    rewrite nth_error_set_nth_other; [assumption|]. congruence.
  - destruct (nth_error (page_download_jobs c) j) as [[|u| | |]|] eqn:Hj;
      try discriminate.
    destruct (download u o (shared c)) as [[w sh] printed].
    inversion H; subst; simpl.
    rewrite nth_error_set_nth_other; [assumption|]. congruence.
  - destruct (nth_error (page_download_jobs c) j) as [[| |u| |]|] eqn:Hj;
      try discriminate.
    destruct (remove_downloading u (shared c)); [|discriminate].
    inversion H; subst; simpl.
    rewrite nth_error_set_nth_other; [assumption|]. congruence.
  - destruct (consumer c); try discriminate;
      destruct (next_locked (shared c)) as [[| |u response] sh] eqn:Hl;
      inversion H; subst; simpl; try assumption;
      exfalso; apply next_locked_drained_inv in Hl;
      destruct Hl as (_ & _ & E & _);
      pose proof (@holders_positive url _ i _ Hn eq_refl) as Hp;
      rewrite <- Hacc, E in Hp; simpl in Hp; lia.
  - destruct (consumer c); try discriminate.
    destruct (next_unlocked self response (shared c)) as [r sh].
    inversion H; subst; simpl. assumption.
Qed.

(** X2. A download that ends with an uncaught exception holds the crawl
    open for good: whatever happens afterwards, the worker stays dead,
    its url stays in [currently_downloading], and [__next__] does not
    raise [StopIteration]. *)
Theorem crashed_worker_blocks_the_end (self : Params) (fs : Files)
    (before later : list Event) (c c' : Crawl) (i : nat) (url : str)
    (e : RequestException) :
  run self (start self fs) before = Some c ->
  nth_error (page_download_jobs c) i = Some (Crashed url e) ->
  run self c later = Some c' ->
  nth_error (page_download_jobs c') i = Some (Crashed url e)
  /\ In url (currently_downloading (shared c'))
  /\ fst (__next__ self (shared c')) <> StopIteration.
Proof.
  intros Hrun Hn Hlater.
  pose proof (@run_accounted self before _ _ Hrun (start_accounted self fs))
    as Hacc.
  assert (accounted c'
          /\ nth_error (page_download_jobs c') i = Some (Crashed url e))
    as [Hacc' Hn'].
  { clear Hrun. revert c Hn Hacc Hlater.
    induction later as [|ev later IH]; intros c Hn Hacc Hlater;
      simpl in Hlater.
    - inversion Hlater; subst; auto.
    - destruct (step self c ev) as [c1|] eqn:Hs; [|discriminate].
      apply (IH c1); [|eapply step_accounted; eassumption|assumption].
      eapply step_keeps_crashed; eassumption. }
  assert (In url (currently_downloading (shared c'))) as Hin.
  { apply count_occ_positive. rewrite Hacc'.
    eapply holders_positive; [exact Hn'|reflexivity]. }
  repeat split; try assumption.
  intros Hstop. apply next_stops_only_drained in Hstop.
  rewrite Hstop in Hin. destruct Hin.
Qed.

Lemma crashed_worker_blocks_the_end_witness :
  fst (__next__ (scraper 1)
         (shared (Outcome.after 1 (broken_download ++ asked_after_break))))
  <> StopIteration.
Proof.
  refine (proj2 (proj2 (@crashed_worker_blocks_the_end (scraper 1) no_files
             broken_download asked_after_break Outcome.stranded _ 0 main_url
             ChunkedEncodingError _ _ _)));
    vm_compute; reflexivity.
Defined.

End Removal.

Section Visited.

Import WikipediaScraper Buffer Keeps Scenario Episodes.

Lemma iter_visited_cold self fs :
  downloaded_responses (shared (start self fs)) = []
  /\ currently_downloading (shared (start self fs)) = [].
Proof. split; [apply start_downloaded|apply start_downloading]. Qed.

Lemma step_counts_dequeues self (c c' : Crawl) (e : Event) (n : nat) :
  step self c e = Some c' ->
  accounted c ->
  length (visited_links (shared c))
    = n + length (requests_sent c) + downloads (page_download_jobs c) ->
  length (visited_links (shared c'))
    = n + length (requests_sent c') + downloads (page_download_jobs c').
Proof.
  unfold step. intros H Hacc Hinv.
  destruct e as [i|i o|i| |].
  - destruct (nth_error (page_download_jobs c) i) as [[| | | |]|] eqn:Hn;
      try discriminate.
    destruct (try_dequeue (shared c)) as [[url|] sh] eqn:Hd.
    + apply try_dequeue_some in Hd. destruct Hd as (_ & _ & Hv & _ & _).
      inversion H; subst; simpl. rewrite Hv, length_app. simpl.
      pose proof (@downloads_set_nth _ i AtLoopHead (Downloading url) Hn) as E.
      simpl in E. lia.
    + inversion H; subst. assumption.
  - destruct (nth_error (page_download_jobs c) i) as [[|url| | |]|] eqn:Hn;
      try discriminate.
    destruct (download url o (shared c)) as [[w sh] printed] eqn:Hd.
    inversion H; subst; simpl. rewrite length_app. simpl.
    pose proof (@downloads_set_nth _ i (Downloading url) w Hn) as E.
    assert (visited_links sh = visited_links (shared c)
            /\ is_downloading w = false) as [-> Hw].
    { unfold download in Hd. destruct o as [response|x];
        [|destruct (is_ConnectionError x)]; inversion Hd; subst; auto. }
    rewrite Hw in E. simpl in E. lia.
  - destruct (nth_error (page_download_jobs c) i) as [[| |url| |]|] eqn:Hn;
      try discriminate.
    unfold remove_downloading in H.
    destruct (PyList.remove _ _ _); [|discriminate].
    inversion H; subst; simpl.
    pose proof (@downloads_set_nth _ i (Removing url) AtLoopHead Hn) as E.
    simpl in E. lia.
  - destruct (consumer c); try discriminate;
      destruct (next_locked (shared c)) as [[| |url response] sh] eqn:Hl;
      pose proof (next_locked_keeps _ Hl) as (_ & Hv & _);
      inversion H; subst; simpl; rewrite Hv; try assumption;
      apply next_locked_drained_inv in Hl; destruct Hl as (_ & _ & E & _);
      rewrite downloads_kill_jobs;
      rewrite (@no_holder_no_download (page_download_jobs c)) in Hinv;
      try assumption;
      intros u; rewrite <- Hacc, E; reflexivity.
  - destruct (consumer c); try discriminate.
    destruct (next_unlocked self response (shared c)) as [r sh] eqn:Hu.
    apply next_unlocked_keeps in Hu. destruct Hu as (Hv & _ & _).
    inversion H; subst; simpl. rewrite Hv. assumption.
Qed.

(** X3. [visited_links] counts the urls taken: from the start of a crawl on
    it has grown by one entry for every url given to [requests.get] and
    one for every url a worker has taken and not yet requested. *)
Theorem visited_counts_dequeues (self : Params) (fs : Files)
    (events : list Event) (c : Crawl) :
  run self (start self fs) events = Some c ->
  length (visited_links (shared c))
  = length (visited_links (shared (start self fs)))
    + length (requests_sent c) + downloads (page_download_jobs c).
Proof.
  intros Hrun.
  assert (forall c0,
             accounted c0 ->
             length (visited_links (shared c0))
             = length (visited_links (shared (start self fs)))
               + length (requests_sent c0)
               + downloads (page_download_jobs c0) ->
             run self c0 events = Some c ->
             length (visited_links (shared c))
             = length (visited_links (shared (start self fs)))
               + length (requests_sent c)
               + downloads (page_download_jobs c)) as Hgen.
  { clear Hrun. induction events as [|e events IH]; intros c0 Hacc H0 Hr;
      simpl in Hr.
    - inversion Hr; subst; assumption.
    - destruct (step self c0 e) as [c1|] eqn:Hs; [|discriminate].
      apply (IH c1); [eapply step_accounted; eassumption| |assumption].
      eapply step_counts_dequeues; eassumption. }
  apply (Hgen (start self fs)); [apply start_accounted| |assumption].
  destruct (start_cases self fs) as [(sh & _ & ->)|[_ ->]]; simpl;
    [|reflexivity].
  replace (downloads (repeat AtLoopHead (num_download_workers self))) with 0;
    [lia|].
  unfold downloads. induction (num_download_workers self); simpl; auto.
Qed.

Lemma visited_counts_dequeues_witness :
  length (visited_links (shared (Outcome.after 2 crawl_two_links))) = 0 + 2 + 1.
Proof.
  refine (@visited_counts_dequeues (scraper 2) no_files crawl_two_links
            (Outcome.after 2 crawl_two_links) _).
  vm_compute. reflexivity.
Defined.

End Visited.

Section Recorded.

Import WikipediaScraper Buffer Keeps Scenario Episodes.

Lemma remove_sublist (x y : str) (l r : list str) :
  PyList.remove str_eq_dec x l = Some r -> In y r -> In y l.
Proof.
  revert r. induction l as [|z l IH]; intros r H Hy; simpl in H;
    [discriminate|].
  destruct (str_eq_dec x z).
  - inversion H; subst. right. assumption.
  - destruct (PyList.remove str_eq_dec x l) as [r'|]; [|discriminate].
    inversion H; subst. destruct Hy as [<-|Hy]; [left; reflexivity|].
    right. eapply IH; [reflexivity|assumption].
Qed.

Lemma keys_dict_set (d : PyDict.t Response) (k u : str) (v : Response) :
  In u (PyDict.keys (PyDict.set k v d)) -> u = k \/ In u (PyDict.keys d).
Proof.
  induction d as [|[k' v'] d IH]; simpl.
  - intros [<-|[]]. auto.
  - destruct (str_eq_dec k k'); simpl.
    + intros [<-|H]; auto.
    + intros [<-|H]; auto. destruct (IH H); auto.
Qed.

Lemma keys_dict_del (d : PyDict.t Response) (k u : str) :
  In u (PyDict.keys (PyDict.del k d)) -> In u (PyDict.keys d).
Proof.
  induction d as [|[k' v'] d IH]; simpl; [auto|].
  destruct (str_eq_dec k k'); simpl; [auto|].
  intros [<-|H]; auto.
Qed.

Lemma next_locked_keys (sh sh' : Shared) (l : Locked) (u : str) :
  next_locked sh = (l, sh') ->
  In u (PyDict.keys (downloaded_responses sh')) ->
  In u (PyDict.keys (downloaded_responses sh)).
Proof.
  unfold next_locked.
  destruct (_ && _); [intros H; inversion H; subst; exact (fun x => x)|].
  destruct (_ =? _); [intros H; inversion H; subst; exact (fun x => x)|].
  destruct (PyDict.keys (downloaded_responses sh)) as [|k ks] eqn:E.
  - intros H; inversion H; subst. rewrite E. exact (fun x => x).
  - rewrite <- E.
    destruct (PyDict.get k _); intros H; inversion H; subst; simpl;
      [apply keys_dict_del|exact (fun x => x)].
Qed.

(** Every step keeps what [visited_links] holds and adds at its end. *)
Lemma step_visited_grows self (c c' : Crawl) (e : Event) :
  step self c e = Some c' ->
  exists more,
    visited_links (shared c') = visited_links (shared c) ++ more.
Proof.
  unfold step. intros H.
  assert (forall sh, visited_links sh = visited_links (shared c) ->
            exists more, visited_links sh = visited_links (shared c) ++ more)
    as Same by (intros sh ->; exists []; rewrite app_nil_r; reflexivity).
  destruct e as [i|i o|i| |].
  - destruct (nth_error _ i) as [[| | | |]|]; try discriminate.
    destruct (try_dequeue (shared c)) as [[url|] sh] eqn:Hd.
    + apply try_dequeue_some in Hd. destruct Hd as (_ & _ & Hv & _ & _).
      inversion H; subst; simpl. exists [url]. assumption.
    + inversion H; subst. apply Same. reflexivity.
  - destruct (nth_error _ i) as [[|url| | |]|]; try discriminate.
    destruct (download url o (shared c)) as [[w sh] printed] eqn:Hd.
    inversion H; subst; simpl. apply Same.
    unfold download in Hd. destruct o as [response|x];
      [|destruct (is_ConnectionError x)]; inversion Hd; subst; auto.
  - destruct (nth_error _ i) as [[| |url| |]|]; try discriminate.
    unfold remove_downloading in H.
    destruct (PyList.remove _ _ _); [|discriminate].
    inversion H; subst; simpl. apply Same. reflexivity.
  - destruct (consumer c); try discriminate;
      destruct (next_locked (shared c)) as [[| |url response] sh] eqn:Hl;
      pose proof (next_locked_keeps _ Hl) as (_ & Hv & _);
      inversion H; subst; simpl; apply Same; assumption.
  - destruct (consumer c); try discriminate.
    destruct (next_unlocked self response (shared c)) as [r sh] eqn:Hu.
    apply next_unlocked_keeps in Hu. destruct Hu as (Hv & _ & _).
    inversion H; subst; simpl. apply Same. assumption.
Qed.

Lemma step_recorded self (c c' : Crawl) (e : Event) :
  step self c e = Some c' -> accounted c -> recorded c -> recorded c'.
Proof.
  intros H Hacc Hrec u Hu.
  destruct (step_visited_grows _ _ _ H) as [more Hv]. rewrite Hv.
  unfold step in H. unfold recorded in Hrec.
  destruct e as [i|i o|i| |].
  - destruct (nth_error _ i) as [[| | | |]|]; try discriminate.
    destruct (try_dequeue (shared c)) as [[url|] sh] eqn:Hd.
    + apply try_dequeue_some in Hd.
      destruct Hd as (_ & _ & Hv' & Hcd & Hdr).
      inversion H; subst; simpl in *. rewrite Hv' in Hv.
      apply app_inv_head in Hv. subst more.
      rewrite Hcd, Hdr in Hu. apply in_or_app.
      destruct Hu as [Hu|Hu]; [apply in_app_or in Hu; destruct Hu|]; auto.
    + inversion H; subst. apply in_or_app. auto.
  - destruct (nth_error _ i) as [[|url| | |]|] eqn:Hn; try discriminate.
    destruct (download url o (shared c)) as [[w sh] printed] eqn:Hd.
    inversion H; subst; simpl in *. apply in_or_app. left.
    unfold download in Hd. destruct o as [response|x];
      [|destruct (is_ConnectionError x)]; inversion Hd; subst; simpl in *;
      auto.
    destruct Hu as [Hu|Hu]; [auto|].
    apply keys_dict_set in Hu. destruct Hu as [->|Hu]; [|auto].
    apply Hrec. left. apply count_occ_positive. rewrite Hacc.
    eapply holders_positive; [exact Hn|reflexivity].
  - destruct (nth_error _ i) as [[| |url| |]|]; try discriminate.
    unfold remove_downloading in H.
    destruct (PyList.remove _ _ _) as [r|] eqn:Hr; [|discriminate].
    inversion H; subst; simpl in *. apply in_or_app. left.
    destruct Hu as [Hu|Hu]; [|auto].
    apply Hrec. left. eapply remove_sublist; eassumption.
  - apply in_or_app. left.
    destruct (consumer c); try discriminate;
      destruct (next_locked (shared c)) as [[| |url response] sh] eqn:Hl;
      pose proof (next_locked_keeps _ Hl) as (_ & _ & Hcd);
      pose proof (@next_locked_keys _ _ _ u Hl) as Hk;
      inversion H; subst; simpl in *; rewrite Hcd in Hu;
      apply Hrec; tauto.
  - apply in_or_app. left.
    destruct (consumer c); try discriminate.
    destruct (next_unlocked self response (shared c)) as [r sh] eqn:Hn.
    apply next_unlocked_keeps in Hn. destruct Hn as (_ & Hcd & Hdr).
    inversion H; subst; simpl in *. rewrite Hcd, Hdr in Hu. auto.
Qed.

(** X4. Whatever is being downloaded, whatever page waits in the buffer,
    its url is in [visited_links], which only grows at its end: the
    test of [parse_links] against [visited_links] alone already leaves
    out every url that is being downloaded or was downloaded. *)
Theorem downloads_are_visited (self : Params) (fs : Files)
    (events : list Event) (c : Crawl) :
  run self (start self fs) events = Some c ->
  (forall u,
     In u (currently_downloading (shared c))
     \/ In u (PyDict.keys (downloaded_responses (shared c))) ->
     In u (visited_links (shared c)))
  /\ (exists more,
        visited_links (shared c)
        = visited_links (shared (start self fs)) ++ more)
  /\ (forall links u,
        In u (links_to_visit (add_links links (shared c))) ->
        In u (links_to_visit (shared c))
        \/ (In u links /\ ~ In u (visited_links (shared c)))).
Proof.
  intros Hrun.
  assert (forall c0,
             accounted c0 -> recorded c0 ->
             run self c0 events = Some c ->
             recorded c
             /\ exists more,
                  visited_links (shared c)
                  = visited_links (shared c0) ++ more) as Hgen.
  { clear Hrun. induction events as [|e events IH]; intros c0 Hacc Hrec Hr;
      simpl in Hr.
    - inversion Hr; subst. split; [assumption|].
      exists []. rewrite app_nil_r. reflexivity.
    - destruct (step self c0 e) as [c1|] eqn:Hs; [|discriminate].
      destruct (IH c1) as (R & more & Hm);
        [eapply step_accounted; eassumption
        |eapply step_recorded; eassumption|assumption|].
      split; [assumption|].
      destruct (step_visited_grows _ _ _ Hs) as [more1 Hm1].
      exists (more1 ++ more). rewrite Hm, Hm1, app_assoc. reflexivity. }
  destruct (Hgen (start self fs)) as (R & G); [apply start_accounted| |
                                              assumption|].
  { intros u. rewrite start_downloading, start_downloaded. simpl. tauto. }
  split; [exact R|]. split; [exact G|].
  intros links u Hu. simpl in Hu. apply in_app_or in Hu.
  destruct Hu as [Hu|Hu]; [auto|]. right.
  apply filter_In in Hu. destruct Hu as [Hin Hne]. split; [assumption|].
  unfold not_encountered in Hne. intros Hv.
  rewrite (@str_in_true _ _ Hv) in Hne. discriminate.
Qed.

Lemma downloads_are_visited_witness :
  exists more,
    visited_links (shared (Outcome.after 2 crawl_two_links))
    = visited_links (shared (start (scraper 2) no_files)) ++ more.
Proof.
  refine (proj1 (proj2 (@downloads_are_visited (scraper 2) no_files
                          crawl_two_links _ _))).
  vm_compute. reflexivity.
Defined.

(** X5. A url that was taken and has no copy left in [links_to_visit] is
    not taken again: no later step puts it back, so [visited_links]
    gets no second entry for it. *)
Theorem taken_once_stays_out (self : Params) (events : list Event)
    (c c' : Crawl) (u : str) :
  run self c events = Some c' ->
  In u (visited_links (shared c)) ->
  count_occ str_eq_dec (links_to_visit (shared c)) u = 0 ->
  count_occ str_eq_dec (links_to_visit (shared c')) u = 0
  /\ count_occ str_eq_dec (visited_links (shared c')) u
     = count_occ str_eq_dec (visited_links (shared c)) u.
Proof.
  revert c. induction events as [|e events IH]; intros c Hrun Hu Hz;
    simpl in Hrun.
  - inversion Hrun; subst. auto.
  - destruct (step self c e) as [c1|] eqn:Hs; [|discriminate].
    destruct (@visited_not_queued_again self c c1 e u Hs Hu) as [Hu1 Hle].
    assert (count_occ str_eq_dec (visited_links (shared c1)) u
            = count_occ str_eq_dec (visited_links (shared c)) u) as Hsame.
    { destruct (step_visited_grows _ _ _ Hs) as [more Hm].
      rewrite Hm, count_occ_app.
      assert (count_occ str_eq_dec more u = 0) as ->; [|lia].
      unfold step in Hs. destruct e as [i|i o|i| |].
      - destruct (nth_error _ i) as [[| | | |]|]; try discriminate.
        destruct (try_dequeue (shared c)) as [[url|] sh] eqn:Hd.
        + apply try_dequeue_some in Hd.
          destruct Hd as (_ & Hl & Hv & _ & _).
          inversion Hs; subst; simpl in *. rewrite Hv in Hm.
          apply app_inv_head in Hm. subst more.
          rewrite Hl, count_occ_app in Hz. simpl in *.
          destruct (str_eq_dec url u); [lia|reflexivity].
        + inversion Hs; subst.
          rewrite <- (app_nil_r (visited_links (shared c1))) in Hm at 1.
          apply app_inv_head in Hm. subst more. reflexivity.
      - destruct (nth_error _ i) as [[|url| | |]|]; try discriminate.
        destruct (download url o (shared c)) as [[w sh] printed] eqn:Hd.
        inversion Hs; subst; simpl in *.
        assert (visited_links sh = visited_links (shared c)) as E.
        { unfold download in Hd. destruct o as [response|x];
            [|destruct (is_ConnectionError x)]; inversion Hd; subst; auto. }
        rewrite E in Hm.
        rewrite <- (app_nil_r (visited_links (shared c))) in Hm at 1.
        apply app_inv_head in Hm. subst more. reflexivity.
      - destruct (nth_error _ i) as [[| |url| |]|]; try discriminate.
        unfold remove_downloading in Hs.
        destruct (PyList.remove _ _ _); [|discriminate].
        inversion Hs; subst; simpl in *.
        rewrite <- (app_nil_r (visited_links (shared c))) in Hm at 1.
        apply app_inv_head in Hm. subst more. reflexivity.
      - destruct (consumer c); try discriminate;
          destruct (next_locked (shared c)) as [[| |url response] sh] eqn:Hl;
          pose proof (next_locked_keeps _ Hl) as (_ & Hv & _);
          inversion Hs; subst; simpl in *; rewrite Hv in Hm;
          rewrite <- (app_nil_r (visited_links (shared c))) in Hm at 1;
          apply app_inv_head in Hm; subst more; reflexivity.
      - destruct (consumer c); try discriminate.
        destruct (next_unlocked self response (shared c)) as [r sh] eqn:Hn.
        apply next_unlocked_keeps in Hn. destruct Hn as (Hv & _ & _).
        inversion Hs; subst; simpl in *. rewrite Hv in Hm.
        rewrite <- (app_nil_r (visited_links (shared c))) in Hm at 1.
        apply app_inv_head in Hm. subst more. reflexivity. }
    destruct (IH c1 Hrun Hu1) as [H1 H2]; [lia|].
    split; [assumption|]. rewrite H2. assumption.
Qed.

Lemma taken_once_stays_out_witness :
  count_occ str_eq_dec
    (visited_links (shared (Outcome.after 2 crawl_two_links))) main_url = 1.
Proof.
  refine (proj2 (@taken_once_stays_out (scraper 2)
                   ([NextLocked; NextUnlocked] ++ fetch 0 article
                    ++ [WorkerLock 1])
                   (Outcome.after 2 (fetch 0 two_links)) _ main_url _ _ _));
    vm_compute; auto.
Defined.

End Recorded.

Section Links.

Import WikipediaScraper Buffer Keeps Scenario Episodes.

Lemma str_in_false (x : str) (l : list str) : str_in x l = false <-> ~ In x l.
Proof.
  unfold str_in. destruct (in_dec str_eq_dec x l); split; intros; try tauto;
    discriminate.
Qed.

Lemma not_encountered_true (sh : Shared) (u : str) :
  not_encountered sh u = true <->
  ~ In u (visited_links sh) /\ ~ In u (currently_downloading sh)
  /\ ~ In u (PyDict.keys (downloaded_responses sh)).
Proof.
  unfold not_encountered.
  rewrite !andb_true_iff, !negb_true_iff, !str_in_false. tauto.
Qed.

Lemma valid_links_spec self (soup : Soup) (links : list str) (u : str) :
  valid_wiki_page_links self soup = Some links ->
  In u links <->
  exists anchors path,
    bodyContent soup = Some anchors
    /\ In {| href := Some path |} anchors
    /\ startswith WIKI_PAGE_TAG path = true
    /\ char_in 58%N path = false
    /\ u = wikipedia_url self ++ path.
Proof.
  unfold valid_wiki_page_links.
  destruct (bodyContent soup) as [anchors|]; [|discriminate].
  intros H; inversion H; subst links. clear H. rewrite in_map_iff. split.
  - intros ([[path|]] & <- & Hin); apply filter_In in Hin;
      destruct Hin as [Hin Hv]; unfold valid_wiki_page_sub_link in Hv;
      cbn [href] in Hv; [|discriminate].
    apply andb_true_iff in Hv. destruct Hv as [Hs Hc].
    apply negb_true_iff in Hc.
    exists anchors, path. auto.
  - intros (anchors' & path & Ha & Hin & Hs & Hc & ->).
    inversion Ha; subst anchors'.
    exists {| href := Some path |}. split; [reflexivity|].
    apply filter_In. split; [assumption|].
    unfold valid_wiki_page_sub_link. cbn [href]. rewrite Hs, Hc. reflexivity.
Qed.

(** X6. [parse_links] changes [links_to_visit] only, and only at its end:
    what it adds are the urls of the anchors of [bodyContent] whose
    [href] starts with [/wiki/] and has no colon, prefixed with the
    url of the wiki, that are not in [visited_links],
    [currently_downloading] or [downloaded_responses]; it fails only
    for a page without [bodyContent]. *)
Theorem parse_links_adds_new_articles (self : Params) (soup : Soup)
    (sh : Shared) :
  match parse_links self soup sh with
  | None => bodyContent soup = None
  | Some sh' =>
      visited_links sh' = visited_links sh
      /\ currently_downloading sh' = currently_downloading sh
      /\ downloaded_responses sh' = downloaded_responses sh
      /\ exists added,
           links_to_visit sh' = links_to_visit sh ++ added
           /\ forall u,
                In u added <->
                (exists anchors path,
                   bodyContent soup = Some anchors
                   /\ In {| href := Some path |} anchors
                   /\ startswith WIKI_PAGE_TAG path = true
                   /\ char_in 58%N path = false
                   /\ u = wikipedia_url self ++ path)
                /\ ~ In u (visited_links sh)
                /\ ~ In u (currently_downloading sh)
                /\ ~ In u (PyDict.keys (downloaded_responses sh))
  end.
Proof.
  unfold parse_links.
  destruct (valid_wiki_page_links self soup) as [links|] eqn:E.
  - repeat split; try reflexivity.
    exists (filter (not_encountered sh) links). split; [reflexivity|].
    intros u. rewrite filter_In, not_encountered_true.
    rewrite (@valid_links_spec self soup links u E). tauto.
  - unfold valid_wiki_page_links in E.
    destruct (bodyContent soup); [discriminate|reflexivity].
Qed.

Lemma valid_links_on_site self (soup : Soup) (links : list str) :
  valid_wiki_page_links self soup = Some links ->
  Forall (on_site self) links.
Proof.
  intros H. apply Forall_forall. intros u Hu.
  apply (@valid_links_spec self soup links u H) in Hu.
  destruct Hu as (anchors & path & _ & _ & Hs & Hc & ->).
  right. exists path. auto.
Qed.

End Links.

Section OnSite.

Import WikipediaScraper Buffer Keeps Scenario Episodes.

Lemma Forall_set_nth (A : Type) (P : A -> Prop) (l : list A) (i : nat)
    (x : A) :
  Forall P l -> P x -> Forall P (set_nth i x l).
Proof.
  intros F Hx. revert i. induction F as [|y l Hy F IH]; intros [|i]; simpl;
    constructor; auto.
Qed.

Lemma Forall_nth_error (A : Type) (P : A -> Prop) (l : list A) (i : nat)
    (x : A) :
  Forall P l -> nth_error l i = Some x -> P x.
Proof.
  intros F H. rewrite Forall_forall in F. apply F.
  eapply nth_error_In; eassumption.
Qed.

Lemma step_on_site self (c c' : Crawl) (e : Event) :
  step self c e = Some c' -> all_on_site self c -> all_on_site self c'.
Proof.
  unfold step, all_on_site. intros H (Hl & Hv & Hr & Hj).
  destruct e as [i|i o|i| |].
  - destruct (nth_error _ i) as [[| | | |]|]; try discriminate.
    destruct (try_dequeue (shared c)) as [[url|] sh] eqn:Hd.
    + apply try_dequeue_some in Hd.
      destruct Hd as (_ & Hl' & Hv' & _ & _).
      rewrite Hl' in Hl. apply Forall_app in Hl. destruct Hl as [Hl Hu].
      inversion Hu; subst.
      inversion H; subst; simpl. rewrite Hv'.
      repeat split; auto.
      * apply Forall_app. auto.
      * apply Forall_set_nth; [assumption|].
        simpl. intros u E. inversion E; subst. assumption.
    + inversion H; subst. auto.
  - destruct (nth_error _ i) as [[|url| | |]|] eqn:Hn; try discriminate.
    destruct (download url o (shared c)) as [[w sh] printed] eqn:Hd.
    pose proof (Forall_nth_error _ Hj Hn url eq_refl) as Hu.
    inversion H; subst; simpl.
    assert (links_to_visit sh = links_to_visit (shared c)
            /\ visited_links sh = visited_links (shared c)
            /\ url_of w = Some url) as (-> & -> & Hw).
    { unfold download in Hd. destruct o as [response|x];
        [|destruct (is_ConnectionError x)]; inversion Hd; subst; auto. }
    repeat split; auto.
    + apply Forall_app. auto.
    + apply Forall_set_nth; [assumption|].
      intros u E. congruence.
  - destruct (nth_error _ i) as [[| |url| |]|]; try discriminate.
    unfold remove_downloading in H.
    destruct (PyList.remove _ _ _); [|discriminate].
    inversion H; subst; simpl. repeat split; auto.
    apply Forall_set_nth; [assumption|]. simpl. discriminate.
  - destruct (consumer c); try discriminate;
      destruct (next_locked (shared c)) as [[| |url response] sh] eqn:Hl';
      pose proof (next_locked_keeps _ Hl') as (E1 & E2 & _);
      inversion H; subst; simpl; rewrite E1, E2; repeat split; auto;
      unfold kill_jobs; apply Forall_forall; intros w Hw;
      apply in_map_iff in Hw; destruct Hw as (? & <- & _); discriminate.
  - destruct (consumer c); try discriminate.
    unfold next_unlocked, parse_links in H.
    destruct (valid_wiki_page_links _ _) as [links|] eqn:E;
      [|inversion H; subst; simpl; auto].
    apply valid_links_on_site in E.
    assert (Forall (on_site self)
              (links_to_visit (add_links links (shared c)))) as Hadd.
    { simpl. apply Forall_app. split; [assumption|].
      apply Forall_forall. intros u Hu. apply filter_In in Hu.
      rewrite Forall_forall in E. apply E. tauto. }
    destruct (firstHeading _); inversion H; subst; simpl; auto.
Qed.

(** X7. A crawl that starts from the initial url stays on the site: every
    url it queues, takes or gives to [requests.get] is the initial url
    or the url of the wiki followed by a path that starts with [/wiki/]
    and has no colon. *)
Theorem cold_crawl_stays_on_site (self : Params) (fs : Files)
    (events : list Event) (c : Crawl) :
  __iter__ self fs = Some (Restart.cold self) ->
  run self (start self fs) events = Some c ->
  Forall (on_site self) (requests_sent c)
  /\ Forall (on_site self) (visited_links (shared c))
  /\ Forall (on_site self) (links_to_visit (shared c)).
Proof.
  intros Hcold Hrun.
  assert (all_on_site self c) as (Hl & Hv & Hr & _).
  { assert (all_on_site self (start self fs)) as H0.
    { unfold all_on_site, start. rewrite Hcold. simpl.
      repeat split; auto.
      - constructor; [left; reflexivity|constructor].
      - apply Forall_forall. intros w Hw. apply repeat_spec in Hw.
        subst w. discriminate. }
    revert H0 Hrun. generalize (start self fs).
    induction events as [|e events IH]; intros c0 H0 Hrun; simpl in Hrun.
    - inversion Hrun; subst; assumption.
    - destruct (step self c0 e) as [c1|] eqn:Hs; [|discriminate].
      apply (IH c1); [|assumption]. eapply step_on_site; eassumption. }
  auto.
Qed.

Lemma cold_crawl_stays_on_site_witness :
  Forall (on_site (scraper 2))
         (requests_sent (Outcome.after 2 crawl_two_links)).
Proof.
  refine (proj1 (@cold_crawl_stays_on_site (scraper 2) no_files
                   crawl_two_links _ _ _)); vm_compute; reflexivity.
Defined.

Lemma over_step self (c c' : Crawl) (e : Event) :
  over c -> step self c e = Some c' ->
  over c' /\ shared c' = shared c /\ requests_sent c' = requests_sent c.
Proof.
  unfold over, step. intros (Hc & Hl & Hd & Hr & Hk) H.
  assert (forall i w, nth_error (page_download_jobs c) i = Some w ->
            w = Killed) as Hj
    by (intros i w Hn; eapply (Forall_nth_error (P := fun w => w = Killed));
        eassumption).
  destruct e as [i|i o|i| |].
  - destruct (nth_error _ i) as [w|] eqn:Hn; [|discriminate].
    rewrite (Hj _ _ Hn) in H. discriminate.
  - destruct (nth_error _ i) as [w|] eqn:Hn; [|discriminate].
    rewrite (Hj _ _ Hn) in H. discriminate.
  - destruct (nth_error _ i) as [w|] eqn:Hn; [|discriminate].
    rewrite (Hj _ _ Hn) in H. discriminate.
  - rewrite Hc in H.
    rewrite (@next_locked_drained (shared c) Hl Hd Hr) in H.
    inversion H; subst; simpl. repeat split; auto.
    unfold kill_jobs. apply Forall_forall. intros w Hw.
    apply in_map_iff in Hw. destruct Hw as (? & <- & _). reflexivity.
  - rewrite Hc in H. discriminate.
Qed.

(** X8. [StopIteration] ends the crawl: the call that raises it kills the
    workers, and from then on nothing is requested and the shared
    objects stay empty, whatever is tried. *)
Theorem stop_is_final (self : Params) (c stopped c' : Crawl)
    (events : list Event) :
  step self c NextLocked = Some stopped ->
  consumer stopped = Stopped ->
  run self stopped events = Some c' ->
  shared c' = shared stopped
  /\ requests_sent c' = requests_sent c
  /\ consumer c' = Stopped
  /\ links_to_visit (shared c') = []
  /\ currently_downloading (shared c') = []
  /\ downloaded_responses (shared c') = []
  /\ Forall (fun w => w = Killed) (page_download_jobs c').
Proof.
  intros Hs Hc Hrun.
  assert (over stopped /\ requests_sent stopped = requests_sent c)
    as [Hover Hreq].
  { unfold step in Hs. unfold over.
    destruct (consumer c); try discriminate;
      destruct (next_locked (shared c)) as [[| |url response] sh] eqn:Hl;
      inversion Hs; subst; simpl in *; try discriminate;
      apply next_locked_drained_inv in Hl;
      destruct Hl as (-> & E1 & E2 & E3);
      repeat split; auto;
      unfold kill_jobs; apply Forall_forall; intros w Hw;
      apply in_map_iff in Hw; destruct Hw as (? & <- & _); reflexivity. }
  assert (over c' /\ shared c' = shared stopped
          /\ requests_sent c' = requests_sent stopped) as (O & S1 & R1).
  { clear Hs Hc Hreq. revert stopped Hover Hrun.
    induction events as [|e events IH]; intros c0 H0 Hrun; simpl in Hrun.
    - inversion Hrun; subst; auto.
    - destruct (step self c0 e) as [c1|] eqn:Hs; [|discriminate].
      destruct (@over_step self _ _ _ H0 Hs) as (O1 & S1 & R1).
      destruct (IH c1 O1 Hrun) as (O & S2 & R2).
      split; [exact O|split; congruence]. }
  destruct O as (Oc & Ol & Od & Or & Ok).
  repeat split; auto. congruence.
Qed.

Lemma stop_is_final_witness :
  requests_sent
    (Outcome.after 1 (to_the_end ++ [NextLocked; NextLocked]))
  = requests_sent
      (Outcome.after 1 (fetch 0 article ++ [NextLocked; NextUnlocked])).
Proof.
  refine (proj1 (proj2 (@stop_is_final (scraper 1)
            (Outcome.after 1 (fetch 0 article ++ [NextLocked; NextUnlocked]))
            (Outcome.after 1 to_the_end) _ [NextLocked; NextLocked]
            _ _ _))); vm_compute; reflexivity.
Defined.

End OnSite.

(** * The progress log over time *)

Section LogTurns.

Import WikipediaScraper Restart Logging.

Local Open Scope Z_scope.

Lemma progress_files_paths (dir : str) :
  map (os_path_join dir) PROGRESS_FILES = [progress1 dir; progress2 dir].
Proof. reflexivity. Qed.

(** A turn writes one of the two files and leaves every other file as
    it is; the next turn writes the other one. *)
Lemma turn_writes_one_file (dir : str) (id : nat) (now : Z) (sh : Shared)
    (fs : Files) :
  (id < 2)%nat ->
  let path := nth id [progress1 dir; progress2 dir] [] in
  fst (progress_log_worker dir id now sh fs) path = Pickled (snapshot now sh)
  /\ (forall other, other <> path ->
        fst (progress_log_worker dir id now sh fs) other = fs other)
  /\ snd (progress_log_worker dir id now sh fs) = (1 - id)%nat.
Proof.
  intros Hid. unfold progress_log_worker. rewrite progress_files_paths.
  cbn [fst snd length]. split; [apply write_file_same|]. split.
  - intros other Hne. apply write_file_other. assumption.
  - destruct id as [|[|n]]; [reflexivity|reflexivity|lia].
Qed.

Lemma newest_file_loads (self : Params) (dir : str) (fs : Files) (id : nat)
    (p : Progress) :
  log_dir self = Some dir ->
  (id < 2)%nat ->
  fs (nth id [progress1 dir; progress2 dir] []) = Pickled p ->
  fs (nth (1 - id) [progress1 dir; progress2 dir] []) <> Cut ->
  (forall q, fs (nth (1 - id) [progress1 dir; progress2 dir] []) = Pickled q ->
             timestamp q < timestamp p) ->
  loads self fs p.
Proof.
  intros Hdir Hid Hp Hcut Hq.
  pose proof (@loads_from_two_files self dir fs Hdir) as L.
  destruct id as [|[|n]]; [| |lia]; simpl in Hp, Hq, Hcut.
  - rewrite Hp in L.
    destruct (fs (progress2 dir)) as [| | |q]; try exact L; [congruence|].
    apply (proj2 L). apply Hq. reflexivity.
  - rewrite Hp in L.
    destruct (fs (progress1 dir)) as [| | |q]; try exact L; [congruence|].
    apply (proj1 L). apply Hq. reflexivity.
Qed.

(** Files from which a crawl has started hold no cut dump. *)
Lemma started_none_cut (self : Params) (dir : str) (fs : Files) (id : nat) :
  log_dir self = Some dir ->
  __iter__ self fs <> None ->
  (id < 2)%nat ->
  fs (nth id [progress1 dir; progress2 dir] []) <> Cut.
Proof.
  intros Hdir Hi Hid Hcut. apply Hi.
  apply (@cut_file_raises self dir fs Hdir).
  destruct id as [|[|n]]; [left|right|lia]; exact Hcut.
Qed.

Lemma turn_keeps_none_cut (dir : str) (id : nat) (now : Z) (sh : Shared)
    (fs : Files) :
  (id < 2)%nat ->
  (forall k, (k < 2)%nat ->
             fs (nth k [progress1 dir; progress2 dir] []) <> Cut) ->
  forall k, (k < 2)%nat ->
            fst (progress_log_worker dir id now sh fs)
                (nth k [progress1 dir; progress2 dir] []) <> Cut.
Proof.
  intros Hid Hnone k Hk.
  destruct (@turn_writes_one_file dir id now sh fs Hid) as (Hw & Ho & _).
  destruct (str_eq_dec (nth k [progress1 dir; progress2 dir] [])
                       (nth id [progress1 dir; progress2 dir] [])) as [E|N].
  - rewrite E, Hw. discriminate.
  - rewrite (Ho _ N). apply Hnone. assumption.
Qed.

Lemma files_not_newer_slot (dir : str) (fs : Files) (bound : Z) (id : nat)
    (q : Progress) :
  files_not_newer dir fs bound -> (id < 2)%nat ->
  fs (nth id [progress1 dir; progress2 dir] []) = Pickled q ->
  timestamp q <= bound.
Proof.
  intros Hold Hid Hq. destruct id as [|[|n]]; [| |lia]; simpl in Hq.
  - apply (Hold (lit "progress1") q); [left; reflexivity|exact Hq].
  - apply (Hold (lit "progress2") q); [right; left; reflexivity|exact Hq].
Qed.

Lemma other_file_differs (dir : str) (id : nat) :
  (id < 2)%nat ->
  nth (1 - id) [progress1 dir; progress2 dir] []
  <> nth id [progress1 dir; progress2 dir] [].
Proof.
  intros Hid. destruct id as [|[|n]]; [| |lia]; simpl;
    [apply not_eq_sym|]; apply progress_files_differ.
Qed.

Lemma turn_keeps_not_newer (dir : str) (id : nat) (bound now : Z)
    (sh : Shared) (fs : Files) :
  (id < 2)%nat -> files_not_newer dir fs bound -> bound < now ->
  files_not_newer dir (fst (progress_log_worker dir id now sh fs)) now.
Proof.
  intros Hid Hold Hlt name p Hname Hp.
  destruct (@turn_writes_one_file dir id now sh fs Hid) as (Hw & Ho & _).
  destruct (str_eq_dec (os_path_join dir name)
                       (nth id [progress1 dir; progress2 dir] [])) as [E|N].
  - rewrite E, Hw in Hp. inversion Hp; subst p. simpl. lia.
  - rewrite (Ho _ N) in Hp. specialize (Hold name p Hname Hp). lia.
Qed.

Lemma turns_restore_last (self : Params) (dir : str)
    (turns : list (Z * Shared)) (now : Z) (sh : Shared) :
  log_dir self = Some dir ->
  forall (id : nat) (bound : Z) (fs : Files),
    (id < 2)%nat ->
    (forall k, (k < 2)%nat ->
               fs (nth k [progress1 dir; progress2 dir] []) <> Cut) ->
    files_not_newer dir fs bound ->
    clock_grows bound (turns ++ [(now, sh)]) ->
    loads self (fst (progress_log_turns dir id (turns ++ [(now, sh)]) fs))
          (snapshot now sh)
    /\ snd (progress_log_turns dir id (turns ++ [(now, sh)]) fs)
       = ((id + length turns + 1) mod 2)%nat.
Proof.
  intros Hdir.
  induction turns as [|[t s] turns IH];
    intros id bound fs Hid Hnone Hold Hclock.
  - simpl in Hclock. destruct Hclock as [Hlt _]. cbn [app progress_log_turns].
    destruct (@turn_writes_one_file dir id now sh fs Hid) as (Hw & Ho & Hn).
    destruct (progress_log_worker dir id now sh fs) as [fs' id'] eqn:E.
    cbn [fst snd] in *.
    assert (1 - id < 2)%nat as Hid' by lia. split.
    + apply (@newest_file_loads self dir fs' id (snapshot now sh) Hdir Hid Hw).
      * rewrite (Ho _ (other_file_differs dir Hid)). apply Hnone, Hid'.
      * intros q Hq. simpl.
        rewrite (Ho _ (other_file_differs dir Hid)) in Hq.
        pose proof (files_not_newer_slot Hold Hid' Hq). lia.
    + subst id'. destruct id as [|[|n]]; [reflexivity|reflexivity|lia].
  - simpl in Hclock. destruct Hclock as [Hlt Hclock].
    cbn [app progress_log_turns].
    pose proof (@turn_keeps_not_newer dir id bound t s fs Hid Hold Hlt)
      as Hold'.
    pose proof (@turn_keeps_none_cut dir id t s fs Hid Hnone) as Hnone'.
    destruct (@turn_writes_one_file dir id t s fs Hid) as (_ & _ & Hn).
    destruct (progress_log_worker dir id t s fs) as [fs' id'] eqn:E.
    cbn [fst snd] in *.
    assert (id' < 2)%nat as Hid' by lia.
    destruct (IH id' t fs' Hid' Hnone' Hold' Hclock) as [L N].
    split; [exact L|]. rewrite N. subst id'. cbn [length].
    destruct id as [|[|n]]; [| |lia].
    + replace (1 - 0 + length turns + 1)%nat
        with (0 + S (length turns) + 1)%nat by lia. reflexivity.
    + replace (1 - 1 + length turns + 1)%nat
        with (length turns + 1)%nat by lia.
      replace (1 + S (length turns) + 1)%nat
        with (length turns + 1 + 1 * 2)%nat by lia.
      rewrite Nat.Div0.mod_add. reflexivity.
Qed.

(** X9. The log worker at work, in a crawl that has started from the
    files of the directory: with a clock that grows from turn to turn
    and no newer dictionary in the directory at the start, whatever
    the number of turns, a crawl that starts afterwards restores the
    snapshot of the last turn; the two files are written in turn. *)
Theorem last_turn_is_restored (self : Params) (dir : str) (fs : Files)
    (id : nat) (bound : Z) (turns : list (Z * Shared)) (now : Z)
    (sh : Shared) :
  log_dir self = Some dir ->
  __iter__ self fs <> None ->
  (id < 2)%nat ->
  files_not_newer dir fs bound ->
  clock_grows bound (turns ++ [(now, sh)]) ->
  loads self (fst (progress_log_turns dir id (turns ++ [(now, sh)]) fs))
        (snapshot now sh)
  /\ snd (progress_log_turns dir id (turns ++ [(now, sh)]) fs)
     = ((id + length turns + 1) mod 2)%nat.
Proof.
  intros Hdir Hstarted Hid Hold Hclock.
  apply (@turns_restore_last self dir turns now sh Hdir id bound fs);
    try assumption.
  intros k Hk. apply (@started_none_cut self dir fs k); assumption.
Qed.

Lemma last_turn_is_restored_witness :
  loads logging_scraper
        (fst (progress_log_turns (lit "log/en/scraper_logs") 0 three_turns
                                 two_files))
        (snapshot 120 (cold (Scenario.scraper 1))).
Proof.
  refine (proj1 (@last_turn_is_restored logging_scraper
                   (lit "log/en/scraper_logs") two_files 0%nat 20
                   [(100, cleared); (110, busy)] 120
                   (cold (Scenario.scraper 1)) eq_refl _ _ _ _)).
  - vm_compute. discriminate.
  - lia.
  - intros name p Hname Hp. simpl in Hname.
    destruct Hname as [<-|[<-|[]]]; vm_compute in Hp; inversion Hp; subst;
      vm_compute; discriminate.
  - simpl. lia.
Defined.

(** X10. A turn that is killed while it writes costs one snapshot at most:
    the file it had opened is empty, the other file still has the
    snapshot of the turn before, and that one is restored. *)
Theorem killed_turn_keeps_last_snapshot (self : Params) (dir : str)
    (fs : Files) (id : nat) (now : Z) (sh : Shared) :
  log_dir self = Some dir ->
  (id < 2)%nat ->
  loads self
        (progress_log_worker_killed dir
           (snd (progress_log_worker dir id now sh fs))
           (fst (progress_log_worker dir id now sh fs)))
        (snapshot now sh).
Proof.
  intros Hdir Hid.
  destruct (@turn_writes_one_file dir id now sh fs Hid) as (Hw & _ & Hn).
  rewrite Hn. unfold progress_log_worker_killed.
  rewrite progress_files_paths.
  assert (1 - id < 2)%nat as Hid' by lia.
  apply (@newest_file_loads self dir _ id (snapshot now sh) Hdir Hid).
  - rewrite write_file_other; [exact Hw|].
    apply not_eq_sym, other_file_differs. assumption.
  - rewrite write_file_same. discriminate.
  - intros q Hq. rewrite write_file_same in Hq. discriminate.
Qed.

Lemma killed_turn_keeps_last_snapshot_witness :
  loads logging_scraper
        (progress_log_worker_killed (lit "log/en/scraper_logs") 0
           (fst (progress_log_worker (lit "log/en/scraper_logs") 1 30 busy
                                     two_files)))
        (snapshot 30 busy).
Proof.
  refine (@killed_turn_keeps_last_snapshot logging_scraper
            (lit "log/en/scraper_logs") two_files 1%nat 30 busy eq_refl _).
  lia.
Defined.

(** X11. Two dictionaries with the same timestamp: the sort is stable, and
    the one of [progress1] is restored; so is any dictionary of
    [progress1] that is not older than the one of [progress2]. *)
Theorem equal_timestamps_restore_first (self : Params) (dir : str)
    (fs : Files) (p1 p2 : Progress) :
  log_dir self = Some dir ->
  fs (progress1 dir) = Pickled p1 ->
  fs (progress2 dir) = Pickled p2 ->
  timestamp p2 <= timestamp p1 ->
  loads self fs p1.
Proof.
  intros Hdir H1 H2 Hle. unfold loads, __iter__. rewrite Hdir.
  rewrite (@load_progress_file_loaded self dir fs cleared Hdir).
  rewrite progress_files_paths. cbn [load_all]. rewrite H1, H2.
  cbn [sorted_newest_first fold_right insert_newest_first].
  apply Z.leb_le in Hle. rewrite Hle. split; reflexivity.
Qed.

Lemma equal_timestamps_restore_first_witness :
  loads logging_scraper
        (write_file two_files (progress2 (lit "log/en/scraper_logs"))
                    (Pickled (snapshot 20 busy)))
        newer.
Proof.
  refine (@equal_timestamps_restore_first logging_scraper
            (lit "log/en/scraper_logs") _ newer (snapshot 20 busy)
            eq_refl _ _ _); vm_compute; try reflexivity; discriminate.
Defined.

End LogTurns.

(** * What the finder does to a text *)

Section Normal.

Import re SentenceFinder Sentences Tidy.

Local Open Scope N_scope.

Lemma blank_removes (c d : char) (s : str) :
  d <> 32 -> (d = c \/ Forall (fun x => x <> d) s) ->
  Forall (fun x => x <> d) (map (blank c) s).
Proof.
  intros Hd H. induction s as [|x s IH]; simpl; constructor.
  - unfold blank. destruct (x =? c) eqn:E; [congruence|].
    apply N.eqb_neq in E. destruct H as [->|F]; [assumption|].
    inversion F; assumption.
  - apply IH. destruct H as [->|F]; [left; reflexivity|].
    right. inversion F; assumption.
Qed.

Lemma blank_same (c : char) (s : str) :
  Forall (fun x => x <> c) s -> map (blank c) s = s.
Proof.
  induction 1 as [|x s Hx F IH]; simpl; [reflexivity|].
  unfold blank at 1. apply N.eqb_neq in Hx. rewrite Hx, IH. reflexivity.
Qed.

Lemma lstrip_starts_plain (s : str) : starts_plain (lstrip s).
Proof.
  induction s as [|c s IH]; simpl; [exact I|].
  destruct (isspace c) eqn:E; [assumption|]. simpl. assumption.
Qed.

Lemma lstrip_same (s : str) : starts_plain s -> lstrip s = s.
Proof. destruct s as [|c s]; simpl; [reflexivity|]. intros ->. reflexivity. Qed.

Lemma lstrip_suffix (s : str) : exists dropped, s = dropped ++ lstrip s.
Proof.
  induction s as [|c s [d IH]]; [exists []; reflexivity|]. simpl.
  destruct (isspace c).
  - exists (c :: d). simpl. f_equal. exact IH.
  - exists []. reflexivity.
Qed.

Lemma starts_plain_prefix (s t : str) :
  starts_plain (s ++ t) -> s <> [] -> starts_plain s.
Proof. destruct s; simpl; auto. Qed.

(** [strip] leaves white space at neither end. *)
Lemma strip_plain (s : str) :
  starts_plain (strip s) /\ starts_plain (rev (strip s)).
Proof.
  unfold strip. rewrite rev_involutive. split.
  - destruct (lstrip_suffix (rev (lstrip s))) as [d E].
    set (t := lstrip (rev (lstrip s))) in *.
    destruct t as [|c t'] eqn:Et; [exact I|].
    assert (lstrip s = rev (c :: t') ++ rev d) as E'.
    { rewrite <- rev_app_distr, <- E, rev_involutive. reflexivity. }
    apply starts_plain_prefix with (t := rev d).
    + rewrite <- E'. apply lstrip_starts_plain.
    + simpl. intros H. apply app_eq_nil in H. destruct H; discriminate.
  - apply lstrip_starts_plain.
Qed.

Lemma strip_same (s : str) :
  starts_plain s -> starts_plain (rev s) -> strip s = s.
Proof.
  intros H1 H2. unfold strip.
  rewrite (lstrip_same _ H1), (lstrip_same _ H2). apply rev_involutive.
Qed.

Lemma squeeze_single_spaced (b : bool) (s : str) :
  single_spaced b (squeeze b s).
Proof.
  revert b. induction s as [|c s IH]; intros b; simpl; [exact I|].
  destruct (c =? 32) eqn:E.
  - destruct b; [apply IH|]. simpl. split; [reflexivity|apply IH].
  - simpl. rewrite E. apply IH.
Qed.

Lemma squeeze_same (b : bool) (s : str) :
  single_spaced b s -> squeeze b s = s.
Proof.
  revert b. induction s as [|c s IH]; intros b; simpl; [reflexivity|].
  destruct (c =? 32) eqn:E.
  - intros [-> H]. rewrite (IH true H). apply N.eqb_eq in E.
    rewrite E. reflexivity.
  - intros H. rewrite (IH false H). reflexivity.
Qed.

Lemma space_is_white : isspace 32 = true.
Proof. reflexivity. Qed.

Lemma plain_not_space (c : char) : isspace c = false -> (c =? 32) = false.
Proof.
  intros H. destruct (c =? 32) eqn:E; [|reflexivity].
  apply N.eqb_eq in E. subst. discriminate.
Qed.

Lemma squeeze_starts_plain (s : str) :
  starts_plain s -> starts_plain (squeeze false s).
Proof.
  destruct s as [|c s]; simpl; [auto|]. intros H.
  rewrite (plain_not_space _ H). simpl. assumption.
Qed.

Lemma squeeze_ends_plain (s : str) :
  starts_plain (rev s) -> starts_plain (rev (squeeze false s)).
Proof.
  intros H. destruct (rev s) as [|c r] eqn:E.
  - apply (f_equal (@rev char)) in E. rewrite rev_involutive in E.
    subst s. exact I.
  - apply (f_equal (@rev char)) in E. rewrite rev_involutive in E.
    simpl in E. subst s. simpl in H.
    rewrite squeeze_before by (apply plain_not_space; assumption).
    simpl. rewrite rev_app_distr. simpl. assumption.
Qed.

Lemma normalize_no_break (content_text : str) :
  Forall no_break (normalize content_text).
Proof.
  rewrite normalize_unfolded.
  set (t := map (blank 9) (map (blank 13) (map (blank 10) content_text))).
  assert (Forall no_break t) as Ft.
  { assert (Forall (fun x => x <> 10) t) as F10.
    { apply blank_removes; [discriminate|right].
      apply blank_removes; [discriminate|right].
      apply blank_removes; [discriminate|left; reflexivity]. }
    assert (Forall (fun x => x <> 13) t) as F13.
    { apply blank_removes; [discriminate|right].
      apply blank_removes; [discriminate|left; reflexivity]. }
    assert (Forall (fun x => x <> 9) t) as F9
      by (apply blank_removes; [discriminate|left; reflexivity]).
    rewrite Forall_forall in *. intros x Hx. unfold no_break. auto. }
  apply squeeze_forall. unfold strip.
  apply rev_forall, lstrip_forall, rev_forall, lstrip_forall. exact Ft.
Qed.

(** X12. The text the sentences are looked for in: no newline, carriage
    return or tab, no white space at either end, no two spaces in a
    row; and a text like that is left as it is. *)
Theorem normalize_tidies (content_text : str) :
  Forall no_break (normalize content_text)
  /\ starts_plain (normalize content_text)
  /\ starts_plain (rev (normalize content_text))
  /\ single_spaced false (normalize content_text)
  /\ normalize (normalize content_text) = normalize content_text.
Proof.
  assert (forall t,
             Forall no_break t -> starts_plain t -> starts_plain (rev t) ->
             single_spaced false t -> normalize t = t) as Hsame.
  { intros t F S1 S2 S3. rewrite normalize_unfolded.
    assert (forall d, In d [10; 13; 9] -> Forall (fun x => x <> d) t) as Hd.
    { intros d Hin. eapply Forall_impl; [|exact F].
      intros x (H1 & H2 & H3). simpl in Hin.
      destruct Hin as [<-|[<-|[<-|[]]]]; assumption. }
    rewrite (blank_same (Hd 10 (or_introl eq_refl))).
    rewrite (blank_same (Hd 13 (or_intror (or_introl eq_refl)))).
    rewrite (blank_same (Hd 9 (or_intror (or_intror (or_introl eq_refl))))).
    rewrite (strip_same _ S1 S2). apply squeeze_same. assumption. }
  assert (Forall no_break (normalize content_text)) as F
    by apply normalize_no_break.
  assert (starts_plain (normalize content_text)
          /\ starts_plain (rev (normalize content_text))) as [S1 S2].
  { rewrite normalize_unfolded.
    destruct (strip_plain (map (blank 9) (map (blank 13)
                                (map (blank 10) content_text)))) as [P1 P2].
    split; [apply squeeze_starts_plain|apply squeeze_ends_plain]; assumption. }
  assert (single_spaced false (normalize content_text)) as S3
    by (rewrite normalize_unfolded; apply squeeze_single_spaced).
  repeat split; try assumption. apply Hsame; assumption.
Qed.

Lemma repeat_then_total (body : (str -> option str) -> str -> option str)
    (n : nat) (s : str) :
  repeat_then body Some n s <> None.
Proof.
  destruct n; simpl; [discriminate|].
  destruct (body _ s); discriminate.
Qed.

(** X13. An unknown language has the pattern [.*], which every candidate
    matches: all the candidates are kept. *)
Theorem unknown_language_keeps_all (language content_text : str) :
  language <> lit "en" -> language <> lit "sr" ->
  matching_sentences (sentence_matcher language) content_text
  = candidates (normalize content_text).
Proof.
  intros Hen Hsr. unfold matching_sentences, sentence_matcher, str_eqb.
  destruct (str_eq_dec language (lit "en")); [congruence|].
  destruct (str_eq_dec language (lit "sr")); [congruence|].
  induction (candidates (normalize content_text)) as [|c l IH];
    [reflexivity|].
  simpl filter.
  assert (search true (Star Dot) c = true) as ->.
  { destruct c as [|x c]; unfold search, match_at; cbn [exec];
      destruct (repeat_then _ Some _ _) eqn:E; try reflexivity;
      exfalso; exact (repeat_then_total _ _ _ E). }
  rewrite IH. reflexivity.
Qed.

Lemma unknown_language_keeps_all_witness :
  matching_sentences (sentence_matcher (lit "de"))
                     (lit "Der Himmel ist blau. Es regnet!")
  = candidates (normalize (lit "Der Himmel ist blau. Es regnet!")).
Proof.
  refine (@unknown_language_keeps_all (lit "de") _ _ _); discriminate.
Defined.

End Normal.

(** * The meaning of the matchers *)

Section Complete.

Import re.

Variable i : bool.

Lemma repeat_then_skip (body : (str -> option str) -> str -> option str)
    (k : str -> option str) (n : nat) (s : str) :
  k s <> None -> repeat_then body k n s <> None.
Proof.
  intros K. destruct n; simpl; [assumption|].
  destruct (body _ s); [discriminate|assumption].
Qed.

(** [exec] finds every string of the language of the pattern. *)
Lemma lang_complete (r : regex) (m : str) :
  Lang i r m ->
  (forall k s', k s' <> None -> exec i r k (m ++ s') <> None)
  /\ (forall r1, r = Star r1 ->
      forall n k s', (length (m ++ s') <= n)%nat -> k s' <> None ->
                     repeat_then (exec i r1) k n (m ++ s') <> None).
Proof.
  induction 1 as [c x Hx|x Hx|neg rs x Hx|r1 r2 m1 m2 L1 [IH1 _] L2 [IH2 _]
                  |r1 r2 m L [IH _]|r1 r2 m L [IH _]|r
                  |r m1 m2 L1 [IH1 _] L2 [_ IH2]|r m L [IH _]].
  - split; [|discriminate]. intros k s' K. simpl. rewrite Hx. assumption.
  - split; [|discriminate]. intros k s' K. simpl. rewrite Hx. assumption.
  - split; [|discriminate]. intros k s' K. simpl. rewrite Hx. assumption.
  - split; [|discriminate]. intros k s' K. simpl. rewrite <- app_assoc.
    apply IH1, IH2, K.
  - split; [|discriminate]. intros k s' K. simpl.
    destruct (exec i r1 k (m ++ s')) eqn:E; [discriminate|].
    exfalso. exact (IH k s' K E).
  - split; [|discriminate]. intros k s' K. simpl.
    destruct (exec i r1 k (m ++ s')); [discriminate|]. apply IH, K.
  - split.
    + intros k s' K. simpl. apply repeat_then_skip, K.
    + intros r1 _ n k s' _ K. apply repeat_then_skip, K.
  - assert (forall n k s', (length ((m1 ++ m2) ++ s') <= n)%nat ->
                           k s' <> None ->
                           repeat_then (exec i r) k n ((m1 ++ m2) ++ s')
                           <> None) as G.
    { intros n k s' Hn K. destruct m1 as [|c m1].
      - apply (IH2 r eq_refl); assumption.
      - destruct n as [|n]; [simpl in Hn; lia|].
        cbn [repeat_then].
        destruct (exec i r _ (((c :: m1) ++ m2) ++ s')) eqn:E;
          [discriminate|].
        exfalso. rewrite <- app_assoc in E. revert E. apply IH1.
        assert ((length (m2 ++ s')
                 <? length ((c :: m1) ++ m2 ++ s'))%nat = true) as ->.
        { apply Nat.ltb_lt. rewrite (length_app (c :: m1)). simpl. lia. }
        apply (IH2 r eq_refl); [|assumption].
        rewrite <- app_assoc, (length_app (c :: m1)) in Hn. simpl in Hn.
        lia. }
    split.
    + intros k s' K. simpl. apply G; [apply Nat.le_refl|assumption].
    + intros r1 E. inversion E; subst r1. exact G.
  - split; [|discriminate]. intros k s' K. simpl. apply IH, K.
Qed.

Lemma search_complete (r : regex) (before m rest : str) :
  Lang i r m -> search i r (before ++ m ++ rest) = true.
Proof.
  intros L. apply search_later. unfold match_at.
  destruct (exec i r Some (m ++ rest)) eqn:E; [discriminate|].
  exfalso. revert E. apply (proj1 (lang_complete L)). discriminate.
Qed.

(** [re.search] finds a pattern in a string when some part of the
    string is in the language of the pattern, and only then. *)
Lemma search_language (r : regex) (s : str) :
  search i r s = true
  <-> exists before m rest, s = before ++ m ++ rest /\ Lang i r m.
Proof.
  split; [apply search_sound|].
  intros (before & m & rest & -> & L). apply search_complete, L.
Qed.

End Complete.

Section Meaning.

Import re SentenceFinder Wording.

Local Open Scope N_scope.

Lemma lang_chr (c : char) (v : str) :
  Lang true (Chr c) v <-> exists x, v = [x] /\ chr_matches true c x = true.
Proof.
  split.
  - intros L. inversion L; subst. eauto.
  - intros (x & -> & H). constructor. assumption.
Qed.

Lemma lang_word (w v : str) :
  w <> [] -> (Lang true (word w) v <-> spelled w v).
Proof.
  revert v. induction w as [|c w IH]; intros v Hw; [congruence|].
  destruct w as [|c' w].
  - simpl. rewrite lang_chr. split.
    + intros (x & -> & H). repeat constructor. assumption.
    + intros S. inversion S as [|? x ? l Hx Hl]; subst. inversion Hl; subst.
      eauto.
  - change (word (c :: c' :: w)) with (Cat (Chr c) (word (c' :: w))). split.
    + intros L. inversion L as [| | |? ? m1 m2 L1 L2| | | | |]; subst.
      apply lang_chr in L1. destruct L1 as (x & -> & Hx).
      constructor; [assumption|]. apply IH; [discriminate|assumption].
    + intros S. inversion S as [|? x ? l Hx Hl]; subst.
      apply (LangCat (m1 := [x])).
      * constructor. assumption.
      * apply IH; [discriminate|assumption].
Qed.

Lemma lang_dots (y : str) :
  Lang true (Star Dot) y <-> Forall (fun x => x <> 10) y.
Proof.
  split.
  - intros L. remember (Star Dot) as r eqn:E.
    induction L as [| | | | | |r|r m1 m2 L1 _ L2 IH2|]; try discriminate.
    + constructor.
    + inversion E; subst r. apply Forall_app. split; [|auto].
      inversion L1; subst. constructor; [|constructor].
      apply N.eqb_neq. assumption.
  - induction 1 as [|x y Hx F IH]; [constructor|].
    apply (LangStarCons (m1 := [x])); [|assumption].
    constructor. apply N.eqb_neq. assumption.
Qed.

Lemma lang_alt (r1 r2 : regex) (v : str) :
  Lang true (Alt r1 r2) v <-> Lang true r1 v \/ Lang true r2 v.
Proof.
  split.
  - intros L. inversion L; subst; auto.
  - intros [L|L]; [apply LangAltL|apply LangAltR]; assumption.
Qed.

Lemma lang_group (r : regex) (v : str) :
  Lang true (Group r) v <-> Lang true r v.
Proof.
  split.
  - intros L. inversion L; subst; auto.
  - intros L. constructor. assumption.
Qed.

Lemma lang_cat (r1 r2 : regex) (v : str) :
  Lang true (Cat r1 r2) v
  <-> exists m1 m2, v = m1 ++ m2 /\ Lang true r1 m1 /\ Lang true r2 m2.
Proof.
  split.
  - intros L. inversion L; subst; eauto.
  - intros (m1 & m2 & -> & L1 & L2). constructor; assumption.
Qed.

Lemma lang_space (v : str) : Lang true (Chr 32) v <-> v = [32].
Proof.
  rewrite lang_chr. split.
  - intros (x & -> & H). unfold chr_matches in H. simpl in H.
    rewrite orb_false_r in H. apply N.eqb_eq in H. subst. reflexivity.
  - intros ->. exists 32. auto.
Qed.

(** The shape shared by the two patterns. *)
Lemma verb_dots_day (verb day : regex) (verbs days : list str) :
  (forall v, Lang true verb v <-> Exists (fun w => spelled w v) verbs) ->
  (forall d, Lang true day d <-> Exists (fun w => spelled w d) days) ->
  forall sentence,
    search true (Cat (Group verb)
                     (Cat (Star Dot) (Cat (Chr 32) (Group day)))) sentence
    = true
    <-> verb_then_day verbs days sentence.
Proof.
  intros Hv Hd sentence. rewrite search_language. unfold verb_then_day. split.
  - intros (before & m & rest & -> & L).
    apply lang_cat in L. destruct L as (v & m1 & -> & Lv & L).
    apply lang_cat in L. destruct L as (y & m2 & -> & Ly & L).
    apply lang_cat in L. destruct L as (sp & d & -> & Ls & Ld).
    apply lang_space in Ls. subst sp.
    exists before, v, y, d, rest. repeat split.
    + rewrite <- !app_assoc. reflexivity.
    + apply Hv, lang_group, Lv.
    + apply lang_dots, Ly.
    + apply Hd, lang_group, Ld.
  - intros (before & v & y & d & rest & -> & Ev & Fy & Ed).
    exists before, (v ++ y ++ [32] ++ d), rest. split.
    + rewrite <- !app_assoc. reflexivity.
    + apply lang_cat. exists v, (y ++ [32] ++ d). split; [reflexivity|].
      split; [apply lang_group, Hv, Ev|].
      apply lang_cat. exists y, ([32] ++ d). split; [reflexivity|].
      split; [apply lang_dots, Fy|].
      apply lang_cat. exists [32], d. split; [reflexivity|].
      split; [apply lang_space; reflexivity|apply lang_group, Hd, Ed].
Qed.

Lemma search_en (sentence : str) :
  search true matcher_en sentence = true
  <-> verb_then_day verbs_en days_en sentence.
Proof.
  unfold matcher_en. apply verb_dots_day.
  - intros v. unfold verbs_en.
    rewrite lang_alt, lang_alt, !Exists_cons, Exists_nil.
    rewrite !lang_word by discriminate. tauto.
  - intros d. unfold days_en. rewrite Exists_cons, Exists_nil.
    rewrite lang_word by discriminate. tauto.
Qed.

Lemma search_sr (sentence : str) :
  search true matcher_sr sentence = true
  <-> verb_then_day verbs_sr days_sr sentence.
Proof.
  unfold matcher_sr. apply verb_dots_day.
  - intros v. unfold verbs_sr. rewrite lang_alt, !Exists_cons, Exists_nil.
    rewrite !lang_word by discriminate. tauto.
  - intros d. unfold days_sr. rewrite lang_alt, !Exists_cons, Exists_nil.
    rewrite !lang_word by discriminate. tauto.
Qed.

(** X14. For English, a candidate sentence is kept when it has [last],
    [took] or [take], in either case, and later on the same line a
    space followed by [day], and only then. *)
Theorem english_matcher_meaning (content_text sentence : str) :
  In sentence (matching_sentences (sentence_matcher (lit "en")) content_text)
  <-> In sentence (candidates (normalize content_text))
      /\ verb_then_day verbs_en days_en sentence.
Proof.
  change (sentence_matcher (lit "en")) with matcher_en.
  unfold matching_sentences. rewrite filter_In, search_en. reflexivity.
Qed.

(** X15. For Serbian, a candidate sentence is kept when it has [traja], in
    either script and either case, and later on the same line a space
    followed by [dan], and only then. *)
Theorem serbian_matcher_meaning (content_text sentence : str) :
  In sentence (matching_sentences (sentence_matcher (lit "sr")) content_text)
  <-> In sentence (candidates (normalize content_text))
      /\ verb_then_day verbs_sr days_sr sentence.
Proof.
  change (sentence_matcher (lit "sr")) with matcher_sr.
  unfold matching_sentences. rewrite filter_In, search_sr. reflexivity.
Qed.

End Meaning.

(** * What the finder keeps and what it drops *)

Section Filter.

Import re SentenceFinder Sentences Wording.

Local Open Scope N_scope.

(** A text without a letter A-Z has no candidate. *)
Lemma no_capital_no_candidate (text : str) :
  Forall (fun c => is_upper c = false) text -> candidates text = [].
Proof.
  induction 1 as [|c s Hc F IH]; [reflexivity|].
  rewrite candidates_step, Hc. exact IH.
Qed.

(** C7. The claim fails on the code for a text in another script than
    the Latin one. The class [[A-Z]] of line 96 has the 26 capital
    letters of ASCII and no other: a text without one of them has no
    candidate, so nothing of it is kept, whatever the matcher, also
    the Serbian one, whose pattern has Cyrillic words. A sentence that
    begins with a Cyrillic capital letter is no candidate. *)
Theorem no_latin_capital_no_candidate (sentence_matcher : regex)
    (content_text : str) :
  Forall (fun c => is_upper c = false) content_text ->
  candidates (normalize content_text) = []
  /\ matching_sentences sentence_matcher content_text = [].
Proof.
  intros F.
  assert (candidates (normalize content_text) = []) as E
    by (apply no_capital_no_candidate, normalize_forall;
        [reflexivity|assumption]).
  split; [assumption|]. unfold matching_sentences. rewrite E. reflexivity.
Qed.

Lemma no_latin_capital_no_candidate_witness :
  search true (sentence_matcher (lit "sr")) the_trip_sr = true
  /\ normalize the_trip_sr = the_trip_sr
  /\ candidates (normalize the_trip_sr) = []
  /\ matching_sentences (sentence_matcher (lit "sr")) the_trip_sr = [].
Proof.
  split; [vm_compute; reflexivity|]. split; [vm_compute; reflexivity|].
  refine (@no_latin_capital_no_candidate (sentence_matcher (lit "sr"))
                                         the_trip_sr _).
  repeat (apply Forall_cons; [reflexivity|]). apply Forall_nil.
Defined.

(** Pieces of the text that have no space in them are not touched by
    the five steps of [normalize]. *)
Lemma blank_plain (c : char) (s : str) :
  Forall (fun a => a <> 32) (map (blank c) s) -> map (blank c) s = s.
Proof.
  induction s as [|a s IH]; simpl; intros F; [reflexivity|].
  inversion F as [|? ? Ha Fs]; subst. rewrite (IH Fs). f_equal.
  unfold blank in *. destruct (a =? c); congruence.
Qed.

Lemma blank_piece (c : char) (s x v y : str) :
  map (blank c) s = x ++ v ++ y -> Forall (fun a => a <> 32) v ->
  exists x' y', s = x' ++ v ++ y'.
Proof.
  intros E F. apply map_eq_app in E. destruct E as (s1 & s23 & -> & _ & E).
  apply map_eq_app in E. destruct E as (s2 & s3 & -> & E2 & _).
  exists s1, s3. rewrite <- E2 in F |- *. rewrite (blank_plain _ _ F).
  reflexivity.
Qed.

Lemma strip_piece (s : str) : exists a b, s = a ++ strip s ++ b.
Proof.
  destruct (lstrip_suffix s) as [d E].
  destruct (lstrip_suffix (rev (lstrip s))) as [d' E'].
  exists d, (rev d'). unfold strip.
  rewrite <- rev_app_distr, <- E', rev_involutive. exact E.
Qed.

Lemma squeeze_prefix (v : str) :
  Forall (fun a => a <> 32) v ->
  forall s y, squeeze false s = v ++ y -> exists y', s = v ++ y'.
Proof.
  induction 1 as [|a v Ha F IH]; intros s y E; [exists s; reflexivity|].
  destruct s as [|c s]; [discriminate|]. simpl in E.
  destruct (c =? 32) eqn:Ec.
  - inversion E; subst. congruence.
  - inversion E as [[Hc E']]. destruct (IH _ _ E') as [y' ->].
    exists y'. reflexivity.
Qed.

Lemma squeeze_piece (v : str) :
  Forall (fun a => a <> 32) v ->
  forall s b x y,
    squeeze b s = x ++ v ++ y -> exists x' y', s = x' ++ v ++ y'.
Proof.
  intros F. induction s as [|c s IH]; intros b x y E.
  - simpl in E. symmetry in E. apply app_eq_nil in E. destruct E as [-> E].
    apply app_eq_nil in E. destruct E as [-> _]. exists [], []. reflexivity.
  - destruct v as [|a v]; [exists [], (c :: s); reflexivity|].
    inversion F as [|? ? Ha Fv]; subst.
    simpl in E. destruct (c =? 32) eqn:Ec.
    + apply N.eqb_eq in Ec. subst c. destruct b.
      * destruct (IH _ _ _ E) as (x' & y' & ->).
        exists (32 :: x'), y'. reflexivity.
      * destruct x as [|x0 x]; simpl in E; inversion E; subst;
          [congruence|].
        destruct (IH _ _ _ H1) as (x' & y' & ->).
        exists (32 :: x'), y'. reflexivity.
    + destruct x as [|x0 x]; simpl in E; inversion E; subst.
      * destruct (@squeeze_prefix v Fv _ _ H1) as [y' ->].
        exists [], y'. reflexivity.
      * destruct (IH _ _ _ H1) as (x' & y' & ->).
        exists (x0 :: x'), y'. reflexivity.
Qed.

Lemma normalize_piece (text x v y : str) :
  normalize text = x ++ v ++ y -> Forall (fun a => a <> 32) v ->
  exists x' y', text = x' ++ v ++ y'.
Proof.
  rewrite normalize_unfolded. intros E F.
  destruct (@squeeze_piece v F _ _ _ _ E) as (x1 & y1 & E1).
  destruct (strip_piece (map (blank 9) (map (blank 13)
                           (map (blank 10) text)))) as (a & b & E2).
  rewrite E1 in E2.
  replace (a ++ (x1 ++ v ++ y1) ++ b) with ((a ++ x1) ++ v ++ (y1 ++ b))
    in E2 by (rewrite <- !app_assoc; reflexivity).
  destruct (@blank_piece _ _ _ _ _ E2 F) as (x2 & y2 & E3).
  destruct (@blank_piece _ _ _ _ _ E3 F) as (x3 & y3 & E4).
  exact (@blank_piece _ _ _ _ _ E4 F).
Qed.

Lemma spelled_plain (w v : str) :
  Forall (fun c => chr_matches true c 32 = false) w ->
  spelled w v -> Forall (fun x => x <> 32) v.
Proof.
  intros F S. induction S as [|c x w v Hx S IH]; [constructor|].
  inversion F as [|? ? Hc Fw]; subst. constructor; [|apply IH, Fw].
  intros ->. congruence.
Qed.

(** A word found in the normalized text is in the text. *)
Lemma occurs_normalize (w text : str) :
  Forall (fun c => chr_matches true c 32 = false) w ->
  occurs w (normalize text) -> occurs w text.
Proof.
  intros F (x & v & y & E & S).
  destruct (@normalize_piece _ _ _ _ E (spelled_plain F S)) as (x' & y' & ->).
  exists x', v, y'. auto.
Qed.

Lemma occurs_piece (w piece before rest : str) :
  occurs w piece -> occurs w (before ++ piece ++ rest).
Proof.
  intros (x & v & y & -> & S). exists (before ++ x), v, (y ++ rest).
  split; [|assumption]. rewrite <- !app_assoc. reflexivity.
Qed.

Lemma candidate_is_piece (text c : str) :
  In c (candidates text) -> exists before rest, text = before ++ c ++ rest.
Proof.
  intros Hc.
  destruct (@split_members text _ (@split_candidates_upto _ _ (le_n _)) c Hc)
    as (_ & H).
  exact H.
Qed.

Lemma words_en_plain :
  Forall (Forall (fun c => chr_matches true c 32 = false))
         (verbs_en ++ days_en).
Proof.
  repeat (apply Forall_cons;
          [repeat (apply Forall_cons; [reflexivity|]); apply Forall_nil|]).
  apply Forall_nil.
Qed.

(** A text that nowhere has [day], or nowhere has any of [last],
    [took] and [take], has no sentence for the English pattern. *)
Lemma no_word_no_match (text : str) :
  (forall w, In w days_en -> ~ occurs w text)
  \/ (forall w, In w verbs_en -> ~ occurs w text) ->
  matching_sentences matcher_en text = [].
Proof.
  intros H. unfold matching_sentences. apply filter_none.
  intros c Hc. destruct (search true matcher_en c) eqn:E; [|reflexivity].
  exfalso. apply search_en in E.
  destruct E as (before & v & between & d & rest & -> & Ev & _ & Ed).
  destruct (candidate_is_piece _ _ Hc) as (b & r & Eb).
  pose proof words_en_plain as P. rewrite Forall_forall in P.
  assert (forall (words : list str) (piece x y : str),
             (forall u, In u words -> In u (verbs_en ++ days_en)) ->
             Exists (fun u => spelled u piece) words ->
             (forall u, In u words -> ~ occurs u text) ->
             normalize text = x ++ piece ++ y -> False) as Hno.
  { intros words piece x y Hsub Ex Hnone En.
    apply Exists_exists in Ex. destruct Ex as (u & Hu & Su).
    apply (Hnone u Hu), occurs_normalize; [apply P, Hsub, Hu|].
    exists x, piece, y. auto. }
  destruct H as [H|H].
  - apply (Hno days_en d (b ++ before ++ v ++ between ++ [32]) (rest ++ r));
      [intros u Hu; apply in_or_app; right; exact Hu|exact Ed|exact H|].
    rewrite Eb, <- !app_assoc. reflexivity.
  - apply (Hno verbs_en v (b ++ before)
               (between ++ [32] ++ d ++ rest ++ r));
      [intros u Hu; apply in_or_app; left; exact Hu|exact Ev|exact H|].
    rewrite Eb, <- !app_assoc. reflexivity.
Qed.




End Filter.

(** * What a parsing worker writes *)

Section Written.

Import re WikipediaScraper SentenceFinder Pages Output.

Local Open Scope N_scope.

Lemma encode_char_scalar (c : char) : scalar c -> encode_char c <> None.
Proof.
  unfold scalar, encode_char. intros H.
  destruct (c <? 128) eqn:E1; [discriminate|].
  destruct (c <? 2048) eqn:E2; [discriminate|].
  destruct (c <? 65536) eqn:E3.
  - destruct ((55296 <=? c) && (c <=? 57343)) eqn:E4; [|discriminate].
    apply andb_true_iff in E4. destruct E4 as [E4 E5].
    apply N.leb_le in E4, E5. lia.
  - destruct (c <? 1114112) eqn:E4; [discriminate|].
    apply N.ltb_ge in E4. lia.
Qed.

Lemma encode_app (a b : str) :
  encode (a ++ b)
  = match encode a, encode b with
    | Some x, Some y => Some (x ++ y)
    | _, _ => None
    end.
Proof.
  induction a as [|c a IH]; simpl.
  - destruct (encode b); reflexivity.
  - rewrite IH. destruct (encode_char c); [|reflexivity].
    destruct (encode a); [|reflexivity].
    destruct (encode b); [|reflexivity].
    rewrite app_assoc. reflexivity.
Qed.

Lemma encode_scalar (s : str) :
  Forall scalar s -> exists bytes, encode s = Some bytes.
Proof.
  induction 1 as [|c s Hc F [bytes IH]]; simpl; [eauto|].
  apply encode_char_scalar in Hc.
  destruct (encode_char c) as [b|]; [|congruence].
  rewrite IH. eauto.
Qed.

Lemma forall_firstn (P : char -> Prop) (n : nat) (s : str) :
  Forall P s -> Forall P (firstn n s).
Proof.
  intros F. rewrite <- (firstn_skipn n s) in F.
  apply Forall_app in F. apply F.
Qed.

Lemma scan_forall (P : char -> Prop) (r : regex) (s : str) :
  Forall P s ->
  forall n,
    Forall (Forall P)
           (flat_map (fun p => match p with
                               | Matched m => [m]
                               | Copied _ => []
                               end) (scan r n s)).
Proof.
  induction 1 as [|c s Hc F IH]; intros n; simpl; [constructor|].
  destruct n as [|n]; [|apply IH].
  destruct (match_at false r (c :: s)) as [[|k]|]; simpl; try apply IH.
  constructor; [|apply IH].
  constructor; [assumption|]. apply forall_firstn. assumption.
Qed.

Lemma scalar_space : scalar 32.
Proof. left. reflexivity. Qed.

Lemma sentences_scalar (sentence_matcher : regex) (content_text : str) :
  Forall scalar content_text ->
  Forall (Forall scalar) (matching_sentences sentence_matcher content_text).
Proof.
  intros F. unfold matching_sentences, candidates, findall.
  apply Forall_forall. intros x Hx. apply filter_In in Hx.
  destruct Hx as [Hx _]. revert x Hx. apply Forall_forall.
  apply scan_forall, normalize_forall; [exact scalar_space|assumption].
Qed.

Lemma lines_scalar (title : str) (sentences : list str) :
  Forall scalar title -> Forall (Forall scalar) sentences ->
  Forall scalar (lines title sentences).
Proof.
  intros Ft. induction 1 as [|s l Hs F IH]; simpl; [constructor|].
  apply Forall_app. split; [|exact IH].
  apply Forall_app. split; [exact Ft|].
  repeat (apply Forall_cons; [left; reflexivity|]).
  apply Forall_app. split; [exact Hs|].
  apply Forall_cons; [left; reflexivity|apply Forall_nil].
Qed.

Lemma write_lines_encoded (title : str) (sentences : list str)
    (path : str) (bytes : list N) :
  encode (lines title sentences) = Some bytes ->
  forall fs,
    exists fs',
      write_lines title sentences path fs = (true, fs')
      /\ contents fs' path = contents fs path ++ bytes
      /\ (forall other, other <> path -> fs' other = fs other).
Proof.
  revert bytes. induction sentences as [|s more IH]; intros bytes E fs.
  - simpl in E. inversion E; subst. exists fs. simpl.
    rewrite app_nil_r. auto.
  - change (lines title (s :: more))
      with ((title ++ lit " - " ++ s ++ [10]) ++ lines title more) in E.
    rewrite encode_app in E. cbn [write_lines].
    destruct (encode (title ++ lit " - " ++ s ++ [10])) as [b1|];
      [|discriminate].
    destruct (encode (lines title more)) as [b2|] eqn:E2; [|discriminate].
    inversion E; subst bytes.
    destruct (IH b2 eq_refl (append_file fs path b1)) as (fs' & W & C & O).
    exists fs'. split; [assumption|]. split.
    + rewrite C, contents_append_file, app_assoc. reflexivity.
    + intros other Hne. rewrite (O other Hne).
      apply append_file_other. assumption.
Qed.

Lemma contents_opened (fs : Files) (path : str) :
  contents (append_file fs path []) path = contents fs path.
Proof. rewrite contents_append_file. apply app_nil_r. Qed.

Lemma lit_scalar (s : string) : Forall scalar (lit s).
Proof.
  unfold lit. apply Forall_forall. intros c Hc. apply in_map_iff in Hc.
  destruct Hc as (a & <- & _). left.
  pose proof (N_ascii_bounded a). lia.
Qed.

Lemma header_scalar (worker_id pages_visited : nat) (title : str) :
  Forall scalar title -> Forall scalar (header worker_id pages_visited title).
Proof.
  intros F. unfold header, format_nat.
  repeat (apply Forall_app; split); auto using lit_scalar.
Qed.

(** Lines of code points that UTF-8 has bytes for are all printed. *)
Lemma print_all_scalar (printed out : list str) :
  Forall (Forall scalar) printed ->
  print_all printed out = (true, out ++ printed).
Proof.
  intros F. revert out.
  induction F as [|line more Hl F IH]; intros out; simpl.
  - rewrite app_nil_r. reflexivity.
  - unfold print. destruct (encode_scalar Hl) as [b ->].
    rewrite IH, <- app_assoc. reflexivity.
Qed.

(** A turn on a readable page. *)
Lemma turn_parsed (worker_id : nat) (output_file : option str)
    (sentence_matcher : regex) (pages_visited : nat) (w : World)
    (page : str * Soup) (rest : list (str * Soup)) (bytes : list N) :
  try_pop (available_pages w) = Some (page, rest) ->
  readable page ->
  encode (lines (fst page) (sentences_of sentence_matcher page))
  = Some bytes ->
  exists after,
    parsing_worker worker_id output_file sentence_matcher pages_visited w
    = (Parsed, S pages_visited, after)
    /\ available_pages after = rest
    /\ SentenceFinder.stdout after
       = SentenceFinder.stdout w
         ++ header worker_id (S pages_visited) (fst page)
            :: sentences_of sentence_matcher page
    /\ match output_file with
       | Some path =>
           contents (files after) path = contents (files w) path ++ bytes
           /\ (forall other, other <> path ->
                 files after other = files w other)
       | None => files after = files w
       end.
Proof.
  destruct page as [title rc]. unfold sentences_of, readable. simpl.
  intros Hp (Ft & text & Ht & Fx) E.
  unfold parsing_worker, BeautifulSoup. rewrite Hp.
  rewrite Ht in E |- *.
  rewrite Nat.add_1_r. fold (header worker_id (S pages_visited) title).
  rewrite print_all_scalar
    by (constructor; [apply header_scalar; assumption
                     |apply sentences_scalar; assumption]).
  destruct output_file as [path|].
  - destruct (matching_sentences sentence_matcher text) as [|s l] eqn:Es.
    + simpl. eexists. repeat split. simpl in E. inversion E.
      rewrite app_nil_r. reflexivity.
    + change (0 <? length (s :: l))%nat with true. cbv iota.
      unfold log_to_output_file.
      destruct (write_lines_encoded _ _ path E (append_file (files w) path []))
        as (fs' & W & C & O).
      rewrite W. eexists. repeat split; simpl.
      * rewrite C, contents_opened. reflexivity.
      * intros other Hne. rewrite (O other Hne).
        apply append_file_other. assumption.
  - eexists. repeat split.
Qed.

Lemma readable_encodes (sentence_matcher : regex) (page : str * Soup) :
  readable page ->
  mw_content_text (snd page) <> None
  /\ exists bytes,
       encode (lines (fst page) (sentences_of sentence_matcher page))
       = Some bytes.
Proof.
  intros (Ft & text & Ht & Fx). split; [congruence|].
  apply encode_scalar, lines_scalar; [assumption|].
  unfold sentences_of. rewrite Ht. apply sentences_scalar. assumption.
Qed.



Lemma try_pop_last (q : list (str * Soup)) (page : str * Soup) :
  try_pop (q ++ [page]) = Some (page, q).
Proof.
  unfold try_pop. rewrite length_app, Nat.add_1_r.
  change (0 <? S (length q))%nat with true. cbv iota.
  apply pop_app_last.
Qed.



End Written.

Section Loop.

Import re WikipediaScraper SentenceFinder Pages Output.

Local Open Scope nat_scope.

Lemma loop_idle (turns worker_id : nat) (output_file : option str)
    (sentence_matcher : regex) (pages_visited : nat) (w : World) :
  available_pages w = [] ->
  parsing_worker_loop turns worker_id output_file sentence_matcher
                      pages_visited w
  = (true, pages_visited, w).
Proof.
  intros E. induction turns as [|t IH]; simpl; [reflexivity|].
  unfold parsing_worker. rewrite E. simpl. exact IH.
Qed.

Lemma lines_of_app (sentence_matcher : regex)
    (a b : list (str * Soup)) :
  lines_of sentence_matcher (a ++ b)
  = lines_of sentence_matcher a ++ lines_of sentence_matcher b.
Proof. apply flat_map_app. Qed.

Lemma loop_drains (worker_id : nat) (path : str) (sentence_matcher : regex)
    (q : list (str * Soup)) :
  Forall readable q ->
  forall turns pages_visited w,
    available_pages w = q -> length q <= turns ->
    exists bytes after,
      parsing_worker_loop turns worker_id (Some path) sentence_matcher
                          pages_visited w
      = (true, pages_visited + length q, after)
      /\ available_pages after = []
      /\ encode (lines_of sentence_matcher (rev q)) = Some bytes
      /\ contents (files after) path = contents (files w) path ++ bytes
      /\ (forall other, other <> path ->
            files after other = files w other).
Proof.
  induction q as [|page q IH] using rev_ind; intros F turns n w Eq Hn.
  - exists [], w. rewrite (@loop_idle turns worker_id (Some path) sentence_matcher n w Eq).
    simpl. rewrite Nat.add_0_r, app_nil_r.
    auto.
  - apply Forall_app in F. destruct F as [Fq Fp].
    inversion Fp as [|? ? R _]; subst.
    rewrite length_app, Nat.add_1_r in Hn.
    destruct turns as [|t]; [lia|].
    destruct (readable_encodes sentence_matcher R) as (Ht & b1 & E1).
    assert (try_pop (available_pages w) = Some (page, q)) as Hp
      by (rewrite Eq; apply try_pop_last).
    destruct (@turn_parsed worker_id (Some path) sentence_matcher n w
                           page q b1 Hp R E1)
      as (w1 & T & Q1 & _ & C1 & O1).
    destruct (IH Fq t (S n) w1 Q1 ltac:(lia))
      as (b2 & after & L & Q2 & E2 & C2 & O2).
    exists (b1 ++ b2), after. cbn [parsing_worker_loop]. rewrite T.
    rewrite length_app, Nat.add_1_r, Nat.add_succ_r. split; [exact L|].
    split; [assumption|]. split; [|split].
    + rewrite rev_app_distr. simpl rev. simpl app.
      change (lines_of sentence_matcher (page :: rev q))
        with (lines (fst page) (sentences_of sentence_matcher page)
              ++ lines_of sentence_matcher (rev q)).
      rewrite encode_app, E1, E2. reflexivity.
    + rewrite C2, C1, app_assoc. reflexivity.
    + intros other Hne. rewrite (O2 other Hne). apply O1. assumption.
Qed.



End Loop.

Section Private.

Import re WikipediaScraper SentenceFinder Pages Output.

Lemma lit_injective (a b : string) : lit a = lit b -> a = b.
Proof.
  unfold lit. intros H.
  rewrite <- (string_of_list_ascii_of_string a),
          <- (string_of_list_ascii_of_string b).
  f_equal. revert H.
  generalize (list_ascii_of_string a) (list_ascii_of_string b).
  induction l as [|x l IH]; intros [|y l'] H; simpl in H;
    try discriminate; [reflexivity|].
  inversion H as [[Hx Hl]]. f_equal; [|apply IH; assumption].
  rewrite <- (ascii_N_embedding x), <- (ascii_N_embedding y), Hx.
  reflexivity.
Qed.

Lemma format_nat_injective (i j : nat) : format_nat i = format_nat j -> i = j.
Proof.
  unfold format_nat. intros H. apply lit_injective in H.
  assert (Some (Nat.to_uint i) = Some (Nat.to_uint j)) as E
    by (rewrite <- !DecimalString.NilEmpty.usu, H; reflexivity).
  inversion E as [E'].
  rewrite <- (DecimalNat.Unsigned.of_to i), <- (DecimalNat.Unsigned.of_to j),
          E'.
  reflexivity.
Qed.

Lemma output_file_injective (dir : str) (i j : nat) :
  output_file (Some dir) i = output_file (Some dir) j -> i = j.
Proof.
  unfold output_file, os_path_join. intros H. inversion H as [E].
  apply app_inv_head in E. inversion E as [E'].
  apply app_inv_tail in E'. apply format_nat_injective. assumption.
Qed.

Lemma turn_other_file (worker_id : nat) (path other : str)
    (sentence_matcher : regex) (pages_visited : nat) (w : World) :
  other <> path ->
  files (snd (parsing_worker worker_id (Some path) sentence_matcher
                             pages_visited w)) other
  = files w other.
Proof.
  intros Hne. unfold parsing_worker, BeautifulSoup.
  destruct (try_pop (available_pages w)) as [[[title rc] rest]|];
    [|reflexivity].
  destruct (mw_content_text rc) as [text|]; [|reflexivity].
  destruct (print_all _ (SentenceFinder.stdout w)) as [[|] out];
    [|reflexivity].
  destruct (0 <? length (matching_sentences sentence_matcher text))%nat;
    [|reflexivity].
  unfold log_to_output_file.
  destruct (write_lines_appends title
              (matching_sentences sentence_matcher text) path
              (append_file (files w) path [])) as (b & _ & O).
  destruct (write_lines _ _ _ _) as [ok fs]. simpl in *.
  rewrite (O other Hne). apply append_file_other. assumption.
Qed.

(** X19. Two workers of one finder have different output files, and a turn
    of one of them leaves the file of the other as it is. *)
Theorem output_files_are_private (output_dir : option str) (i j : nat)
    (file_i file_j : str) (sentence_matcher : regex)
    (pages_visited : nat) (w : World) :
  i <> j ->
  output_file output_dir i = Some file_i ->
  output_file output_dir j = Some file_j ->
  file_i <> file_j
  /\ files (snd (parsing_worker i (Some file_i) sentence_matcher
                                pages_visited w)) file_j
     = files w file_j.
Proof.
  intros Hij Hi Hj.
  assert (file_j <> file_i) as Hne.
  { intros E. subst file_j. destruct output_dir as [dir|]; [|discriminate].
    apply Hij, (@output_file_injective dir). congruence. }
  split; [congruence|]. apply turn_other_file. assumption.
Qed.

Lemma output_files_are_private_witness :
  lit "out/w0.txt" <> lit "out/w1.txt"
  /\ files (snd (parsing_worker 0 (Some (lit "out/w0.txt"))
                                (sentence_matcher (lit "en")) 0
                                (one_page Sentences.the_trip)))
           (lit "out/w1.txt")
     = files (one_page Sentences.the_trip) (lit "out/w1.txt").
Proof.
  refine (@output_files_are_private
            (Some (lit "out")) 0 1 (lit "out/w0.txt") (lit "out/w1.txt")
            (sentence_matcher (lit "en")) 0 (one_page Sentences.the_trip)
            _ _ _).
  - discriminate.
  - reflexivity.
  - reflexivity.
Defined.

End Private.

(** * The lines of the output file *)

Section Lines.

Import re WikipediaScraper SentenceFinder Pages Tidy Output.

Local Open Scope N_scope.

(** X20. No kept sentence has a newline, a carriage return or a tab in it:
    a sentence never breaks its line of the output file. *)
Theorem sentences_are_one_line (sentence_matcher : regex)
    (content_text : str) :
  Forall (Forall no_break)
         (matching_sentences sentence_matcher content_text).
Proof.
  unfold matching_sentences, candidates, findall.
  apply Forall_forall. intros x Hx. apply filter_In in Hx.
  destruct Hx as [Hx _]. revert x Hx. apply Forall_forall.
  apply scan_forall, normalize_no_break.
Qed.

Lemma low_bits (c : N) : 128 + c mod 64 < 256.
Proof.
  assert (c mod 64 < 64) by (apply N.mod_upper_bound; discriminate). lia.
Qed.

Lemma high_bits (c d q : N) : d <> 0 -> c < d * q -> c / d < q.
Proof. intros Hd H. apply N.Div0.div_lt_upper_bound. assumption. Qed.

Lemma some_same (A : Type) (x y : A) : Some x = Some y -> x = y.
Proof. congruence. Qed.

Lemma encode_char_bytes (c : char) (b : list N) :
  encode_char c = Some b -> scalar c /\ Forall (fun x => x < 256) b.
Proof.
  unfold encode_char, scalar.
  destruct (c <? 128) eqn:E1.
  { apply N.ltb_lt in E1. intros H0; apply some_same in H0; subst b.
    split; [lia|]. repeat (apply Forall_cons; [lia|]). apply Forall_nil. }
  destruct (c <? 2048) eqn:E2.
  { apply N.ltb_lt in E2. intros H0; apply some_same in H0; subst b.
    split; [lia|].
    assert (c / 64 < 32) by (apply high_bits; [discriminate|lia]).
    pose proof (low_bits c). repeat (apply Forall_cons; [lia|]). apply Forall_nil. }
  destruct (c <? 65536) eqn:E3.
  { apply N.ltb_lt in E3.
    destruct ((55296 <=? c) && (c <=? 57343)) eqn:E4; [discriminate|].
    intros H0; apply some_same in H0; subst b. split.
    - apply andb_false_iff in E4. destruct E4 as [E4|E4];
        apply N.leb_gt in E4; lia.
    - assert (c / 4096 < 16) by (apply high_bits; [discriminate|lia]).
      pose proof (low_bits c). pose proof (low_bits (c / 64)).
      repeat (apply Forall_cons; [lia|]). apply Forall_nil. }
  destruct (c <? 1114112) eqn:E4; [|discriminate].
  apply N.ltb_lt in E4. apply N.ltb_ge in E3.
  intros H0; apply some_same in H0; subst b. split; [lia|].
  assert (c / 262144 < 5) by (apply high_bits; [discriminate|lia]).
  pose proof (low_bits c). pose proof (low_bits (c / 64)).
  pose proof (low_bits (c / 4096)).
  repeat (apply Forall_cons; [lia|]). apply Forall_nil.
Qed.

(** X21. [encode] raises for a surrogate or a code point past 0x10FFFF and
    for nothing else; what it gives is bytes, and ASCII text is its
    own bytes. *)
Theorem encode_raises_on_surrogates_only (line : str) :
  (encode line <> None <-> Forall scalar line)
  /\ (forall bytes,
        encode line = Some bytes -> Forall (fun x => x < 256) bytes)
  /\ (Forall (fun c => c < 128) line -> encode line = Some line).
Proof.
  split; [split|split].
  - induction line as [|c s IH]; simpl; intros H; [constructor|].
    destruct (encode_char c) as [b|] eqn:Ec; [|congruence].
    destruct (encode s) as [bs|]; [|congruence].
    constructor; [|apply IH; discriminate].
    apply (encode_char_bytes _ Ec).
  - intros F. destruct (encode_scalar F) as [bytes E]. congruence.
  - induction line as [|c s IH]; simpl; intros bytes H.
    + inversion H. constructor.
    + destruct (encode_char c) as [b|] eqn:Ec; [|discriminate].
      destruct (encode s) as [bs|]; [|discriminate].
      inversion H; subst. apply Forall_app. split; [|apply IH; reflexivity].
      apply (encode_char_bytes _ Ec).
  - induction 1 as [|c s Hc F IH]; simpl; [reflexivity|].
    unfold encode_char. apply N.ltb_lt in Hc. rewrite Hc, IH. reflexivity.
Qed.

End Lines.
